(** * artificial_life: the simulation kernel, embedded and verified

    A shallow embedding of the particle-life simulation kernel:

    - [Particle]      (Particle.js): pairwise force, clamps, integration;
    - [Quadtree]      (Quadtree.js): the spatial index;
    - [PhysicsEngine] (PhysicsEngine.js): the per-frame update;
    - [RuleManager]   (src/rules/RuleManager.js): history and import;
    - [ParticlePool]  (src/physics/ParticlePool.js): particle recycling.

    In the physics JavaScript numbers are idealised as real numbers:
    arithmetic is exact, there is no rounding, no NaN and no infinity.
    The spatial index is embedded over a number system [Number.t], with
    the reals and the doubles of the code ([Binary64.number]) as
    instances: a cell cannot be halved for ever on doubles, and what is
    proved of the index says which number system it holds in.  Counters
    that the code only ever increments, decrements or compares with
    integers are [Z].  A JavaScript exception is an explicit [Throw]
    result. *)

From Stdlib Require Import Reals Lra Lia ZArith String List Permutation.
From Stdlib Require PrimFloat.
From stdpp Require Import base option list gmap strings.

Set Default Proof Using "Type".
Set Warnings "-register-all".

(** ** JavaScript values and control effects *)

Inductive JsError :=
| TypeError
| SyntaxError.

Inductive JsResult (A : Type) :=
| Ok (a : A)
| Throw (e : JsError).
Arguments Ok {A} a.
Arguments Throw {A} e.

#[global] Instance JsResult_ret : MRet JsResult := fun A a => Ok a.
#[global] Instance JsResult_bind : MBind JsResult := fun A B k m =>
  match m with
  | Ok a => k a
  | Throw e => Throw e
  end.

(** Decidable comparisons on the reals, as boolean tests. *)
Definition Rltb (a b : R) : bool := if Rlt_dec a b then true else false.
Definition Rleb (a b : R) : bool := if Rle_dec a b then true else false.
Definition Reqb (a b : R) : bool := if Req_dec_T a b then true else false.

(** [v || d] on a possibly missing number: [undefined] and [0] are falsy. *)
Definition orDefault (v : option R) (d : R) : R :=
  match v with
  | Some n => if Reqb n 0 then d else n
  | None => d
  end.
Arguments orDefault : simpl never.

(** ** Config.js *)

Module CONFIG.
Definition PARTICLE_COUNT_PER_TYPE : Z := 200.
Definition MAX_TOTAL_PARTICLES : Z := 7000.
Definition MAX_COLLISIONS_PER_FRAME : Z := 50.
Definition MIN_POOL_SIZE : Z := 5000.
Definition COLLISION_COOLDOWN_FRAMES : Z := 60.
End CONFIG.

(** The options object handed to particles and to the engine.  A numeric
    field that the code reads through [||] is optional ([None] is
    [undefined]); the two flags are read for truthiness only. *)
Module Options.
Record t := mk {
  size : option R;
  friction : option R;
  bounceDecay : option R;
  maxAcceleration : option R;
  maxVelocity : option R;
  maxDistance : option R;
  collisionDistanceRatio : option R;
  forceMultiplier : option R;
  minDistanceToEdges : option R;
  edgeRepulsionForce : option R;
  enableVelocityClamp : bool;
  enableAccelerationClamp : bool;
  useQuadtree : bool;
  quadtreeCapacity : option Z
}.

(** [{}] *)
Definition empty : t :=
  mk None None None None None None None None None None false false false None.

(** [PARTICLE_CONFIG.defaultOptions] *)
Definition defaultOptions : t :=
  mk (Some 2%R) (Some 0.9%R) (Some 0.8%R) (Some 0.5%R) (Some 8%R)
     (Some 80%R) (Some 2%R) (Some 0.1%R) (Some 50%R) (Some 0.9%R)
     true true true (Some 8%Z).
End Options.

(** ** Rules *)

Record Creation := { c_type : string; count : Z }.

Record Rule := {
  closeForce : R;
  farForce : R;
  threshold : R;
  destroyOriginals : bool;
  createParticles : list Creation
}.

(** [rules[type1][type2]]: an object of objects keyed by type id. *)
Abbreviation RuleTable := (gmap string (gmap string Rule)).

Record Force := { f_x : R; f_y : R }.

(** ** Particle.js *)

Module Particle.
Local Open Scope R_scope.

(** The fields the constructor sets, apart from the references [colors]
    and [types] that only the renderer reads.  [calculateForce] also
    stores its [rules] argument in the fields [rules] and [prevRules],
    which nothing reads and [reset] leaves alone: they are not part of
    the record. *)
Record t := mk {
  id : Z;
  x : R;
  y : R;
  vx : R;
  vy : R;
  fx : R;
  fy : R;
  type : string;
  size : R;
  options : Options.t;
  friction : R;
  bounceDecay : R;
  maxAcceleration : R;
  maxVelocity : R;
  collisionCooldown : Z
}.

(** [new Particle(x, y, type, colors, types, options)]; the id comes from
    the module counter [nextParticleId], passed in by the caller. *)
Definition new (nextParticleId : Z) (x y : R) (type : string)
    (options : Options.t) : t :=
  mk nextParticleId x y 0 0 0 0 type
     (orDefault (Options.size options) 2)
     options
     (orDefault (Options.friction options) 0.9)
     (orDefault (Options.bounceDecay options) 0.8)
     (orDefault (Options.maxAcceleration options) 0.5)
     (orDefault (Options.maxVelocity options) 8)
     0%Z.

Definition with_force (p : t) (fx' fy' : R) : t :=
  mk (id p) (x p) (y p) (vx p) (vy p) fx' fy' (type p) (size p) (options p)
     (friction p) (bounceDecay p) (maxAcceleration p) (maxVelocity p)
     (collisionCooldown p).

Definition with_velocity (p : t) (vx' vy' : R) : t :=
  mk (id p) (x p) (y p) vx' vy' (fx p) (fy p) (type p) (size p) (options p)
     (friction p) (bounceDecay p) (maxAcceleration p) (maxVelocity p)
     (collisionCooldown p).

Definition with_position (p : t) (x' y' : R) : t :=
  mk (id p) x' y' (vx p) (vy p) (fx p) (fy p) (type p) (size p) (options p)
     (friction p) (bounceDecay p) (maxAcceleration p) (maxVelocity p)
     (collisionCooldown p).

Definition with_cooldown (p : t) (c : Z) : t :=
  mk (id p) (x p) (y p) (vx p) (vy p) (fx p) (fy p) (type p) (size p)
     (options p) (friction p) (bounceDecay p) (maxAcceleration p)
     (maxVelocity p) c.

(** The rule object [calculateForce] falls back to. *)
Definition neutralRule : Rule :=
  {| closeForce := 0; farForce := 0; threshold := 30;
     destroyOriginals := false; createParticles := [] |}.

(** [onCollision] is the collision handler of the pre-engine code.  After
    its cooldown guard it consults the free identifiers
    [collisionsThisFrame], [particles], [rules], [particlesToRemove] and
    [particlesToAdd].  No script of the repository declares them, so
    [typeof rules === "undefined"] holds and the handler returns before it
    mutates anything: it leaves both particles as they are. *)
Definition onCollision (self other : t) : t * t :=
  if (0 <? collisionCooldown self)%Z || (0 <? collisionCooldown other)%Z
  then (self, other)
  else (* typeof rules === "undefined" *) (self, other).

(** The [distance] that [calculateForce] computes first. *)
Definition distance (self other : t) : R :=
  let dx := x other - x self in
  let dy := y other - y self in
  sqrt (dx * dx + dy * dy).

(** [calculateForce(otherParticle, rules, options)].  Reading
    [rules[this.type][otherParticle.type]] throws a TypeError when
    [rules[this.type]] is [undefined].  In collision range the method calls
    [onCollision], which changes nothing (see above), so the force is all
    it produces, apart from the assignments to the fields [rules] and
    [prevRules] that are left out of the record. *)
Definition calculateForce (self other : t) (rules : RuleTable)
    (options : Options.t) : JsResult Force :=
  let dx := x other - x self in
  let dy := y other - y self in
  let distance := sqrt (dx * dx + dy * dy) in
  let maxDistance := orDefault (Options.maxDistance options) 80 in
  let forceMultiplier := orDefault (Options.forceMultiplier options) 0.1 in
  if Reqb distance 0 || Rltb maxDistance distance then
    Ok {| f_x := 0; f_y := 0 |}
  else
    match rules !! type self with
    | None => Throw TypeError
    | Some row =>
      let rule := default neutralRule (row !! type other) in
      let nx := dx / distance in
      let ny := dy / distance in
      let falloff := 1 - distance / maxDistance in
      let force :=
        if Rltb distance (threshold rule)
        then closeForce rule else farForce rule in
      let collisionDistanceRatio :=
        orDefault (Options.collisionDistanceRatio options) 1 in
      let collisionDistance :=
        (size self + size other) * collisionDistanceRatio in
      let collisionForce :=
        if Rltb distance collisionDistance
        then -3 * (1 - distance / collisionDistance)
        else 0 in
      let finalForce :=
        (force * falloff + collisionForce) * forceMultiplier in
      Ok {| f_x := finalForce * nx; f_y := finalForce * ny |}
    end.

(** [resetForces()] *)
Definition resetForces (p : t) : t := with_force p 0 0.

(** [applyForce(force)] *)
Definition applyForce (p : t) (f : Force) : t :=
  with_force p (fx p + f_x f) (fy p + f_y f).

(** [calculateEdgeRepulsion(canvasWidth, canvasHeight, options)] *)
Definition calculateEdgeRepulsion (p : t) (canvasWidth canvasHeight : R)
    (options : Options.t) : Force :=
  let minDistance := orDefault (Options.minDistanceToEdges options) 50 in
  let repulsionForce := orDefault (Options.edgeRepulsionForce options) 0.3 in
  let distToLeft := x p in
  let distToRight := canvasWidth - x p in
  let distToTop := y p in
  let distToBottom := canvasHeight - y p in
  let fx0 := 0 in
  let fx1 :=
    if Rltb distToLeft minDistance
    then fx0 + repulsionForce * (1 - distToLeft / minDistance) else fx0 in
  let fx2 :=
    if Rltb distToRight minDistance
    then fx1 - repulsionForce * (1 - distToRight / minDistance) else fx1 in
  let fy0 := 0 in
  let fy1 :=
    if Rltb distToTop minDistance
    then fy0 + repulsionForce * (1 - distToTop / minDistance) else fy0 in
  let fy2 :=
    if Rltb distToBottom minDistance
    then fy1 - repulsionForce * (1 - distToBottom / minDistance) else fy1 in
  {| f_x := fx2; f_y := fy2 |}.

(** [clampAcceleration()] *)
Definition clampAcceleration (p : t) : t :=
  let accelerationMagnitude := sqrt (fx p * fx p + fy p * fy p) in
  if Rltb (maxAcceleration p) accelerationMagnitude then
    let scale := maxAcceleration p / accelerationMagnitude in
    with_force p (fx p * scale) (fy p * scale)
  else p.

(** [clampVelocity()] *)
Definition clampVelocity (p : t) : t :=
  let velocityMagnitude := sqrt (vx p * vx p + vy p * vy p) in
  if Rltb (maxVelocity p) velocityMagnitude then
    let scale := maxVelocity p / velocityMagnitude in
    with_velocity p (vx p * scale) (vy p * scale)
  else p.

(** [update(canvasWidth, canvasHeight)] *)
Definition update (p : t) : t :=
  let p1 :=
    if (0 <? collisionCooldown p)%Z
    then with_cooldown p (collisionCooldown p - 1)%Z else p in
  let p2 :=
    if Options.enableAccelerationClamp (options p1)
    then clampAcceleration p1 else p1 in
  let p3 := with_velocity p2 (vx p2 + fx p2) (vy p2 + fy p2) in
  let p4 :=
    if Options.enableVelocityClamp (options p3)
    then clampVelocity p3 else p3 in
  let p5 := with_velocity p4 (vx p4 * friction p4) (vy p4 * friction p4) in
  with_position p5 (x p5 + vx p5) (y p5 + vy p5).

(** [getSpeed()] *)
Definition getSpeed (p : t) : R := sqrt (vx p * vx p + vy p * vy p).

(** [reset(x, y, type, colors, types, options)]: the id is kept. *)
Definition reset (p : t) (x y : R) (type : string) (options : Options.t)
    : t :=
  mk (id p) x y 0 0 0 0 type
     (orDefault (Options.size options) 2)
     options
     (orDefault (Options.friction options) 0.9)
     (orDefault (Options.bounceDecay options) 0.8)
     (orDefault (Options.maxAcceleration options) 0.5)
     (orDefault (Options.maxVelocity options) 8)
     0%Z.

(** [getAcceleration()] *)
Definition getAcceleration (p : t) : R := sqrt (fx p * fx p + fy p * fy p).

(** [distanceTo(otherParticle)] *)
Definition distanceTo (self other : t) : R :=
  let dx := x self - x other in
  let dy := y self - y other in
  sqrt (dx * dx + dy * dy).

(** [isNearEdge(canvasWidth, canvasHeight, margin = 50)] *)
Definition isNearEdge (p : t) (canvasWidth canvasHeight : R)
    (margin : option R) : bool :=
  let margin := default 50 margin in
  Rltb (x p) margin || Rltb (canvasWidth - margin) (x p) ||
  Rltb (y p) margin || Rltb (canvasHeight - margin) (y p).

(** [setMaxVelocity(newMaxVelocity)] *)
Definition setMaxVelocity (p : t) (newMaxVelocity : R) : t :=
  mk (id p) (x p) (y p) (vx p) (vy p) (fx p) (fy p) (type p) (size p)
     (options p) (friction p) (bounceDecay p) (maxAcceleration p)
     (Rmax 0.1 newMaxVelocity) (collisionCooldown p).

(** [setMaxAcceleration(newMaxAcceleration)] *)
Definition setMaxAcceleration (p : t) (newMaxAcceleration : R) : t :=
  mk (id p) (x p) (y p) (vx p) (vy p) (fx p) (fy p) (type p) (size p)
     (options p) (friction p) (bounceDecay p) (Rmax 0.01 newMaxAcceleration)
     (maxVelocity p) (collisionCooldown p).
End Particle.

(** ** Numbers of the geometry *)

(** Quadtree.js touches coordinates only through the operations below.
    It is embedded once, over any number system that has them, and read
    in two: the exact reals, which the physics above idealises JavaScript
    numbers to, and binary64, the numbers the code runs on.  The two
    differ by roundings; in the quadtree a rounding decides whether
    [x + w] is still greater than [x], that is, whether a quadrant
    contains anything. *)
Module Number.
Class t (N : Type) := mk {
  two : N;
  add : N -> N -> N;
  sub : N -> N -> N;
  mul : N -> N -> N;
  div : N -> N -> N;
  (** [a < b] and [a <= b] *)
  ltb : N -> N -> bool;
  leb : N -> N -> bool;
  (** [Math.max(a, b)] and [Math.min(a, b)] *)
  max : N -> N -> N;
  min : N -> N -> N
}.

#[global] Instance real : t R := {|
  two := 2%R;
  add := Rplus; sub := Rminus; mul := Rmult; div := Rdiv;
  ltb := Rltb; leb := Rleb;
  max := Rmax; min := Rmin
|}.
End Number.

(** IEEE 754 binary64 with round-to-nearest-even, the primitive floats
    of the kernel: the arithmetic and the comparisons of JavaScript
    numbers. *)
Module Binary64.
Import PrimFloat.

(** [Math.max]: NaN when an argument is NaN, and [+0] above [-0]. *)
Definition max (a b : float) : float :=
  if is_nan a || is_nan b then nan
  else if ltb a b then b
  else if ltb b a then a
  else if get_sign a then b else a.

(** [Math.min] *)
Definition min (a b : float) : float :=
  if is_nan a || is_nan b then nan
  else if ltb a b then a
  else if ltb b a then b
  else if get_sign a then a else b.

#[global] Instance number : Number.t float := {|
  Number.two := 2%float;
  Number.add := add; Number.sub := sub; Number.mul := mul; Number.div := div;
  Number.ltb := ltb; Number.leb := leb;
  Number.max := max; Number.min := min
|}.
End Binary64.

(** ** Quadtree.js *)

Module Rectangle.
Record t (N : Type) := mk { x : N; y : N; width : N; height : N }.
Arguments mk {N} x y width height.
Arguments x {N} _.
Arguments y {N} _.
Arguments width {N} _.
Arguments height {N} _.

Section Rectangle.
Context {N : Type} `{Number.t N}.

(** [contains(particle)], on the particle's coordinates. *)
Definition contains (r : t N) (px py : N) : bool :=
  Number.leb (x r) px && Number.ltb px (Number.add (x r) (width r)) &&
  Number.leb (y r) py && Number.ltb py (Number.add (y r) (height r)).

(** [intersects(range)] *)
Definition intersects (r range : t N) : bool :=
  negb (Number.ltb (Number.add (x r) (width r)) (x range) ||
        Number.ltb (Number.add (x range) (width range)) (x r) ||
        Number.ltb (Number.add (y r) (height r)) (y range) ||
        Number.ltb (Number.add (y range) (height range)) (y r)).
End Rectangle.
End Rectangle.

Module Quadtree.

Section Quadtree.
(** The tree stores references to particles; [px] and [py] read the
    coordinates of a stored reference. *)
Context {N : Type} `{Number.t N} {A : Type}.
Variables px py : A -> N.

(** A node that is not [divided] is a [Leaf]; [subdivide] turns it into
    a [Node] with its four [subdivisions]. *)
Inductive t :=
| Leaf (boundary : Rectangle.t N) (capacity : Z) (particles : list A)
| Node (boundary : Rectangle.t N) (capacity : Z) (particles : list A)
       (northeast northwest southeast southwest : t).

Definition boundary (q : t) : Rectangle.t N :=
  match q with Leaf b _ _ | Node b _ _ _ _ _ _ => b end.
Definition capacity (q : t) : Z :=
  match q with Leaf _ c _ | Node _ c _ _ _ _ _ => c end.
Definition particles (q : t) : list A :=
  match q with Leaf _ _ ps | Node _ _ ps _ _ _ _ => ps end.

(** [new Quadtree(boundary, capacity = 4)] *)
Definition new (boundary : Rectangle.t N) (capacity : option Z) : t :=
  Leaf boundary (default 4%Z capacity) [].

(** The four rectangles [subdivide] creates. *)
Definition ne_rect (b : Rectangle.t N) : Rectangle.t N :=
  let w := Number.div (Rectangle.width b) Number.two in
  let h := Number.div (Rectangle.height b) Number.two in
  Rectangle.mk (Number.add (Rectangle.x b) w) (Rectangle.y b) w h.
Definition nw_rect (b : Rectangle.t N) : Rectangle.t N :=
  let w := Number.div (Rectangle.width b) Number.two in
  let h := Number.div (Rectangle.height b) Number.two in
  Rectangle.mk (Rectangle.x b) (Rectangle.y b) w h.
Definition se_rect (b : Rectangle.t N) : Rectangle.t N :=
  let w := Number.div (Rectangle.width b) Number.two in
  let h := Number.div (Rectangle.height b) Number.two in
  Rectangle.mk (Number.add (Rectangle.x b) w) (Number.add (Rectangle.y b) h)
    w h.
Definition sw_rect (b : Rectangle.t N) : Rectangle.t N :=
  let w := Number.div (Rectangle.width b) Number.two in
  let h := Number.div (Rectangle.height b) Number.two in
  Rectangle.mk (Rectangle.x b) (Number.add (Rectangle.y b) h) w h.

(** [subdivide()]: four empty children; the node keeps its own
    particles. *)
Definition subdivide (q : t) : t :=
  let b := boundary q in
  let c := capacity q in
  Node b c (particles q)
       (new (ne_rect b) (Some c)) (new (nw_rect b) (Some c))
       (new (se_rect b) (Some c)) (new (sw_rect b) (Some c)).

(** [if (!this.divided) this.subdivide()] *)
Definition ensureDivided (q : t) : t :=
  match q with
  | Leaf _ _ _ => subdivide q
  | Node _ _ _ _ _ _ _ => q
  end.

(** The chain [ne.insert(p) || nw.insert(p) || se.insert(p) ||
    sw.insert(p)] on a divided node, with [ins] the insertion into one
    child; a child is not tried once an earlier one has accepted. *)
Definition insertIntoChildren (ins : t -> option (bool * t))
    (b : Rectangle.t N) (c : Z) (ps : list A) (ne nw se sw : t)
    : option (bool * t) :=
  match ins ne with
  | None => None
  | Some (true, ne') => Some (true, Node b c ps ne' nw se sw)
  | Some (false, ne') =>
    match ins nw with
    | None => None
    | Some (true, nw') => Some (true, Node b c ps ne' nw' se sw)
    | Some (false, nw') =>
      match ins se with
      | None => None
      | Some (true, se') => Some (true, Node b c ps ne' nw' se' sw)
      | Some (false, se') =>
        match ins sw with
        | None => None
        | Some (r, sw') => Some (r, Node b c ps ne' nw' se' sw')
        end
      end
    end
  end.

(** [this.particles.push(particle)] *)
Definition push (q : t) (p : A) : t :=
  match q with
  | Leaf b c ps => Leaf b c (ps ++ [p])
  | Node b c ps ne nw se sw => Node b c (ps ++ [p]) ne nw se sw
  end.

(** [insert(particle)].  The call recurses into nodes it has just
    created, so the recursion is on [fuel], the number of nested calls
    allowed; [None] is a call that needs more than that. *)
Fixpoint insert (fuel : nat) (q : t) (p : A) : option (bool * t) :=
  match fuel with
  | O => None
  | S n =>
    if negb (Rectangle.contains (boundary q) (px p) (py p)) then
      Some (false, q)
    else if (Z.of_nat (length (particles q)) <? capacity q)%Z then
      Some (true, push q p)
    else
      match ensureDivided q with
      | Leaf _ _ _ => Some (false, q)
      | Node b c ps ne nw se sw =>
        insertIntoChildren (fun child => insert n child p) b c ps ne nw se sw
      end
  end.

(** The particle test of [queryCircle]. *)
Definition inCircle (x y radius : N) (p : A) : bool :=
  let particleDx := Number.sub (px p) x in
  let particleDy := Number.sub (py p) y in
  Number.leb
    (Number.add (Number.mul particleDx particleDx)
                (Number.mul particleDy particleDy))
    (Number.mul radius radius).

(** The pruning test of [queryCircle]: the closest point of the
    boundary is farther than [radius]. *)
Definition outOfReach (b : Rectangle.t N) (x y radius : N) : bool :=
  let closestX :=
    Number.max (Rectangle.x b)
      (Number.min x (Number.add (Rectangle.x b) (Rectangle.width b))) in
  let closestY :=
    Number.max (Rectangle.y b)
      (Number.min y (Number.add (Rectangle.y b) (Rectangle.height b))) in
  let dx := Number.sub x closestX in
  let dy := Number.sub y closestY in
  Number.ltb (Number.mul radius radius)
             (Number.add (Number.mul dx dx) (Number.mul dy dy)).

(** [queryCircle(x, y, radius, found = [])] *)
Fixpoint queryCircle (q : t) (x y radius : N) (found : list A) : list A :=
  if outOfReach (boundary q) x y radius then found
  else
    let found' := found ++ List.filter (inCircle x y radius) (particles q) in
    match q with
    | Leaf _ _ _ => found'
    | Node _ _ _ ne nw se sw =>
      queryCircle sw x y radius
        (queryCircle se x y radius
          (queryCircle nw x y radius
            (queryCircle ne x y radius found')))
    end.

(** [size()] *)
Fixpoint size (q : t) : nat :=
  match q with
  | Leaf _ _ ps => length ps
  | Node _ _ ps ne nw se sw =>
    (length ps + size ne + size nw + size se + size sw)%nat
  end.

(** [depth()] *)
Fixpoint depth (q : t) : nat :=
  match q with
  | Leaf _ _ _ => 1%nat
  | Node _ _ _ ne nw se sw =>
    S (Nat.max (Nat.max (depth ne) (depth nw))
               (Nat.max (depth se) (depth sw)))
  end.

(** Inserting a list of particles one after the other, as
    [particles.forEach(p => quadtree.insert(p))] does; the boolean
    results are dropped. *)
Fixpoint insertAll (fuel : nat) (q : t) (ps : list A) : option t :=
  match ps with
  | [] => Some q
  | p :: ps' =>
    match insert fuel q p with
    | None => None
    | Some (_, q') => insertAll fuel q' ps'
    end
  end.

(** Every particle stored in the tree, in the order [queryCircle]
    visits them. *)
Fixpoint elements (q : t) : list A :=
  match q with
  | Leaf _ _ ps => ps
  | Node _ _ ps ne nw se sw =>
    ps ++ elements ne ++ elements nw ++ elements se ++ elements sw
  end.

(** [query(range, found = [])] *)
Fixpoint query (q : t) (range : Rectangle.t N) (found : list A) : list A :=
  if negb (Rectangle.intersects (boundary q) range) then found
  else
    let found' :=
      found ++
      List.filter (fun p => Rectangle.contains range (px p) (py p))
                  (particles q) in
    match q with
    | Leaf _ _ _ => found'
    | Node _ _ _ ne nw se sw =>
      query sw range (query se range (query nw range (query ne range found')))
    end.

(** [getDepth()] *)
Fixpoint getDepth (q : t) : nat :=
  match q with
  | Leaf _ _ _ => 0%nat
  | Node _ _ _ ne nw se sw =>
    S (Nat.max (Nat.max (getDepth ne) (getDepth nw))
               (Nat.max (getDepth se) (getDepth sw)))
  end.

(** [clear()] *)
Definition clear (q : t) : t := Leaf (boundary q) (capacity q) [].
End Quadtree.

Arguments t N A : clear implicits.

(** Brute-force filtering by Euclidean distance, as the specification
    words it. *)
Definition bruteForceCircle {A} (px py : A -> R) (x y radius : R) (ps : list A)
    : list A :=
  List.filter
    (fun p => Rleb (sqrt ((px p - x) * (px p - x) + (py p - y) * (py p - y)))
                   radius)
    ps.
End Quadtree.

(** ** PhysicsEngine.js *)

(** [forEach] over a list with a body that may throw. *)
Fixpoint forEachR {S A : Type} (body : S -> A -> JsResult S) (l : list A)
    (s : S) : JsResult S :=
  match l with
  | [] => Ok s
  | a :: l' => s' ← body s a; forEachR body l' s'
  end.

Module PhysicsEngine.
Local Open Scope R_scope.

(** An entry of [particlesToAdd]. *)
Record SpawnRequest := {
  s_x : R;
  s_y : R;
  s_type : string;
  s_options : Options.t;
  initialVx : R;
  initialVy : R
}.

(** The engine.  The [particles] array holds distinct objects; a
    reference to a particle is its position in the array, which is how
    [particlesToRemove] and the quadtree name particles.  [randomCalls]
    counts the calls of [Math.random()] made so far.  The timing
    statistics and the stored quadtree take no part in the results. *)
Record t := mk {
  particles : list Particle.t;
  rules : RuleTable;
  options : Options.t;
  collisionsThisFrame : Z;
  particlesToAdd : list SpawnRequest;
  particlesToRemove : list nat;
  randomCalls : nat
}.

Definition with_particles (e : t) (ps : list Particle.t) : t :=
  mk ps (rules e) (options e) (collisionsThisFrame e) (particlesToAdd e)
     (particlesToRemove e) (randomCalls e).

Section Engine.
(** [Math.random()]: the [n]-th call returns [random n]. *)
Variable random : nat -> R.

(** One iteration of the spawn loop of [processCollision]. *)
Definition spawnOne (p1 p2 : Particle.t) (creation : Creation) (e : t) : t :=
  let n := randomCalls e in
  let centerX := (Particle.x p1 + Particle.x p2) / 2 in
  let centerY := (Particle.y p1 + Particle.y p2) / 2 in
  let offsetX := (random n - 0.5) * 10 in
  let offsetY := (random (n + 1) - 0.5) * 10 in
  let avgVx := (Particle.vx p1 + Particle.vx p2) / 2 in
  let avgVy := (Particle.vy p1 + Particle.vy p2) / 2 in
  let randomVx := (random (n + 2) - 0.5) * 2 in
  let randomVy := (random (n + 3) - 0.5) * 2 in
  mk (particles e) (rules e) (options e) (collisionsThisFrame e)
     (particlesToAdd e ++
      [{| s_x := centerX + offsetX; s_y := centerY + offsetY;
          s_type := c_type creation; s_options := options e;
          initialVx := avgVx + randomVx; initialVy := avgVy + randomVy |}])
     (particlesToRemove e) (n + 4).

(** [for (let i = 0; i < creation.count; i++)] *)
Definition spawnCreation (p1 p2 : Particle.t) (e : t) (creation : Creation)
    : t :=
  Nat.iter (Z.to_nat (count creation)) (spawnOne p1 p2 creation) e.

(** [processCollision(p1, p2)], on the references [i] and [j]. *)
Definition processCollision (e : t) (i j : nat) : t :=
  match particles e !! i, particles e !! j with
  | Some p1, Some p2 =>
    match rules e !! Particle.type p1 ≫= (.!! Particle.type p2) with
    | None => e
    | Some rule =>
      let cool p :=
        Particle.with_cooldown p CONFIG.COLLISION_COOLDOWN_FRAMES in
      let e1 := with_particles e (alter cool j (alter cool i (particles e))) in
      let e2 :=
        if destroyOriginals rule then
          mk (particles e1) (rules e1) (options e1)
             (collisionsThisFrame e1) (particlesToAdd e1)
             (particlesToRemove e1 ++ [i; j]) (randomCalls e1)
        else e1 in
      let e3 := foldl (spawnCreation p1 p2) e2 (createParticles rule) in
      mk (particles e3) (rules e3) (options e3)
         (collisionsThisFrame e3 + 1)%Z (particlesToAdd e3)
         (particlesToRemove e3) (randomCalls e3)
    end
  | _, _ => e
  end.

(** [checkCollision(p1, p2)].  With [collisionDistanceRatio] undefined
    the collision distance is NaN and the comparison fails. *)
Definition checkCollision (e : t) (i j : nat) : t :=
  match particles e !! i, particles e !! j with
  | Some p1, Some p2 =>
    if (0 <? Particle.collisionCooldown p1)%Z ||
       (0 <? Particle.collisionCooldown p2)%Z
    then e
    else
      let dx := Particle.x p1 - Particle.x p2 in
      let dy := Particle.y p1 - Particle.y p2 in
      let distance := sqrt (dx * dx + dy * dy) in
      match Options.collisionDistanceRatio (options e) with
      | None => e
      | Some ratio =>
        let collisionDistance :=
          (Particle.size p1 + Particle.size p2) * ratio in
        if Rltb distance collisionDistance
        then processCollision e i j else e
      end
  | _, _ => e
  end.

(** [calculateParticleInteraction(particle1, particle2)] *)
Definition calculateParticleInteraction (e : t) (i j : nat) : JsResult t :=
  match particles e !! i, particles e !! j with
  | Some p1, Some p2 =>
    force ← Particle.calculateForce p1 p2 (rules e) (options e);
    let e1 :=
      with_particles e (<[i := Particle.applyForce p1 force]> (particles e)) in
    Ok (if (collisionsThisFrame e1 <? CONFIG.MAX_COLLISIONS_PER_FRAME)%Z
        then checkCollision e1 i j else e1)
  | _, _ => Ok e
  end.

(** The index pairs [(i, j)], [i < j < n], in the order of the two
    nested loops of [calculateForcesBruteForce]. *)
Definition indexPairs (n : nat) : list (nat * nat) :=
  flat_map (fun i => map (fun j => (i, j)) (seq (S i) (n - S i))) (seq 0 n).

(** [calculateForcesBruteForce()] *)
Definition calculateForcesBruteForce (e : t) : JsResult t :=
  forEachR
    (fun e '(i, j) =>
       e1 ← calculateParticleInteraction e i j;
       calculateParticleInteraction e1 j i)
    (indexPairs (length (particles e))) e.

(** Coordinates of the particle a reference names. *)
Definition refX (ps : list Particle.t) (i : nat) : R :=
  from_option Particle.x 0 (ps !! i).
Definition refY (ps : list Particle.t) (i : nat) : R :=
  from_option Particle.y 0 (ps !! i).

(** [calculateForcesWithQuadtree()].  [fuel] bounds the nested calls of
    each [insert]; [None] is an insertion that needs more.  With
    [maxDistance] undefined the radius is NaN and no particle passes the
    distance test. *)
Definition calculateForcesWithQuadtree (fuel : nat) (canvasWidth canvasHeight : R)
    (e : t) : option (JsResult t) :=
  let ps := particles e in
  if Nat.eqb (length ps) 0 then Some (Ok e)
  else
    let boundary := Rectangle.mk 0 0 canvasWidth canvasHeight in
    match Quadtree.insertAll (refX ps) (refY ps) fuel
            (Quadtree.new boundary (Options.quadtreeCapacity (options e)))
            (seq 0 (length ps)) with
    | None => None
    | Some quadtree =>
      Some (forEachR
        (fun e i =>
           let nearbyParticles :=
             match Options.maxDistance (options e) with
             | None => []
             | Some maxDistance =>
               Quadtree.queryCircle (refX (particles e)) (refY (particles e))
                 quadtree (refX (particles e) i) (refY (particles e) i)
                 maxDistance []
             end in
           forEachR
             (fun e other =>
                if Nat.eqb i other then Ok e
                else calculateParticleInteraction e i other)
             nearbyParticles e)
        (seq 0 (length ps)) e)
    end.

(** [applyEdgeRepulsion(canvasWidth, canvasHeight)] *)
Definition applyEdgeRepulsion (canvasWidth canvasHeight : R) (e : t) : t :=
  with_particles e
    (map (fun p =>
            Particle.applyForce p
              (Particle.calculateEdgeRepulsion p canvasWidth canvasHeight
                 (options e)))
         (particles e)).

(** [update(canvasWidth, canvasHeight)].  The returned engine carries the
    result object in its fields [particlesToAdd], [particlesToRemove]
    and [collisionsThisFrame]. *)
Definition update (fuel : nat) (canvasWidth canvasHeight : R) (e : t)
    : option (JsResult t) :=
  let e1 := mk (particles e) (rules e) (options e) 0%Z [] [] (randomCalls e) in
  let e2 := with_particles e1 (map Particle.resetForces (particles e1)) in
  let forces :=
    if Options.useQuadtree (options e2) &&
       negb (Nat.eqb (length (particles e2)) 0)
    then calculateForcesWithQuadtree fuel canvasWidth canvasHeight e2
    else Some (calculateForcesBruteForce e2) in
  match forces with
  | None => None
  | Some r =>
    Some (e3 ← r;
          let e4 := applyEdgeRepulsion canvasWidth canvasHeight e3 in
          Ok (with_particles e4 (map Particle.update (particles e4))))
  end.
End Engine.
End PhysicsEngine.

(** ** RuleManager.js *)

(** The values [JSON.parse] produces. *)
Inductive JsValue :=
| JsUndefined
| JsNull
| JsBool (b : bool)
| JsNumber (r : R)
| JsString (s : string)
| JsArray (items : list JsValue)
| JsObject (fields : list (string * JsValue)).

(** Truthiness, as [&&] and [if] test it. *)
Definition truthy (v : JsValue) : bool :=
  match v with
  | JsUndefined | JsNull => false
  | JsBool b => b
  | JsNumber r => negb (Reqb r 0)
  | JsString s => negb (String.eqb s "")
  | JsArray _ | JsObject _ => true
  end.

Fixpoint assoc (k : string) (fields : list (string * JsValue)) : option JsValue :=
  match fields with
  | [] => None
  | (k', v) :: rest => if String.eqb k k' then Some v else assoc k rest
  end.

(** [v.k] for the keys ["rules"] and ["types"]: a TypeError on [null] and
    [undefined], the own property on an object, [undefined] elsewhere. *)
Definition getProp (v : JsValue) (k : string) : JsResult JsValue :=
  match v with
  | JsUndefined | JsNull => Throw TypeError
  | JsObject fields => Ok (default JsUndefined (assoc k fields))
  | _ => Ok JsUndefined
  end.

Module RuleManager.
Section RuleManager.
(** The value held in [this.rules]. *)
Context {Table : Type}.

Record HistoryEntry := {
  label : string;
  h_rules : Table;
  timestamp : Z
}.

Record t := mk {
  rules : Table;
  initialized : bool;
  ruleHistory : list HistoryEntry;
  currentHistoryIndex : Z;
  maxHistorySize : Z
}.

(** A method call ends by returning or by throwing; either way the
    manager is left in some state. *)
Inductive Outcome (A : Type) :=
| Return (a : A) (m : t)
| Raise (e : JsError) (m : t).
Arguments Return {A} a m.
Arguments Raise {A} e m.

(** [JSON.parse(JSON.stringify(rules))]: on a table of finite numbers,
    booleans, strings and arrays the copy has the value of the
    original. *)
Definition deepCopy (rules : Table) : Table := rules.

(** [a.slice(0, e)] *)
Definition slice0 {X} (a : list X) (e : Z) : list X :=
  if (e <? 0)%Z then take (Z.to_nat (Z.of_nat (length a) + e)) a
  else take (Z.to_nat e) a.

(** [a[i]] *)
Definition at_index {X} (a : list X) (i : Z) : option X :=
  if (i <? 0)%Z then None else a !! Z.to_nat i.

(** [saveToHistory(label)]; [now] is [Date.now()]. *)
Definition saveToHistory (m : t) (label : string) (now : Z) : t :=
  let history :=
    if (currentHistoryIndex m <? Z.of_nat (length (ruleHistory m)) - 1)%Z
    then slice0 (ruleHistory m) (currentHistoryIndex m + 1)
    else ruleHistory m in
  let history' :=
    history ++ [{| label := label; h_rules := deepCopy (rules m);
                   timestamp := now |}] in
  if (maxHistorySize m <? Z.of_nat (length history'))%Z then
    mk (rules m) (initialized m) (tail history') (currentHistoryIndex m)
       (maxHistorySize m)
  else
    mk (rules m) (initialized m) history' (currentHistoryIndex m + 1)
       (maxHistorySize m).

(** [undo()].  Reading [historyEntry.rules] throws when the cursor names
    no entry. *)
Definition undo (m : t) : Outcome bool :=
  if (0 <? currentHistoryIndex m)%Z then
    let m1 := mk (rules m) (initialized m) (ruleHistory m)
                 (currentHistoryIndex m - 1) (maxHistorySize m) in
    match at_index (ruleHistory m1) (currentHistoryIndex m1) with
    | None => Raise TypeError m1
    | Some historyEntry =>
      Return true
        (mk (deepCopy (h_rules historyEntry)) (initialized m1)
            (ruleHistory m1) (currentHistoryIndex m1) (maxHistorySize m1))
    end
  else Return false m.

(** [redo()] *)
Definition redo (m : t) : Outcome bool :=
  if (currentHistoryIndex m <? Z.of_nat (length (ruleHistory m)) - 1)%Z then
    let m1 := mk (rules m) (initialized m) (ruleHistory m)
                 (currentHistoryIndex m + 1) (maxHistorySize m) in
    match at_index (ruleHistory m1) (currentHistoryIndex m1) with
    | None => Raise TypeError m1
    | Some historyEntry =>
      Return true
        (mk (deepCopy (h_rules historyEntry)) (initialized m1)
            (ruleHistory m1) (currentHistoryIndex m1) (maxHistorySize m1))
    end
  else Return false m.

(** [setRules(newRules, historyLabel)] *)
Definition setRules (m : t) (newRules : Table) (historyLabel : string)
    (now : Z) : t :=
  saveToHistory
    (mk (deepCopy newRules) (initialized m) (ruleHistory m)
        (currentHistoryIndex m) (maxHistorySize m))
    historyLabel now.

(** [this.types = data.types].  The class declares [types] with a getter
    and no setter, and class bodies are strict code: the assignment
    throws a TypeError. *)
Definition assignTypes (m : t) (types : JsValue) : Outcome unit :=
  Raise TypeError m.

(** [JSON.parse], and the reading of a parsed [rules] value as a rule
    table. *)
Variable JSON_parse : string -> JsResult JsValue.
Variable asTable : JsValue -> Table.

(** The body of the [try] block of [importRules]. *)
Definition importRules_try (m : t) (jsonString : string) (now : Z)
    : Outcome bool :=
  match JSON_parse jsonString with
  | Throw e => Raise e m
  | Ok data =>
    match getProp data "rules" with
    | Throw e => Raise e m
    | Ok data_rules =>
      if truthy data_rules then
        match getProp data "types" with
        | Throw e => Raise e m
        | Ok data_types =>
          if truthy data_types then
            match assignTypes m data_types with
            | Raise e m' => Raise e m'
            | Return _ m1 =>
              let m2 := mk (asTable data_rules) (initialized m1)
                           (ruleHistory m1) (currentHistoryIndex m1)
                           (maxHistorySize m1) in
              Return true (saveToHistory m2 "Rules imported" now)
            end
          else Return false m
        end
      else Return false m
    end
  end.

(** [importRules(jsonString)]: the [catch] block returns [false]. *)
Definition importRules (m : t) (jsonString : string) (now : Z) : bool * t :=
  match importRules_try m jsonString now with
  | Return b m' => (b, m')
  | Raise _ m' => (false, m')
  end.
End RuleManager.

Arguments t Table : clear implicits.
Arguments HistoryEntry Table : clear implicits.
Arguments Outcome Table A : clear implicits.
Arguments Return {Table A} a m.
Arguments Raise {Table A} e m.

(** [setForceRule(type1, type2, closeForce, farForce, threshold)]: the rule
    object is mutated in place; no history entry is saved. *)
Definition setForceRule (m : t RuleTable) (type1 type2 : string)
    (closeForce' farForce' threshold' : R) : t RuleTable :=
  match rules m !! type1 with
  | None => m
  | Some row =>
    match row !! type2 with
    | None => m
    | Some rule =>
      mk (<[type1 :=
              <[type2 := {| closeForce := closeForce'; farForce := farForce';
                            threshold := threshold';
                            destroyOriginals := destroyOriginals rule;
                            createParticles := createParticles rule |}]> row]>
            (rules m))
         (initialized m) (ruleHistory m) (currentHistoryIndex m)
         (maxHistorySize m)
    end
  end.

(** [new RuleManager()], with [this.rules] holding [rules]. *)
Definition new {Table} (rules : Table) : t Table := mk rules false [] (-1) 50.

(** The rule object that [initialize] and the clear methods write. *)
Definition neutralRule : Rule :=
  {| closeForce := 0; farForce := 0; threshold := 30;
     destroyOriginals := false; createParticles := [] |}.

(** The object [initialize] builds for one source type, and the table. *)
Definition initialRow (types : list string) : gmap string Rule :=
  foldl (fun row type2 => <[type2 := neutralRule]> row) ∅ types.
Definition initialTable (types : list string) : RuleTable :=
  foldl (fun rules type1 => <[type1 := initialRow types]> rules) ∅ types.

(** [initialize()], with [types] the type ids of PARTICLE_CONFIG. *)
Definition initialize (types : list string) (m : t RuleTable) (now : Z)
    : t RuleTable :=
  saveToHistory
    (mk (initialTable types) true (ruleHistory m) (currentHistoryIndex m)
        (maxHistorySize m))
    "Initial rules" now.

(** [setCollisionRule(type1, type2, destroyOriginals, createParticles)];
    a missing [createParticles] is stored as the empty array. *)
Definition setCollisionRule (m : t RuleTable) (type1 type2 : string)
    (destroyOriginals' : bool) (createParticles' : option (list Creation))
    : t RuleTable :=
  match rules m !! type1 with
  | None => m
  | Some row =>
    match row !! type2 with
    | None => m
    | Some rule =>
      mk (<[type1 :=
              <[type2 := {| closeForce := closeForce rule;
                            farForce := farForce rule;
                            threshold := threshold rule;
                            destroyOriginals := destroyOriginals';
                            createParticles := default [] createParticles' |}]>
                row]>
            (rules m))
         (initialized m) (ruleHistory m) (currentHistoryIndex m)
         (maxHistorySize m)
    end
  end.

(** The ordered pairs visited by
    [this.types.forEach(type1 => this.types.forEach(type2 => ...))]. *)
Definition typePairs (types : list string) : list (string * string) :=
  flat_map (fun type1 => map (fun type2 => (type1, type2)) types) types.

(** Such a double loop whose body assigns to fields of
    [this.rules[type1][type2]]: the assignment throws a TypeError when that
    rule object is missing, and the rules written before stay written.
    [f k] is what the body does to the [k]-th rule object visited. *)
Fixpoint forEachRule (f : nat -> Rule -> Rule) (pairs : list (string * string))
    (k : nat) (m : t RuleTable) : Outcome RuleTable unit :=
  match pairs with
  | [] => Return tt m
  | (type1, type2) :: rest =>
    match rules m !! type1 with
    | None => Raise TypeError m
    | Some row =>
      match row !! type2 with
      | None => Raise TypeError m
      | Some rule =>
        forEachRule f rest (S k)
          (mk (<[type1 := <[type2 := f k rule]> row]> (rules m))
              (initialized m) (ruleHistory m) (currentHistoryIndex m)
              (maxHistorySize m))
      end
    end
  end.

(** [clearCollisionRules()] *)
Definition clearCollisionRules (types : list string) (m : t RuleTable)
    : Outcome RuleTable unit :=
  forEachRule
    (fun _ rule =>
       {| closeForce := closeForce rule; farForce := farForce rule;
          threshold := threshold rule;
          destroyOriginals := false; createParticles := [] |})
    (typePairs types) 0 m.

(** [clearForceRules()] *)
Definition clearForceRules (types : list string) (m : t RuleTable)
    : Outcome RuleTable unit :=
  forEachRule
    (fun _ rule =>
       {| closeForce := 0; farForce := 0; threshold := 30;
          destroyOriginals := destroyOriginals rule;
          createParticles := createParticles rule |})
    (typePairs types) 0 m.

(** [clearAllRules()] *)
Definition clearAllRules (types : list string) (m : t RuleTable) (now : Z)
    : Outcome RuleTable unit :=
  match clearForceRules types m with
  | Raise e m' => Raise e m'
  | Return _ m1 =>
    match clearCollisionRules types m1 with
    | Raise e m' => Raise e m'
    | Return _ m2 => Return tt (saveToHistory m2 "All rules cleared" now)
    end
  end.

(** [randomizeForceRules(historyLabel)]; the [n]-th call of [Math.random()]
    returns [random n], and [randomCalls] calls were made before. *)
Definition randomizeForceRules (random : nat -> R) (randomCalls : nat)
    (types : list string) (m : t RuleTable) (historyLabel : string) (now : Z)
    : Outcome RuleTable unit :=
  match
    forEachRule
      (fun k rule =>
         {| closeForce := (random (randomCalls + 3 * k)%nat - 0.5) * 2;
            farForce := (random (randomCalls + 3 * k + 1)%nat - 0.5) * 2;
            threshold := 20 + random (randomCalls + 3 * k + 2)%nat * 40;
            destroyOriginals := destroyOriginals rule;
            createParticles := createParticles rule |})
      (typePairs types) 0 m
  with
  | Raise e m' => Raise e m'
  | Return _ m1 => Return tt (saveToHistory m1 historyLabel now)
  end.

(** An item of the [history] array of [getHistoryInfo]. *)
Record HistoryItem := {
  i_label : string;
  i_timestamp : Z;
  isCurrent : bool
}.

Record HistoryInfo := {
  currentIndex : Z;
  totalEntries : nat;
  canUndo : bool;
  canRedo : bool;
  history : list HistoryItem
}.

(** [getHistoryInfo()] *)
Definition getHistoryInfo {Table} (m : t Table) : HistoryInfo :=
  {| currentIndex := currentHistoryIndex m;
     totalEntries := length (ruleHistory m);
     canUndo := (0 <? currentHistoryIndex m)%Z;
     canRedo :=
       (currentHistoryIndex m <? Z.of_nat (length (ruleHistory m)) - 1)%Z;
     history :=
       imap (fun index entry =>
               {| i_label := label entry; i_timestamp := timestamp entry;
                  isCurrent := (Z.of_nat index =? currentHistoryIndex m)%Z |})
            (ruleHistory m) |}.
End RuleManager.

(** ** ParticlePool.js *)

Module ParticlePool.
Local Open Scope Z_scope.

Record Stats := {
  totalCreated : Z;
  totalRecycled : Z;
  peakUsage : Z;
  currentActive : Z
}.

(** The pool, with the counter [nextParticleId] of Particle.js that its
    constructor calls advance. *)
Record t := mk {
  pool : list Particle.t;
  poolSize : Z;
  maxPoolSize : Z;
  initialized : bool;
  stats : Stats;
  nextParticleId : Z
}.

(** [new ParticlePool(Particle)] *)
Definition new (nextParticleId : Z) : t :=
  mk [] 0 (CONFIG.MAX_TOTAL_PARTICLES + CONFIG.MIN_POOL_SIZE) false
     {| totalCreated := 0; totalRecycled := 0; peakUsage := 0;
        currentActive := 0 |}
     nextParticleId.

Section Pool.
(** [PARTICLE_CONFIG.types], the enabled type ids of the registry. *)
Variable types : list string.

(** [PARTICLE_CONFIG.types[0]]; a missing entry reads as a key as
    ["undefined"]. *)
Definition firstType : string := default "undefined"%string (head types).

(** The pre-allocation loop of [initialize]. *)
Fixpoint allocate (n : nat) (nextId : Z) : list Particle.t :=
  match n with
  | O => []
  | S n' =>
    Particle.new nextId 0%R 0%R firstType Options.defaultOptions
      :: allocate n' (nextId + 1)
  end.

(** [initialize(initialSize = null)] *)
Definition initialize (p : t) (initialSize : option Z) : t :=
  if initialized p then p
  else
    let totalParticles :=
      Z.of_nat (length types) * CONFIG.PARTICLE_COUNT_PER_TYPE in
    let poolBuffer := Z.max CONFIG.MIN_POOL_SIZE totalParticles in
    let poolSize' :=
      match initialSize with
      | Some n => if n =? 0 then totalParticles + poolBuffer else n
      | None => totalParticles + poolBuffer
      end in
    mk (allocate (Z.to_nat poolSize') (nextParticleId p)) poolSize'
       (maxPoolSize p) true (stats p)
       (nextParticleId p + Z.of_nat (Z.to_nat poolSize')).

(** [this.stats.currentActive++] followed by the peak update. *)
Definition activate (s : Stats) : Stats :=
  {| totalCreated := totalCreated s; totalRecycled := totalRecycled s;
     peakUsage := Z.max (peakUsage s) (currentActive s + 1);
     currentActive := currentActive s + 1 |}.

(** The free list holds references to particle objects.  A reference is
    modelled by the id of the object: the constructor draws the ids from
    a counter and [reset] keeps them, so that two particles with the same
    id are the same object, also when the free list holds it twice.
    [write particle pool] is the free list once the object [particle]
    has been written to: every entry that is this object shows its new
    state.  An entry that is the same object as a particle in use shows
    the state the object was in when the pool last wrote to it. *)
Definition write (particle : Particle.t) (pool : list Particle.t)
    : list Particle.t :=
  map (fun q => if Particle.id q =? Particle.id particle then particle else q)
      pool.

(** [getParticle(x, y, type, colors, types, options)]: [pop] takes the
    last reference, and [reset] writes to the object it names. *)
Definition getParticle (p : t) (x y : R) (type : string)
    (options : Options.t) : Particle.t * t :=
  if negb (initialized p) then
    (Particle.new (nextParticleId p) x y type options,
     mk (pool p) (poolSize p) (maxPoolSize p) (initialized p) (stats p)
        (nextParticleId p + 1))
  else
    match reverse (pool p) with
    | [] =>
      let s := stats p in
      (Particle.new (nextParticleId p) x y type options,
       mk (pool p) (poolSize p) (maxPoolSize p) (initialized p)
          (activate {| totalCreated := totalCreated s + 1;
                       totalRecycled := totalRecycled s;
                       peakUsage := peakUsage s;
                       currentActive := currentActive s |})
          (nextParticleId p + 1))
    | particle :: rest =>
      let s := stats p in
      let recycled := Particle.reset particle x y type options in
      (recycled,
       mk (write recycled (reverse rest)) (poolSize p) (maxPoolSize p)
          (initialized p)
          (activate {| totalCreated := totalCreated s;
                       totalRecycled := totalRecycled s + 1;
                       peakUsage := peakUsage s;
                       currentActive := currentActive s |})
          (nextParticleId p))
    end.

(** [returnParticle(particle)]: [reset] writes to the object, then its
    reference is pushed, whether or not the free list holds it
    already. *)
Definition returnParticle (p : t) (particle : Particle.t) : t :=
  if negb (initialized p) then p
  else if maxPoolSize p <=? Z.of_nat (length (pool p)) then p
  else
    let s := stats p in
    let parked :=
      Particle.reset particle 0%R 0%R firstType Options.defaultOptions in
    mk (write parked (pool p) ++ [parked])
       (poolSize p) (maxPoolSize p) (initialized p)
       {| totalCreated := totalCreated s; totalRecycled := totalRecycled s;
          peakUsage := peakUsage s; currentActive := currentActive s - 1 |}
       (nextParticleId p).

(** A call of one of the two methods, and a sequence of such calls. *)
Inductive Call :=
| GetParticle (x y : R) (type : string) (options : Options.t)
| ReturnParticle (particle : Particle.t).

Definition step (p : t) (c : Call) : t :=
  match c with
  | GetParticle x y type options => snd (getParticle p x y type options)
  | ReturnParticle particle => returnParticle p particle
  end.

Definition run (p : t) (calls : list Call) : t := foldl step p calls.

(** [returnParticles(particles)] *)
Definition returnParticles (p : t) (particles : list Particle.t) : t :=
  foldl returnParticle p particles.

(** [clear()] *)
Definition clear (p : t) : t :=
  mk [] (poolSize p) (maxPoolSize p) (initialized p)
     {| totalCreated := totalCreated (stats p);
        totalRecycled := totalRecycled (stats p);
        peakUsage := peakUsage (stats p); currentActive := 0 |}
     (nextParticleId p).

(** [resize(newSize)] *)
Definition resize (p : t) (newSize : Z) : t :=
  if newSize <? currentActive (stats p) then p
  else
    let grown :=
      if poolSize p <? newSize then
        let additionalParticles := Z.to_nat (newSize - poolSize p) in
        (pool p ++ allocate additionalParticles (nextParticleId p),
         nextParticleId p + Z.of_nat additionalParticles)
      else if newSize <? poolSize p then
        let particlesToRemove := poolSize p - newSize in
        let removedCount :=
          Z.min particlesToRemove (Z.of_nat (length (pool p))) in
        (drop (Z.to_nat removedCount) (pool p), nextParticleId p)
      else (pool p, nextParticleId p) in
    mk (fst grown) newSize (Z.max newSize CONFIG.MAX_TOTAL_PARTICLES)
       (initialized p) (stats p) (snd grown).

(** [resetStats()] *)
Definition resetStats (p : t) : t :=
  mk (pool p) (poolSize p) (maxPoolSize p) (initialized p)
     {| totalCreated := 0; totalRecycled := 0;
        peakUsage := currentActive (stats p);
        currentActive := currentActive (stats p) |}
     (nextParticleId p).
End Pool.
End ParticlePool.


(** * Specification-level definitions and scenarios *)

Section Scenarios.
Local Open Scope R_scope.

(** The collision distance [calculateForce] computes. *)
Definition forceCollisionDistance (self other : Particle.t)
    (options : Options.t) : R :=
  (Particle.size self + Particle.size other) *
  orDefault (Options.collisionDistanceRatio options) 1.

(** The force of the collision repulsion alone: the scalar
    [-3 * (1 - distance / collisionDistance) * forceMultiplier] along the
    unit vector from the particle to the other one. *)
Definition collisionRepulsion (self other : Particle.t)
    (options : Options.t) : Force :=
  let finalForce :=
    -3 * (1 - Particle.distance self other /
                forceCollisionDistance self other options) *
    orDefault (Options.forceMultiplier options) 0.1 in
  {| f_x := finalForce * ((Particle.x other - Particle.x self) /
                          Particle.distance self other);
     f_y := finalForce * ((Particle.y other - Particle.y self) /
                          Particle.distance self other) |}.

(** A pair at the boundary of the interaction range and inside the
    collision range: two default-sized particles 20 apart, with
    [maxDistance = 20] and [collisionDistanceRatio = 10]. *)
Definition boundaryOptions : Options.t :=
  Options.mk (Some 2) (Some 0.9) (Some 0.8) (Some 0.5) (Some 8)
    (Some 20) (Some 10) (Some 0.1) (Some 50) (Some 0.9)
    true true true (Some 8%Z).
Definition boundarySelf : Particle.t :=
  Particle.new 1 0 0 "red" boundaryOptions.
Definition boundaryOther : Particle.t :=
  Particle.new 2 20 0 "blue" boundaryOptions.
Definition boundaryRules : RuleTable := {[ "red"%string := ∅ ]}.


(** The same pair under the default ratio of [calculateForce]: the
    collision distance is 4, far below the distance 20. *)
Definition farOptions : Options.t :=
  Options.mk (Some 2) (Some 0.9) (Some 0.8) (Some 0.5) (Some 8)
    (Some 20) None (Some 0.1) (Some 50) (Some 0.9)
    true true true (Some 8%Z).

(** A particle whose options ask for the velocity clamp and a friction of
    [-2], moving at the speed limit. *)
Definition reversingOptions : Options.t :=
  Options.mk (Some 2) (Some (-2)) (Some 0.8) (Some 0.5) (Some 8)
    (Some 80) (Some 2) (Some 0.1) (Some 50) (Some 0.9)
    true true true (Some 8%Z).
Definition reversingParticle : Particle.t :=
  Particle.with_velocity (Particle.new 1 0 0 "red" reversingOptions) 8 0.

(** A particle with default options and a large accumulated force. *)
Definition pushedParticle : Particle.t :=
  Particle.with_force
    (Particle.new 1 100 100 "red" Options.defaultOptions) 30 40.

(** Two particles 10 apart, under the default options. *)
Definition redParticle : Particle.t :=
  Particle.new 1 0 0 "red" Options.defaultOptions.
Definition blueParticle : Particle.t :=
  Particle.new 2 10 0 "blue" Options.defaultOptions.
End Scenarios.

(** ** Invariants of the quadtree *)

Section QuadtreeInvariants.
Context {N : Type} `{Number.t N} {A : Type}.
Variables px py : A -> N.

Definition inside (b : Rectangle.t N) (p : A) : Prop :=
  Rectangle.contains b (px p) (py p) = true.

(** The geometry of a tree: every particle stored at a node or below it
    passed the containment test of that node ([insert] looks at the
    children only after its own test), and the children of a divided node
    sit on the four quadrants [subdivide] computes. *)
Fixpoint wellFormed (q : Quadtree.t N A) : Prop :=
  match q with
  | Quadtree.Leaf b _ ps => Forall (inside b) ps
  | Quadtree.Node b _ ps ne nw se sw =>
    Forall (inside b) (Quadtree.elements q) /\
    Quadtree.boundary ne = Quadtree.ne_rect b /\
    Quadtree.boundary nw = Quadtree.nw_rect b /\
    Quadtree.boundary se = Quadtree.se_rect b /\
    Quadtree.boundary sw = Quadtree.sw_rect b /\
    wellFormed ne /\ wellFormed nw /\ wellFormed se /\ wellFormed sw
  end.

(** Every node has room for at least one particle. *)
Fixpoint positiveCapacity (q : Quadtree.t N A) : Prop :=
  match q with
  | Quadtree.Leaf _ c _ => (1 <= c)%Z
  | Quadtree.Node _ c _ ne nw se sw =>
    (1 <= c)%Z /\ positiveCapacity ne /\ positiveCapacity nw /\
    positiveCapacity se /\ positiveCapacity sw
  end.

(** The particles of a list that [insert] accepts (returns [true] for)
    when they are inserted one after the other. *)
Fixpoint accepted (fuel : nat) (q : Quadtree.t N A) (ps : list A) : list A :=
  match ps with
  | [] => []
  | p :: ps' =>
    match Quadtree.insert px py fuel q p with
    | None => []
    | Some (r, q') => (if r then [p] else []) ++ accepted fuel q' ps'
    end
  end.
End QuadtreeInvariants.

(** ** Properties of a number system *)

Section NumberLaws.
Context (N : Type) `{Number.t N}.

(** The four quadrants [subdivide] computes cover the rectangle they
    divide. *)
Definition quadrantsCover : Prop :=
  forall (b : Rectangle.t N) x y,
    Rectangle.contains b x y = true ->
    Rectangle.contains (Quadtree.ne_rect b) x y ||
    Rectangle.contains (Quadtree.nw_rect b) x y ||
    Rectangle.contains (Quadtree.se_rect b) x y ||
    Rectangle.contains (Quadtree.sw_rect b) x y = true.

(** The pruning test of [queryCircle] is sound: a rectangle it reports
    out of reach contains no point that passes the test on squares. *)
Definition circlePruningSound : Prop :=
  forall (b : Rectangle.t N) x y radius (u v : N),
    Rectangle.contains b u v = true ->
    Quadtree.outOfReach b x y radius = true ->
    Quadtree.inCircle fst snd x y radius (u, v) = false.

(** The pruning test of [query] is sound: a rectangle that does not
    intersect the range contains no point of the range. *)
Definition rangePruningSound : Prop :=
  forall (b range : Rectangle.t N) (u v : N),
    Rectangle.intersects b range = false ->
    Rectangle.contains b u v = true ->
    Rectangle.contains range u v = false.
End NumberLaws.

(** ** Quadtree scenarios *)

Section QuadtreeScenarios.
Local Open Scope R_scope.

(** A 100 by 100 canvas. *)
Definition canvas : Rectangle.t R := Rectangle.mk 0 0 100 100.



End QuadtreeScenarios.

(** The same canvas on the doubles of the code, and particles stacked on
    its point (10, 10); a particle is its number and its pair of
    coordinates. *)
Module Stack64.
Import PrimFloat.
Local Open Scope float_scope.

Definition canvas : Rectangle.t float := Rectangle.mk 0 0 100 100.

Definition particle (i : nat) : (nat * (float * float))%type := (i, (10, 10)).

Definition px (p : (nat * (float * float))%type) : float := fst (snd p).
Definition py (p : (nat * (float * float))%type) : float := snd (snd p).

(** The particles 1 to [n], in the order they are inserted. *)
Definition stack (n : nat) : list (nat * (float * float))%type :=
  map particle (seq 1 n).

Definition tree (n : nat)
    : option (Quadtree.t float (nat * (float * float))%type) :=
  Quadtree.insertAll px py 100 (Quadtree.new canvas (Some 1%Z)) (stack n).

(** Brute-force filtering by Euclidean distance, as the specification
    words it, with the square root of the doubles. *)
Definition bruteForceCircle (x y radius : float)
    (ps : list (nat * (float * float))%type)
    : list (nat * (float * float))%type :=
  List.filter
    (fun p => leb (sqrt ((px p - x) * (px p - x) + (py p - y) * (py p - y)))
                  radius)
    ps.
(** What a run on the stack observes: the result of inserting particle 58
    after the first 57, the depth and the sizes of the trees, and the
    numbers of the particles [queryCircle] finds around (10, 10) once the
    58 were inserted. *)
Definition run : option (bool * nat * nat * nat * list nat) :=
  match tree 57, tree 58 with
  | Some q57, Some q58 =>
      match Quadtree.insert px py 100 q57 (particle 58) with
      | Some (r, q') =>
          Some (r, Quadtree.depth q57, Quadtree.size q57, Quadtree.size q',
                map fst (Quadtree.queryCircle px py q58 10 10 5 []))
      | None => None
      end
  | _, _ => None
  end.
End Stack64.

(** ** RuleManager scenarios *)

Section RuleManagerScenarios.
Local Open Scope R_scope.

Definition rule_of (closeForce' : R) : Rule :=
  {| closeForce := closeForce'; farForce := 0; threshold := 30;
     destroyOriginals := false; createParticles := [] |}.

(** The table [initialize] builds for the single type ["red"], and the same
    table with another close force. *)
Definition table_of (closeForce' : R) : RuleTable :=
  {[ "red"%string := {[ "red"%string := rule_of closeForce' ]} ]}.

(** A manager after [initialize] and one [setRules]: two history entries,
    the cursor on the second. *)
Definition savedManager : RuleManager.t RuleTable :=
  RuleManager.setRules
    (RuleManager.saveToHistory (RuleManager.new (table_of 0))
       "Initial rules" 0)
    (table_of 1) "Rule change" 1.

(** The same manager after [setForceRule] edited the table in place. *)
Definition editedManager : RuleManager.t RuleTable :=
  RuleManager.setForceRule savedManager "red" "red" 2 0 30.

(** Whether [importRules] gets past its structural test on the input. *)
Definition wellFormedImport (JSON_parse : string -> JsResult JsValue)
    (jsonString : string) : bool :=
  match JSON_parse jsonString with
  | Throw _ => false
  | Ok data =>
    match getProp data "rules", getProp data "types" with
    | Ok data_rules, Ok data_types => truthy data_rules && truthy data_types
    | _, _ => false
    end
  end.
End RuleManagerScenarios.

(** ** ParticlePool scenarios *)

(** A pool initialised with one pre-allocated particle, and a particle the
    pool never handed out. *)
Definition smallPool : ParticlePool.t :=
  ParticlePool.initialize ["red"%string] (ParticlePool.new 1) (Some 1%Z).
Definition strayParticle : Particle.t :=
  Particle.new 100 0 0 "red" Options.defaultOptions.

(** ** Invariants of the force pass *)

(** The particle a reference names is in collision cooldown, with the
    cooldown [processCollision] sets. *)
Definition cooling (ps : list Particle.t) (k : nat) : Prop :=
  exists p, ps !! k = Some p /\
            Particle.collisionCooldown p = CONFIG.COLLISION_COOLDOWN_FRAMES.

(** The removal list has no repetition and names only particles that are
    in collision cooldown. *)
Definition removalsCooling (e : PhysicsEngine.t) : Prop :=
  NoDup (PhysicsEngine.particlesToRemove e) /\
  Forall (cooling (PhysicsEngine.particles e))
         (PhysicsEngine.particlesToRemove e).

(** The spawn requests one processed collision of [p1] with [p2] appends,
    when [randomCalls] random numbers were drawn before it. *)
Definition spawnRequests (random : nat -> R) (options : Options.t)
    (randomCalls : nat) (p1 p2 : Particle.t) (creations : list Creation)
    : list PhysicsEngine.SpawnRequest :=
  PhysicsEngine.particlesToAdd
    (foldl (PhysicsEngine.spawnCreation random p1 p2)
       (PhysicsEngine.mk [] ∅ options 0 [] [] randomCalls) creations).

(** Two particles agree on position and velocity. *)
Definition sameBody (p q : Particle.t) : Prop :=
  Particle.x p = Particle.x q /\ Particle.y p = Particle.y q /\
  Particle.vx p = Particle.vx q /\ Particle.vy p = Particle.vy q.

(** The distance and the collision distance [checkCollision] compares. *)
Definition engineDistance (p1 p2 : Particle.t) : R :=
  sqrt ((Particle.x p1 - Particle.x p2) * (Particle.x p1 - Particle.x p2) +
        (Particle.y p1 - Particle.y p2) * (Particle.y p1 - Particle.y p2)).
Definition engineCollisionDistance (p1 p2 : Particle.t) (ratio : R) : R :=
  ((Particle.size p1 + Particle.size p2) * ratio)%R.

(** The spawn loops read the engine through [options], [randomCalls] and
    the end of [particlesToAdd] only, and the particles through their
    positions and velocities. *)
Definition spawnSim (pre : list PhysicsEngine.SpawnRequest)
    (e ea : PhysicsEngine.t) : Prop :=
  PhysicsEngine.options e = PhysicsEngine.options ea /\
  PhysicsEngine.randomCalls e = PhysicsEngine.randomCalls ea /\
  PhysicsEngine.particlesToAdd e = pre ++ PhysicsEngine.particlesToAdd ea.


(** The two ways [update] reaches both directions of the pair made of the
    two particles of the array: the brute-force pass, or the quadtree pass
    with both particles on the canvas, room for both in the root node, and
    each within [maxDistance] of the other. *)
Definition pairVisited (fuel : nat) (canvasWidth canvasHeight : R)
    (options : Options.t) (p1 p2 : Particle.t) : Prop :=
  Options.useQuadtree options = false \/
  (1 <= fuel /\
   (2 <= default 4 (Options.quadtreeCapacity options))%Z /\
   Rectangle.contains (Rectangle.mk 0%R 0%R canvasWidth canvasHeight)
     (Particle.x p1) (Particle.y p1) = true /\
   Rectangle.contains (Rectangle.mk 0%R 0%R canvasWidth canvasHeight)
     (Particle.x p2) (Particle.y p2) = true /\
   exists maxDistance,
     Options.maxDistance options = Some maxDistance /\
     ((Particle.x p1 - Particle.x p2) * (Particle.x p1 - Particle.x p2) +
      (Particle.y p1 - Particle.y p2) * (Particle.y p1 - Particle.y p2)
      <= maxDistance * maxDistance)%R).

(** ** PhysicsEngine scenarios *)

Section EngineScenarios.
Local Open Scope R_scope.

(** The rule [RuleManager.initialize] gives every ordered pair. *)
Definition initialRule : Rule :=
  {| closeForce := 0; farForce := 0; threshold := 30;
     destroyOriginals := false; createParticles := [] |}.

(** A row of initial rules for the types A, B and C. *)
Definition initialRow : gmap string Rule :=
  {[ "A"%string := initialRule; "B"%string := initialRule;
     "C"%string := initialRule ]}.

(** The initial table with rule(A, B) replaced by [rule]. *)
Definition tableWith (rule : Rule) : RuleTable :=
  {[ "A"%string := <["B"%string := rule]> initialRow;
     "B"%string := initialRow;
     "C"%string := initialRow ]}.

(** rule(A, B) of the spawn scenario: keep the originals, create two C. *)
Definition spawnRule : Rule :=
  {| closeForce := 0; farForce := 0; threshold := 30;
     destroyOriginals := false;
     createParticles := [{| c_type := "C"; count := 2 |}] |}.

(** rule(A, B) of the destroy scenario. *)
Definition destroyRule : Rule :=
  {| closeForce := 0; farForce := 0; threshold := 30;
     destroyOriginals := true; createParticles := [] |}.

(** A particle of type A and one of type B, one unit apart. *)
Definition particleA : Particle.t :=
  Particle.new 1 100 100 "A" Options.defaultOptions.
Definition particleB : Particle.t :=
  Particle.new 2 101 100 "B" Options.defaultOptions.

(** The default options with the quadtree switched off. *)
Definition bruteForceOptions : Options.t :=
  Options.mk (Some 2) (Some 0.9) (Some 0.8) (Some 0.5) (Some 8)
    (Some 80) (Some 2) (Some 0.1) (Some 50) (Some 0.9)
    true true false (Some 8%Z).

(** Engines holding the pair in either order. *)
Definition engineOf (particles : list Particle.t) (rule : Rule)
    (options : Options.t) : PhysicsEngine.t :=
  PhysicsEngine.mk particles (tableWith rule) options 0 [] [] 0.

(** A source of random numbers that always answers 0. *)
Definition zeroRandom : nat -> R := fun _ => 0.
End EngineScenarios.
(** * Further specification-level definitions *)

Section ParticleScenarios.
Local Open Scope R_scope.

(** A particle that has just collided: cooldown 60. *)
Definition cooledParticle : Particle.t :=
  Particle.with_cooldown
    (Particle.new 1 100 100 "red" Options.defaultOptions)
    CONFIG.COLLISION_COOLDOWN_FRAMES.

Definition middleParticle : Particle.t :=
  Particle.new 1 400 175 "red" Options.defaultOptions.
End ParticleScenarios.

(** ** Pool invariants *)

(** A pooled particle is in the state [returnParticle] and the
    pre-allocation leave it in: at the origin, at rest, of the first
    registered type, with the default options. *)
Definition pristine (types : list string) (q : Particle.t) : Prop :=
  q = Particle.reset q 0%R 0%R (ParticlePool.firstType types)
        Options.defaultOptions.

(** The second check of [validate()]: the free list and the active count
    fit into the pool size. *)
Definition withinPoolSize (p : ParticlePool.t) : Prop :=
  (Z.of_nat (length (ParticlePool.pool p)) +
   ParticlePool.currentActive (ParticlePool.stats p) <=
   ParticlePool.poolSize p)%Z.

(** The quantity the two pool methods conserve. *)
Definition poolBalance (p : ParticlePool.t) : Z :=
  (Z.of_nat (length (ParticlePool.pool p)) +
   ParticlePool.currentActive (ParticlePool.stats p) -
   ParticlePool.totalCreated (ParticlePool.stats p))%Z.

(** The free list holds a reference to the object [particle]. *)
Definition parked (p : ParticlePool.t) (particle : Particle.t) : bool :=
  existsb (fun q => (Particle.id q =? Particle.id particle)%Z)
          (ParticlePool.pool p).

(** A sequence of calls that returns no particle while the free list
    holds it: no particle is returned twice in a row, and none that was
    never taken out. *)
Fixpoint orderly (types : list string) (p : ParticlePool.t)
    (calls : list ParticlePool.Call) : bool :=
  match calls with
  | [] => true
  | c :: calls' =>
    match c with
    | ParticlePool.GetParticle _ _ _ _ => true
    | ParticlePool.ReturnParticle particle => negb (parked p particle)
    end && orderly types (ParticlePool.step types p c) calls'
  end.

(** A pool of three particles with ids 1, 2, 3, and one of them taken. *)
Definition pool3 : ParticlePool.t :=
  ParticlePool.initialize ["red"%string] (ParticlePool.new 1) (Some 3%Z).
Definition pool3Taken : ParticlePool.t :=
  snd (ParticlePool.getParticle pool3 5 6 "blue" Options.empty).

(** The particle taken from [pool3] is returned twice, and a particle is
    taken again. *)
Definition doubleReturn : list ParticlePool.Call :=
  [ParticlePool.GetParticle 5 6 "blue" Options.empty;
   ParticlePool.ReturnParticle
     (fst (ParticlePool.getParticle pool3 5 6 "blue" Options.empty));
   ParticlePool.ReturnParticle
     (fst (ParticlePool.getParticle pool3 5 6 "blue" Options.empty));
   ParticlePool.GetParticle 7 8 "blue" Options.empty].

(** ** Further quadtree invariants *)

Section QuadtreeMoreInvariants.
Context {N : Type} `{Number.t N} {A : Type}.
Variables px py : A -> N.

(** [boundary.contains(particle)] as a test on a stored reference. *)
Definition insideb (b : Rectangle.t N) (p : A) : bool :=
  Rectangle.contains b (px p) (py p).

(** Every node has capacity [c], and a node that was subdivided is
    full. *)
Fixpoint divisionsFull (c : Z) (q : Quadtree.t N A) : Prop :=
  match q with
  | Quadtree.Leaf _ c' _ => c' = c
  | Quadtree.Node _ c' ps ne nw se sw =>
    c' = c /\ (c <= Z.of_nat (length ps))%Z /\
    divisionsFull c ne /\ divisionsFull c nw /\
    divisionsFull c se /\ divisionsFull c sw
  end.
End QuadtreeMoreInvariants.

(** Particles on and off the canvas: the second sits on the right edge,
    the third is outside. *)
Definition scattered : list Particle.t :=
  [Particle.new 1 10 10 "red" Options.defaultOptions;
   Particle.new 2 100 60 "blue" Options.defaultOptions;
   Particle.new 3 10 20 "red" Options.defaultOptions;
   Particle.new 4 (-5) 20 "red" Options.defaultOptions].

(** ** Further invariants of the force pass *)

(** The collision results stay within the budget of a frame: at most
    [MAX_COLLISIONS_PER_FRAME] collisions, at most two removals for each,
    and no request without a collision. *)
Definition withinBudget (e : PhysicsEngine.t) : Prop :=
  (0 <= PhysicsEngine.collisionsThisFrame e <=
     CONFIG.MAX_COLLISIONS_PER_FRAME)%Z /\
  (Z.of_nat (length (PhysicsEngine.particlesToRemove e)) <=
     2 * PhysicsEngine.collisionsThisFrame e)%Z /\
  (PhysicsEngine.collisionsThisFrame e = 0%Z ->
   PhysicsEngine.particlesToAdd e = [] /\
   PhysicsEngine.particlesToRemove e = []).

(** What the physics leaves alone in a particle. *)
Definition identity (p : Particle.t)
    : Z * string * R * Options.t * R * R * R * R :=
  (Particle.id p, Particle.type p, Particle.size p, Particle.options p,
   Particle.friction p, Particle.bounceDecay p, Particle.maxAcceleration p,
   Particle.maxVelocity p).

(** No collision was processed and every particle is in cooldown. *)
Definition allCooling (e : PhysicsEngine.t) : Prop :=
  PhysicsEngine.collisionsThisFrame e = 0%Z /\
  PhysicsEngine.particlesToAdd e = [] /\
  PhysicsEngine.particlesToRemove e = [] /\
  Forall (fun p => (0 < Particle.collisionCooldown p)%Z)
         (PhysicsEngine.particles e).

(** The colliding pair of the spawn scenario, both particles in
    cooldown. *)
Definition coolingEngine : PhysicsEngine.t :=
  engineOf [Particle.with_cooldown particleA 60;
            Particle.with_cooldown particleB 3]
    spawnRule bruteForceOptions.

(** An engine that carries the leftovers of an earlier frame. *)
Definition staleEngine (e : PhysicsEngine.t) (fx' fy' : Particle.t -> R)
    (collisions : Z) (toAdd : list PhysicsEngine.SpawnRequest)
    (toRemove : list nat) : PhysicsEngine.t :=
  PhysicsEngine.mk
    (map (fun p => Particle.with_force p (fx' p) (fy' p))
         (PhysicsEngine.particles e))
    (PhysicsEngine.rules e) (PhysicsEngine.options e) collisions toAdd
    toRemove (PhysicsEngine.randomCalls e).

(** ** Rule tables and the history *)

(** [this.rules[type1][type2]], [None] when the row or the entry is
    missing. *)
Definition lookupRule (rules : RuleTable) (type1 type2 : string)
    : option Rule :=
  rules !! type1 ≫= (.!! type2).

(** The table has a rule object for every ordered pair of registered
    types. *)
Definition tableComplete (types : list string) (rules : RuleTable) : Prop :=
  forall type1 type2,
    type1 ∈ types -> type2 ∈ types -> is_Some (lookupRule rules type1 type2).

(** The force fields and the collision fields of a rule. *)
Definition sameForceFields (r0 r : Rule) : Prop :=
  closeForce r = closeForce r0 /\ farForce r = farForce r0 /\
  threshold r = threshold r0.
Definition sameCollisionFields (r0 r : Rule) : Prop :=
  destroyOriginals r = destroyOriginals r0 /\
  createParticles r = createParticles r0.

(** The cursor names an entry of the history, or is [-1] on an empty
    one, and the history fits its bound. *)
Definition historyInSync {Table} (m : RuleManager.t Table) : Prop :=
  (-1 <= RuleManager.currentHistoryIndex m <=
     Z.of_nat (length (RuleManager.ruleHistory m)) - 1)%Z /\
  (Z.of_nat (length (RuleManager.ruleHistory m)) <=
     RuleManager.maxHistorySize m)%Z.

(** [Math.random()] returns a number of [0, 1). *)
Definition unitRandom (random : nat -> R) : Prop :=
  forall n, (0 <= random n < 1)%R.

(** A source of random numbers that always answers one half. *)
Definition halfRandom : nat -> R := fun _ => (1 / 2)%R.

(** A manager right after [initialize] for two types. *)
Definition freshManager : RuleManager.t RuleTable :=
  RuleManager.initialize ["red"%string; "blue"%string] (RuleManager.new ∅) 0.
(** * Verification *)

(** ** Comparisons and square roots *)

Section RealFacts.
Local Open Scope R_scope.

Lemma Rltb_true a b : Rltb a b = true <-> a < b.
Proof. unfold Rltb. destruct (Rlt_dec a b); split; (done || lra). Qed.

Lemma Rltb_false a b : Rltb a b = false <-> b <= a.
Proof. unfold Rltb. destruct (Rlt_dec a b); split; (done || lra). Qed.

Lemma Rleb_true a b : Rleb a b = true <-> a <= b.
Proof. unfold Rleb. destruct (Rle_dec a b); split; (done || lra). Qed.

Lemma Rleb_false a b : Rleb a b = false <-> b < a.
Proof. unfold Rleb. destruct (Rle_dec a b); split; (done || lra). Qed.

Lemma Reqb_true a b : Reqb a b = true <-> a = b.
Proof. unfold Reqb. destruct (Req_dec_T a b); split; (done || lra). Qed.

Lemma Reqb_false a b : Reqb a b = false <-> a <> b.
Proof. unfold Reqb. destruct (Req_dec_T a b); split; (done || lra). Qed.

Lemma orDefault_Some v d : v <> 0 -> orDefault (Some v) d = v.
Proof.
  intros Hv. unfold orDefault.
  destruct (Reqb v 0) eqn:E; [apply Reqb_true in E; lra | done].
Qed.

Lemma orDefault_None d : orDefault None d = d.
Proof. reflexivity. Qed.

(** The length of an axis-parallel segment. *)
Lemma sqrt_axis a : 0 <= a -> sqrt (a * a + 0 * 0) = a.
Proof.
  intros Ha. replace (a * a + 0 * 0) with (a * a) by lra.
  by apply sqrt_square.
Qed.

Lemma sqrt_scaled a b s :
  sqrt (a * s * (a * s) + b * s * (b * s)) = Rabs s * sqrt (a * a + b * b).
Proof.
  replace (a * s * (a * s) + b * s * (b * s))
    with (s * s * (a * a + b * b)) by lra.
  rewrite sqrt_mult; [| nra | nra].
  f_equal. replace (s * s) with (Rsqr s) by (unfold Rsqr; lra).
  apply sqrt_Rsqr_abs.
Qed.

Lemma sqrt_sum_squares_nonneg a b : 0 <= sqrt (a * a + b * b).
Proof. apply sqrt_pos. Qed.
End RealFacts.

(** Decide the comparisons left in the goal by linear arithmetic. *)
Ltac decide_R :=
  repeat match goal with
    | |- context [Rltb ?a ?b] =>
      let E := fresh "E" in
      destruct (Rltb a b) eqn:E;
      [apply Rltb_true in E | apply Rltb_false in E]; try lra
    | |- context [Rleb ?a ?b] =>
      let E := fresh "E" in
      destruct (Rleb a b) eqn:E;
      [apply Rleb_true in E | apply Rleb_false in E]; try lra
    | |- context [Reqb ?a ?b] =>
      let E := fresh "E" in
      destruct (Reqb a b) eqn:E;
      [apply Reqb_true in E | apply Reqb_false in E]; try lra
    end.

(** ** Particle.calculateForce *)

Section CalculateForce.
Local Open Scope R_scope.

Lemma boundary_distance : Particle.distance boundarySelf boundaryOther = 20.
Proof.
  unfold Particle.distance; simpl.
  replace ((20 - 0) * (20 - 0) + (0 - 0) * (0 - 0)) with (20 * 20) by lra.
  apply sqrt_square; lra.
Qed.

(** C1, refuted as stated: at [distance = maxDistance] the collision
    repulsion is still applied, so the force is not zero. *)
Lemma calculateForce_boundary_nonzero :
  Particle.distance boundarySelf boundaryOther = 20 /\
  orDefault (Options.maxDistance boundaryOptions) 80 = 20 /\
  exists f,
    Particle.calculateForce boundarySelf boundaryOther boundaryRules
      boundaryOptions = Ok f /\
    f_x f = -0.15 /\ f_x f <> 0.
Proof.
  split; [apply boundary_distance |].
  split; [apply orDefault_Some; lra |].
  pose proof boundary_distance as Hd. unfold Particle.distance in Hd.
  unfold Particle.calculateForce. cbv zeta. rewrite Hd.
  assert (HmaxD : orDefault (Options.maxDistance boundaryOptions) 80 = 20)
    by (apply orDefault_Some; lra).
  assert (Hmul : orDefault (Options.forceMultiplier boundaryOptions) 0.1 = 0.1)
    by (apply orDefault_Some; lra).
  assert (Hratio :
    orDefault (Options.collisionDistanceRatio boundaryOptions) 1 = 10)
    by (apply orDefault_Some; lra).
  assert (Hsize : Particle.size boundarySelf = 2 /\ Particle.size boundaryOther = 2)
    by (split; apply orDefault_Some; lra).
  destruct Hsize as [Hs1 Hs2].
  rewrite HmaxD, Hmul, Hratio, Hs1, Hs2.
  assert (Hrow : boundaryRules !! Particle.type boundarySelf = Some ∅)
    by apply lookup_singleton_eq.
  rewrite Hrow, lookup_empty. simpl.
  decide_R. simpl.
  eexists; split; [reflexivity |]. simpl. split; lra.
Qed.
End CalculateForce.

Section CalculateForceFacts.
Local Open Scope R_scope.

Lemma orDefault_nonzero v d : d <> 0 -> orDefault v d <> 0.
Proof.
  intros Hd. unfold orDefault. destruct v as [n |]; [| done].
  destruct (Reqb n 0) eqn:E; [done | by apply Reqb_false in E].
Qed.

(** At [distance = maxDistance] the rule force is multiplied by a falloff
    of zero, and what is left is the collision term. *)
Lemma calculateForce_at_boundary self other (rules : RuleTable) options :
  Particle.distance self other = orDefault (Options.maxDistance options) 80 ->
  Particle.distance self other <> 0 ->
  Particle.calculateForce self other rules options =
  match rules !! Particle.type self with
  | None => Throw TypeError
  | Some _ =>
      Ok (if Rltb (Particle.distance self other)
                  (forceCollisionDistance self other options)
          then collisionRepulsion self other options
          else {| f_x := 0; f_y := 0 |})
  end.
Proof.
  unfold collisionRepulsion, forceCollisionDistance, Particle.distance,
    Particle.calculateForce.
  cbv zeta.
  set (d := sqrt _). set (maxD := orDefault (Options.maxDistance options) 80).
  intros Hd Hd0.
  assert (E1 : Reqb d 0 = false) by by apply Reqb_false.
  assert (E2 : Rltb maxD d = false) by (apply Rltb_false; lra).
  rewrite E1, E2. cbn [orb].
  destruct (rules !! Particle.type self) as [row |]; [| done].
  assert (Hfall : 1 - d / maxD = 0) by (rewrite <- Hd; field; done).
  rewrite Hfall.
  set (force := if Rltb d (threshold _) then _ else _).
  set (cd := (Particle.size self + Particle.size other) * _).
  destruct (Rltb d cd); do 2 f_equal; lra.
Qed.

(** Inside the collision range the collision repulsion is not the zero
    force. *)
Lemma collisionRepulsion_nonzero self other options :
  Particle.distance self other <> 0 ->
  Particle.distance self other < forceCollisionDistance self other options ->
  collisionRepulsion self other options <> {| f_x := 0; f_y := 0 |}.
Proof.
  unfold collisionRepulsion, Particle.distance. cbv zeta.
  set (dx := Particle.x other - Particle.x self).
  set (dy := Particle.y other - Particle.y self).
  set (d := sqrt (dx * dx + dy * dy)).
  set (cd := forceCollisionDistance self other options).
  set (mult := orDefault (Options.forceMultiplier options) 0.1).
  intros Hd0 Hcd.
  assert (Hd : 0 < d).
  { pose proof (sqrt_pos (dx * dx + dy * dy)) as Hp. fold d in Hp. lra. }
  assert (Hmult : mult <> 0) by (apply orDefault_nonzero; lra).
  assert (Hterm : 0 < 1 - d / cd).
  { assert (d / cd < 1); [| lra].
    apply (Rmult_lt_reg_r cd); [lra |].
    replace (d / cd * cd) with d by (field; lra). lra. }
  assert (Hfinal : -3 * (1 - d / cd) * mult <> 0).
  { apply Rmult_integral_contrapositive_currified; [lra | done]. }
  intros [= Hx Hy].
  apply Rmult_integral in Hx as [Hx | Hx]; [done |].
  apply Rmult_integral in Hy as [Hy | Hy]; [done |].
  assert (Hdx : dx = 0).
  { replace dx with (dx / d * d) by (field; lra). rewrite Hx. lra. }
  assert (Hdy : dy = 0).
  { replace dy with (dy / d * d) by (field; lra). rewrite Hy. lra. }
  apply Hd0. unfold d. rewrite Hdx, Hdy.
  replace (0 * 0 + 0 * 0) with 0 by lra. apply sqrt_0.
Qed.

(** C1, as amended: the force is exactly zero when the distance is zero or
    exceeds [maxDistance], whatever the collision ratio.  At
    [distance = maxDistance] it is zero if and only if the rules object
    has a row for the source type and the pair is out of collision range;
    with a row and inside collision range the method returns the
    collision repulsion, which is not zero; without a row it throws. *)
Theorem calculateForce_zero_out_of_range self other rules options :
  (Particle.distance self other = 0 \/
   orDefault (Options.maxDistance options) 80 < Particle.distance self other ->
   Particle.calculateForce self other rules options =
     Ok {| f_x := 0; f_y := 0 |}) /\
  (Particle.distance self other = orDefault (Options.maxDistance options) 80 ->
   Particle.distance self other <> 0 ->
   (Particle.calculateForce self other rules options =
      Ok {| f_x := 0; f_y := 0 |} <->
    is_Some (rules !! Particle.type self) /\
    forceCollisionDistance self other options <=
      Particle.distance self other) /\
   (is_Some (rules !! Particle.type self) ->
    Particle.distance self other < forceCollisionDistance self other options ->
    Particle.calculateForce self other rules options =
      Ok (collisionRepulsion self other options) /\
    collisionRepulsion self other options <> {| f_x := 0; f_y := 0 |}) /\
   (rules !! Particle.type self = None ->
    Particle.calculateForce self other rules options = Throw TypeError)).
Proof.
  split.
  - unfold Particle.distance, Particle.calculateForce. cbv zeta.
    set (d := sqrt _).
    set (maxD := orDefault (Options.maxDistance options) 80).
    intros [H0 | Hfar].
    + assert (E : Reqb d 0 = true) by by apply Reqb_true.
      by rewrite E.
    + assert (E : Rltb maxD d = true) by by apply Rltb_true.
      rewrite E. by rewrite orb_true_r.
  - intros Hd Hd0.
    rewrite (calculateForce_at_boundary self other rules options Hd Hd0).
    pose proof (collisionRepulsion_nonzero self other options Hd0) as Hnz.
    destruct (rules !! Particle.type self) as [row |].
    + destruct (Rltb (Particle.distance self other)
                  (forceCollisionDistance self other options)) eqn:E;
        [apply Rltb_true in E | apply Rltb_false in E].
      * split; [split | split].
        -- intros Hzero. exfalso. apply (Hnz E). congruence.
        -- intros [_ Hle]. lra.
        -- intros _ _. split; [done | by apply Hnz].
        -- done.
      * split; [split | split].
        -- intros _. split; [by eauto | done].
        -- done.
        -- intros _ Hlt. lra.
        -- done.
    + split; [split | split].
      * done.
      * by intros [[? ?] _].
      * by intros [? ?].
      * done.
Qed.

Lemma calculateForce_zero_out_of_range_witness :
  Particle.calculateForce boundarySelf boundaryOther boundaryRules farOptions =
    Ok {| f_x := 0; f_y := 0 |} /\
  Particle.calculateForce boundarySelf boundaryOther boundaryRules
    boundaryOptions =
    Ok (collisionRepulsion boundarySelf boundaryOther boundaryOptions).
Proof.
  assert (Hs : orDefault (Some 2) 2 = 2) by (apply orDefault_Some; lra).
  assert (Hrow : is_Some (boundaryRules !! Particle.type boundarySelf))
    by (eexists; apply lookup_singleton_eq).
  split.
  - destruct (calculateForce_zero_out_of_range boundarySelf boundaryOther
                boundaryRules farOptions) as (_ & Hat).
    assert (HmaxD : orDefault (Options.maxDistance farOptions) 80 = 20)
      by (apply orDefault_Some; lra).
    destruct Hat as ((_ & Hzero) & _).
    + by rewrite boundary_distance, HmaxD.
    + rewrite boundary_distance. lra.
    + apply Hzero. split; [exact Hrow |].
      rewrite boundary_distance.
      unfold forceCollisionDistance; simpl.
      rewrite Hs, orDefault_None. lra.
  - destruct (calculateForce_zero_out_of_range boundarySelf boundaryOther
                boundaryRules boundaryOptions) as (_ & Hat).
    assert (HmaxD : orDefault (Options.maxDistance boundaryOptions) 80 = 20)
      by (apply orDefault_Some; lra).
    destruct Hat as (_ & Hrep & _).
    + by rewrite boundary_distance, HmaxD.
    + rewrite boundary_distance. lra.
    + apply Hrep; [exact Hrow |].
      rewrite boundary_distance.
      unfold forceCollisionDistance; simpl.
      assert (Hr : orDefault (Some 10) 1 = 10) by (apply orDefault_Some; lra).
      rewrite Hs, Hr. lra.
Defined.

(** C6, the failing input: with no row for the source type in the rules
    object, a pair in range makes [calculateForce] throw a TypeError. *)
Theorem calculateForce_missing_row_throws :
  Particle.calculateForce redParticle blueParticle ∅ Options.defaultOptions =
    Throw TypeError.
Proof.
  unfold Particle.calculateForce. cbv zeta. simpl.
  replace ((10 - 0) * (10 - 0) + (0 - 0) * (0 - 0)) with (10 * 10) by lra.
  rewrite sqrt_square by lra.
  assert (HmaxD : orDefault (Some 80) 80 = 80) by (apply orDefault_Some; lra).
  rewrite HmaxD.
  assert (E1 : Reqb 10 0 = false) by (apply Reqb_false; lra).
  assert (E2 : Rltb 80 10 = false) by (apply Rltb_false; lra).
  rewrite E1, E2. simpl. by rewrite lookup_empty.
Qed.

(** The general form: a missing row throws as soon as the pair is in
    range. *)
Lemma calculateForce_no_row self other (rules : RuleTable) options :
  rules !! Particle.type self = None ->
  Particle.distance self other <> 0 ->
  Particle.distance self other <= orDefault (Options.maxDistance options) 80 ->
  Particle.calculateForce self other rules options = Throw TypeError.
Proof.
  unfold Particle.distance, Particle.calculateForce. cbv zeta.
  intros Hrow Hd0 Hd.
  assert (E1 : Reqb (sqrt ((Particle.x other - Particle.x self) *
                           (Particle.x other - Particle.x self) +
                           (Particle.y other - Particle.y self) *
                           (Particle.y other - Particle.y self))) 0 = false)
    by by apply Reqb_false.
  rewrite E1. simpl.
  match goal with
  | |- context [Rltb ?a ?b] =>
    assert (E2 : Rltb a b = false) by by apply Rltb_false
  end.
  rewrite E2. by rewrite Hrow.
Qed.

(** What does hold of a missing rule: when the row of the source type
    exists and only the entry for the target type is missing, the force is
    the one the neutral rule gives, and nothing is thrown. *)
Lemma calculateForce_missing_entry_neutral self other (rules : RuleTable)
    (row : gmap string Rule) options :
  rules !! Particle.type self = Some row ->
  row !! Particle.type other = None ->
  (exists f, Particle.calculateForce self other rules options = Ok f) /\
  Particle.calculateForce self other rules options =
  Particle.calculateForce self other
    (<[Particle.type self :=
         <[Particle.type other := Particle.neutralRule]> row]> rules)
    options.
Proof.
  intros Hrow Hentry. unfold Particle.calculateForce. cbv zeta.
  rewrite Hrow, Hentry, !lookup_insert_eq. simpl.
  split; [| done].
  destruct (_ || _); eauto.
Qed.
End CalculateForceFacts.

(** ** Particle.update *)

Section UpdateFacts.
Local Open Scope R_scope.

Lemma getSpeed_with_velocity p a b :
  Particle.getSpeed (Particle.with_velocity p a b) = sqrt (a * a + b * b).
Proof. reflexivity. Qed.

(** [clampVelocity] leaves a speed of at most [maxVelocity], when that
    limit is not negative. *)
Lemma clampVelocity_speed p :
  0 <= Particle.maxVelocity p ->
  Particle.getSpeed (Particle.clampVelocity p) <= Particle.maxVelocity p /\
  Particle.maxVelocity (Particle.clampVelocity p) = Particle.maxVelocity p /\
  Particle.friction (Particle.clampVelocity p) = Particle.friction p.
Proof.
  intros Hmax. unfold Particle.clampVelocity. cbv zeta.
  set (mag := sqrt (Particle.vx p * Particle.vx p + Particle.vy p * Particle.vy p)).
  destruct (Rltb (Particle.maxVelocity p) mag) eqn:E.
  - apply Rltb_true in E. split; [| done].
    rewrite getSpeed_with_velocity, sqrt_scaled. fold mag.
    assert (Hpos : 0 < mag) by lra.
    assert (Hscale : 0 <= Particle.maxVelocity p / mag).
    { apply Rmult_le_pos; [done |]. left. by apply Rinv_0_lt_compat. }
    rewrite Rabs_pos_eq by done.
    right. field. lra.
  - apply Rltb_false in E. split; [| done]. exact E.
Qed.

(** C2, as amended: with the velocity clamp enabled, a friction factor in
    [-1, 1] and a non-negative [maxVelocity], the speed after [update] is
    at most [maxVelocity], whatever the accumulated force. *)
Theorem update_speed_bounded p :
  Options.enableVelocityClamp (Particle.options p) = true ->
  -1 <= Particle.friction p <= 1 ->
  0 <= Particle.maxVelocity p ->
  Particle.getSpeed (Particle.update p) <= Particle.maxVelocity p.
Proof.
  intros Hclamp Hfr Hmax. unfold Particle.update. cbv zeta.
  set (p1 := if (0 <? Particle.collisionCooldown p)%Z then _ else p).
  assert (H1 : Particle.options p1 = Particle.options p /\
               Particle.friction p1 = Particle.friction p /\
               Particle.maxVelocity p1 = Particle.maxVelocity p).
  { subst p1. by destruct (0 <? _)%Z. }
  destruct H1 as (Ho1 & Hf1 & Hm1).
  set (p2 := if Options.enableAccelerationClamp (Particle.options p1)
             then _ else p1).
  assert (H2 : Particle.options p2 = Particle.options p /\
               Particle.friction p2 = Particle.friction p /\
               Particle.maxVelocity p2 = Particle.maxVelocity p).
  { subst p2. destruct (Options.enableAccelerationClamp _); [| done].
    unfold Particle.clampAcceleration. cbv zeta.
    by destruct (Rltb _ _). }
  destruct H2 as (Ho2 & Hf2 & Hm2).
  set (p3 := Particle.with_velocity p2 _ _).
  assert (Ho3 : Particle.options p3 = Particle.options p) by done.
  rewrite Ho3, Hclamp.
  assert (Hm3 : Particle.maxVelocity p3 = Particle.maxVelocity p) by done.
  assert (Hf3 : Particle.friction p3 = Particle.friction p) by done.
  destruct (clampVelocity_speed p3) as (Hs & Hm4 & Hf4); [by rewrite Hm3 |].
  set (p4 := Particle.clampVelocity p3) in *.
  change (sqrt (Particle.vx p4 * Particle.friction p4 *
                (Particle.vx p4 * Particle.friction p4) +
                Particle.vy p4 * Particle.friction p4 *
                (Particle.vy p4 * Particle.friction p4))
          <= Particle.maxVelocity p).
  rewrite sqrt_scaled. unfold Particle.getSpeed in Hs.
  rewrite Hf4, Hf3. rewrite Hm3 in Hs.
  assert (Habs : Rabs (Particle.friction p) <= 1) by (apply Rabs_le; lra).
  pose proof (Rabs_pos (Particle.friction p)) as Habs0.
  pose proof (sqrt_sum_squares_nonneg (Particle.vx p4) (Particle.vy p4)) as Hs0.
  nra.
Qed.

Lemma update_speed_bounded_witness :
  Particle.getSpeed (Particle.update pushedParticle) <=
  Particle.maxVelocity pushedParticle.
Proof.
  apply update_speed_bounded.
  - reflexivity.
  - simpl. rewrite orDefault_Some by lra. lra.
  - simpl. rewrite orDefault_Some by lra. lra.
Defined.

(** C2, refuted as stated: a friction factor of [-2] is at most 1, and it
    doubles the clamped speed. *)
Lemma update_speed_exceeds_with_negative_friction :
  Options.enableVelocityClamp (Particle.options reversingParticle) = true /\
  Particle.friction reversingParticle <= 1 /\
  Particle.maxVelocity reversingParticle = 8 /\
  Particle.getSpeed (Particle.update reversingParticle) = 16 /\
  Particle.maxVelocity reversingParticle <
    Particle.getSpeed (Particle.update reversingParticle).
Proof.
  assert (Hfr : Particle.friction reversingParticle = -2)
    by (simpl; apply orDefault_Some; lra).
  assert (Hmax : Particle.maxVelocity reversingParticle = 8)
    by (simpl; apply orDefault_Some; lra).
  assert (Hacc : Particle.maxAcceleration reversingParticle = 0.5)
    by (simpl; apply orDefault_Some; lra).
  assert (Hspeed : Particle.getSpeed (Particle.update reversingParticle) = 16).
  { unfold Particle.update. cbv zeta.
    change (0 <? Particle.collisionCooldown reversingParticle)%Z with false.
    cbv iota.
    change (Options.enableAccelerationClamp (Particle.options reversingParticle))
      with true.
    cbv iota.
    assert (Hca : Particle.clampAcceleration reversingParticle = reversingParticle).
    { unfold Particle.clampAcceleration. cbv zeta. rewrite Hacc.
      change (Particle.fx reversingParticle) with 0.
      change (Particle.fy reversingParticle) with 0.
      replace (0 * 0 + 0 * 0) with 0 by lra. rewrite sqrt_0.
      assert (E : Rltb 0.5 0 = false) by (apply Rltb_false; lra).
      by rewrite E. }
    rewrite Hca.
    change (Particle.fx reversingParticle) with 0.
    change (Particle.fy reversingParticle) with 0.
    change (Particle.vx reversingParticle) with 8.
    change (Particle.vy reversingParticle) with 0.
    replace (8 + 0) with 8 by lra. replace (0 + 0) with 0 by lra.
    change (Particle.with_velocity reversingParticle 8 0) with reversingParticle.
    change (Options.enableVelocityClamp (Particle.options reversingParticle))
      with true.
    cbv iota.
    assert (Hcv : Particle.clampVelocity reversingParticle = reversingParticle).
    { unfold Particle.clampVelocity. cbv zeta. rewrite Hmax.
      change (Particle.vx reversingParticle) with 8.
      change (Particle.vy reversingParticle) with 0.
      rewrite sqrt_axis by lra.
      assert (E : Rltb 8 8 = false) by (apply Rltb_false; lra).
      by rewrite E. }
    rewrite Hcv, Hfr.
    change (Particle.vx reversingParticle) with 8.
    change (Particle.vy reversingParticle) with 0.
    unfold Particle.getSpeed. simpl.
    replace (8 * -2 * (8 * -2) + 0 * -2 * (0 * -2)) with (16 * 16) by lra.
    apply sqrt_square; lra. }
  split; [done |]. split; [lra |]. split; [done |]. split; [done |].
  rewrite Hspeed, Hmax. lra.
Qed.
End UpdateFacts.

(** ** Quadtree *)

(** Read the operations of the number system as those of the reals. *)
Ltac real_numbers :=
  cbn [Number.two Number.add Number.sub Number.mul Number.div Number.ltb
       Number.leb Number.max Number.min Number.real] in *.

(** Turn the boolean tests of a hypothesis or of the goal into
    inequalities. *)
Ltac R_props :=
  real_numbers;
  repeat match goal with
    | H : _ && _ = true |- _ => apply andb_true_iff in H as [? ?]
    | H : Rltb _ _ = true |- _ => apply Rltb_true in H
    | H : Rltb _ _ = false |- _ => apply Rltb_false in H
    | H : Rleb _ _ = true |- _ => apply Rleb_true in H
    | H : Rleb _ _ = false |- _ => apply Rleb_false in H
    | |- _ && _ = true => apply andb_true_iff; split
    | |- Rltb _ _ = true => apply Rltb_true
    | |- Rltb _ _ = false => apply Rltb_false
    | |- Rleb _ _ = true => apply Rleb_true
    | |- Rleb _ _ = false => apply Rleb_false
    end.

Section RectangleFacts.
Local Open Scope R_scope.

Lemma contains_spec (b : Rectangle.t R) x y :
  Rectangle.contains b x y = true <->
  Rectangle.x b <= x < Rectangle.x b + Rectangle.width b /\
  Rectangle.y b <= y < Rectangle.y b + Rectangle.height b.
Proof.
  unfold Rectangle.contains. split.
  - intros H. R_props. lra.
  - intros [[? ?] [? ?]]. R_props; lra.
Qed.

Lemma contains_false (b : Rectangle.t R) x y :
  Rectangle.contains b x y = false <->
  ~ (Rectangle.x b <= x < Rectangle.x b + Rectangle.width b /\
     Rectangle.y b <= y < Rectangle.y b + Rectangle.height b).
Proof.
  rewrite <- contains_spec. by destruct (Rectangle.contains b x y).
Qed.

(** In exact arithmetic the four quadrants cover their parent. *)
Lemma quadrants_cover (b : Rectangle.t R) x y :
  Rectangle.contains b x y = true ->
  Rectangle.contains (Quadtree.ne_rect b) x y = false ->
  Rectangle.contains (Quadtree.nw_rect b) x y = false ->
  Rectangle.contains (Quadtree.se_rect b) x y = false ->
  Rectangle.contains (Quadtree.sw_rect b) x y = false ->
  False.
Proof.
  rewrite contains_spec, !contains_false.
  unfold Quadtree.ne_rect, Quadtree.nw_rect, Quadtree.se_rect,
    Quadtree.sw_rect; simpl. real_numbers.
  intros Hb Hne Hnw Hse Hsw.
  destruct (Rlt_dec x (Rectangle.x b + Rectangle.width b / 2)),
           (Rlt_dec y (Rectangle.y b + Rectangle.height b / 2)).
  - apply Hnw; lra.
  - apply Hsw; lra.
  - apply Hne; lra.
  - apply Hse; lra.
Qed.

Lemma real_quadrantsCover : quadrantsCover R.
Proof.
  intros b x y Hb.
  destruct (Rectangle.contains (Quadtree.ne_rect b) x y) eqn:Hne; [done |].
  destruct (Rectangle.contains (Quadtree.nw_rect b) x y) eqn:Hnw; [done |].
  destruct (Rectangle.contains (Quadtree.se_rect b) x y) eqn:Hse; [done |].
  destruct (Rectangle.contains (Quadtree.sw_rect b) x y) eqn:Hsw; [done |].
  exfalso. by eapply (quadrants_cover b x y).
Qed.

(** Clamping [x] to an interval gives the point of the interval closest
    to [x]. *)
Lemma clamp_closest lo hi x p :
  lo <= p <= hi ->
  (x - Rmax lo (Rmin x hi)) * (x - Rmax lo (Rmin x hi)) <= (p - x) * (p - x).
Proof.
  intros Hp. unfold Rmax, Rmin.
  destruct (Rle_dec x hi); destruct (Rle_dec lo _); try lra.
  - pose proof (Rle_0_sqr (p - x)) as Hsq. unfold Rsqr in Hsq. lra.
  - assert (0 <= (p - lo) * (p + lo - 2 * x)) by (apply Rmult_le_pos; lra).
    lra.
  - assert (0 <= (hi - p) * (2 * x - hi - p)) by (apply Rmult_le_pos; lra).
    lra.
Qed.

(** A rectangle out of reach of the circle holds no point of the circle. *)
Lemma outOfReach_sound {A} (px py : A -> R) b x y radius p :
  Rectangle.contains b (px p) (py p) = true ->
  Quadtree.outOfReach b x y radius = true ->
  Quadtree.inCircle px py x y radius p = false.
Proof.
  rewrite contains_spec. unfold Quadtree.outOfReach, Quadtree.inCircle.
  cbv zeta. intros [Hx Hy] Hout. R_props.
  assert (Hcx := clamp_closest (Rectangle.x b)
    (Rectangle.x b + Rectangle.width b) x (px p)).
  assert (Hcy := clamp_closest (Rectangle.y b)
    (Rectangle.y b + Rectangle.height b) y (py p)).
  specialize (Hcx ltac:(lra)). specialize (Hcy ltac:(lra)).
  lra.
Qed.

Lemma real_circlePruningSound : circlePruningSound R.
Proof.
  intros b x y radius u v Hin Hout.
  by apply (outOfReach_sound fst snd b x y radius (u, v)).
Qed.

(** A rectangle that does not intersect [range] holds no point of
    [range]. *)
Lemma intersects_sound (b range : Rectangle.t R) x y :
  Rectangle.intersects b range = false ->
  Rectangle.contains b x y = true ->
  Rectangle.contains range x y = false.
Proof.
  unfold Rectangle.intersects. intros Hint Hin.
  apply negb_false_iff in Hint. rewrite !orb_true_iff in Hint.
  apply contains_spec in Hin. apply contains_false. intros Hr.
  real_numbers.
  destruct Hint as [[[H | H] | H] | H]; apply Rltb_true in H; lra.
Qed.

Lemma real_rangePruningSound : rangePruningSound R.
Proof. intros b range u v. apply intersects_sound. Qed.

(** For a radius that is not negative, the distance test and the test on
    squares agree. *)
Lemma inCircle_distance {A} (px py : A -> R) x y radius p :
  0 <= radius ->
  Rleb (sqrt ((px p - x) * (px p - x) + (py p - y) * (py p - y))) radius =
  Quadtree.inCircle px py x y radius p.
Proof.
  intros Hr. unfold Quadtree.inCircle. cbv zeta. real_numbers.
  set (d2 := (px p - x) * (px p - x) + (py p - y) * (py p - y)).
  assert (Hd2 : 0 <= d2).
  { pose proof (Rle_0_sqr (px p - x)) as H1.
    pose proof (Rle_0_sqr (py p - y)) as H2.
    unfold Rsqr in H1, H2. subst d2. lra. }
  assert (Hr2 : 0 <= radius * radius) by by apply Rmult_le_pos.
  destruct (Rleb d2 (radius * radius)) eqn:E; R_props.
  - rewrite <- (sqrt_square radius) by done. by apply sqrt_le_1.
  - apply Rnot_le_lt. intros Hle.
    rewrite <- (sqrt_square radius) in Hle by done.
    apply sqrt_le_0 in Hle; [lra | done | done].
Qed.
End RectangleFacts.

(** The facts of this section hold in every number system: they depend
    on what [insert] tests, not on what the tests answer. *)
Section QuadtreeFacts.
Context {N : Type} `{Number.t N} {A : Type}.
Variables px py : A -> N.

Local Abbreviation insert := (Quadtree.insert px py).
Local Abbreviation wf := (wellFormed px py).
Local Abbreviation elements := Quadtree.elements.
Local Abbreviation inside := (inside px py).

Lemma filter_Permutation (f : A -> bool) (l l' : list A) :
  l ≡ₚ l' -> List.filter f l ≡ₚ List.filter f l'.
Proof.
  induction 1 as [| a l l' _ IH | a b l | l l' l'' _ IH1 _ IH2]; simpl.
  - done.
  - destruct (f a); by rewrite IH.
  - destruct (f a), (f b); (done || by constructor).
  - by rewrite IH1.
Qed.

Lemma boundary_push (q : Quadtree.t N A) p :
  Quadtree.boundary (Quadtree.push q p) = Quadtree.boundary q.
Proof. by destruct q. Qed.

Lemma elements_push (q : Quadtree.t N A) p :
  elements (Quadtree.push q p) ≡ₚ p :: elements q.
Proof.
  destruct q as [b c ps | b c ps ne nw se sw]; simpl.
  - by rewrite Permutation_app_comm.
  - rewrite <- app_assoc. simpl. by rewrite <- Permutation_middle.
Qed.

Lemma wf_push (q : Quadtree.t N A) p :
  wf q -> inside (Quadtree.boundary q) p -> wf (Quadtree.push q p).
Proof.
  destruct q as [b c ps | b c ps ne nw se sw].
  - simpl. intros Hps Hp. apply Forall_app; split; [done | by constructor].
  - intros (Hps & Hrest) Hp. split; [| done].
    change (Forall (inside b)
              (elements (Quadtree.push (Quadtree.Node b c ps ne nw se sw) p))).
    rewrite elements_push. by constructor.
Qed.

Lemma positiveCapacity_push (q : Quadtree.t N A) p :
  positiveCapacity q -> positiveCapacity (Quadtree.push q p).
Proof. by destruct q. Qed.

(** What a call of [insert] that returns establishes: it accepts only
    what passed the test of the node, and the tree it leaves holds the
    particle exactly when it was accepted. *)
Record InsertPost (q : Quadtree.t N A) (p : A) (r : bool)
    (q' : Quadtree.t N A) : Prop := {
  post_accept : r = true -> inside (Quadtree.boundary q) p;
  post_boundary : Quadtree.boundary q' = Quadtree.boundary q;
  post_wf : wf q';
  post_elements : elements q' ≡ₚ (if r then p :: elements q else elements q);
  post_capacity : positiveCapacity q -> positiveCapacity q'
}.

(** A divided node whose children were replaced by trees on the same
    rectangles, and which holds the old particles and perhaps [p]. *)
Lemma wf_node b c ps (ne nw se sw ne' nw' se' sw' : Quadtree.t N A) p
    (r : bool) :
  wf (Quadtree.Node b c ps ne nw se sw) ->
  inside b p ->
  Quadtree.boundary ne' = Quadtree.boundary ne ->
  Quadtree.boundary nw' = Quadtree.boundary nw ->
  Quadtree.boundary se' = Quadtree.boundary se ->
  Quadtree.boundary sw' = Quadtree.boundary sw ->
  wf ne' -> wf nw' -> wf se' -> wf sw' ->
  elements (Quadtree.Node b c ps ne' nw' se' sw') ≡ₚ
    (if r then p :: elements (Quadtree.Node b c ps ne nw se sw)
     else elements (Quadtree.Node b c ps ne nw se sw)) ->
  wf (Quadtree.Node b c ps ne' nw' se' sw').
Proof.
  intros (Hall & Bne & Bnw & Bse & Bsw & _) Hp B1 B2 B3 B4 W1 W2 W3 W4 El.
  split.
  - rewrite El. destruct r; [by constructor | done].
  - repeat split; (done || congruence).
Qed.

(** The chain over the four children, given that the insertion into each
    child meets [InsertPost]. *)
Lemma insertIntoChildren_post ins b c ps ne nw se sw p r q' :
  (forall child r' child',
     ins child = Some (r', child') -> wf child -> InsertPost child p r' child') ->
  wf (Quadtree.Node b c ps ne nw se sw) ->
  inside b p ->
  Quadtree.insertIntoChildren ins b c ps ne nw se sw = Some (r, q') ->
  InsertPost (Quadtree.Node b c ps ne nw se sw) p r q'.
Proof.
  intros Hins Hwf Hin.
  pose proof Hwf as (Hps & Bne & Bnw & Bse & Bsw & Wne & Wnw & Wse & Wsw).
  unfold Quadtree.insertIntoChildren.
  destruct (ins ne) as [[r1 ne'] |] eqn:E1; [| done].
  apply Hins in E1 as [R1 B1 W1 El1 C1]; [| done].
  destruct r1.
  { intros [= <- <-].
    assert (El : elements (Quadtree.Node b c ps ne' nw se sw) ≡ₚ
                 p :: elements (Quadtree.Node b c ps ne nw se sw)).
    { simpl. rewrite El1. simpl. by rewrite <- !Permutation_middle. }
    split.
    - done.
    - done.
    - by apply (wf_node b c ps ne nw se sw ne' nw se sw p true).
    - exact El.
    - intros (? & ? & ? & ? & ?). repeat split; auto. }
  destruct (ins nw) as [[r2 nw'] |] eqn:E2; [| done].
  apply Hins in E2 as [R2 B2 W2 El2 C2]; [| done].
  destruct r2.
  { intros [= <- <-].
    assert (El : elements (Quadtree.Node b c ps ne' nw' se sw) ≡ₚ
                 p :: elements (Quadtree.Node b c ps ne nw se sw)).
    { simpl. rewrite El1, El2. simpl. by rewrite <- !Permutation_middle. }
    split.
    - done.
    - done.
    - by apply (wf_node b c ps ne nw se sw ne' nw' se sw p true).
    - exact El.
    - intros (? & ? & ? & ? & ?). repeat split; auto. }
  destruct (ins se) as [[r3 se'] |] eqn:E3; [| done].
  apply Hins in E3 as [R3 B3 W3 El3 C3]; [| done].
  destruct r3.
  { intros [= <- <-].
    assert (El : elements (Quadtree.Node b c ps ne' nw' se' sw) ≡ₚ
                 p :: elements (Quadtree.Node b c ps ne nw se sw)).
    { simpl. rewrite El1, El2, El3. simpl. by rewrite <- !Permutation_middle. }
    split.
    - done.
    - done.
    - by apply (wf_node b c ps ne nw se sw ne' nw' se' sw p true).
    - exact El.
    - intros (? & ? & ? & ? & ?). repeat split; auto. }
  destruct (ins sw) as [[r4 sw'] |] eqn:E4; [| done].
  apply Hins in E4 as [R4 B4 W4 El4 C4]; [| done].
  intros [= <- <-].
  assert (El : elements (Quadtree.Node b c ps ne' nw' se' sw') ≡ₚ
               (if r4 then p :: elements (Quadtree.Node b c ps ne nw se sw)
                else elements (Quadtree.Node b c ps ne nw se sw))).
  { simpl. rewrite El1, El2, El3, El4. destruct r4; [| done].
    simpl. by rewrite <- !Permutation_middle. }
  split.
  - done.
  - done.
  - by apply (wf_node b c ps ne nw se sw ne' nw' se' sw' p r4).
  - exact El.
  - intros (? & ? & ? & ? & ?). repeat split; auto.
Qed.

(** Partial correctness of [insert]: whenever the call returns, the tree
    it leaves holds the particle exactly when it returns [true], and it
    returns [true] only for a particle that passed the test of the
    node. *)
Lemma insert_post fuel : forall (q : Quadtree.t N A) p r q',
  insert fuel q p = Some (r, q') -> wf q -> InsertPost q p r q'.
Proof.
  induction fuel as [| n IH]; intros q p r q'; [done |].
  simpl.
  destruct (Rectangle.contains (Quadtree.boundary q) (px p) (py p)) eqn:Hin;
    simpl.
  2: { intros [= <- <-] Hwf. by split. }
  destruct (Z.of_nat (length (Quadtree.particles q)) <? Quadtree.capacity q)%Z.
  { intros [= <- <-] Hwf. split.
    - done.
    - apply boundary_push.
    - by apply wf_push.
    - apply elements_push.
    - apply positiveCapacity_push. }
  destruct q as [b c ps | b c ps ne nw se sw]; simpl in *.
  - intros Hchain Hwf.
    eapply insertIntoChildren_post in Hchain.
    + destruct Hchain as [R B W El C]. simpl in *. split; simpl.
      * done.
      * done.
      * done.
      * by rewrite app_nil_r in El.
      * intros Hc. apply C. repeat split; done.
    + intros child r' child' Hc Hw. by eapply IH.
    + simpl. rewrite app_nil_r. repeat split; (done || constructor).
    + done.
  - intros Hchain Hwf.
    eapply insertIntoChildren_post; [| done | done | exact Hchain].
    intros child r' child' Hc Hw. by eapply IH.
Qed.

(** The chain returns as soon as the insertion into each child does. *)
Lemma insertIntoChildren_total ins b c ps (ne nw se sw : Quadtree.t N A) d :
  (forall child, child = ne \/ child = nw \/ child = se \/ child = sw ->
     Quadtree.depth child <= d /\
     exists r child', ins child = Some (r, child') /\
                      Quadtree.depth child' <= d) ->
  exists r q',
    Quadtree.insertIntoChildren ins b c ps ne nw se sw = Some (r, q') /\
    Quadtree.depth q' <= S d.
Proof.
  intros Hch.
  destruct (Hch ne) as (Dne & r1 & ne' & E1 & D1); [auto |].
  destruct (Hch nw) as (Dnw & r2 & nw' & E2 & D2); [auto |].
  destruct (Hch se) as (Dse & r3 & se' & E3 & D3); [auto |].
  destruct (Hch sw) as (Dsw & r4 & sw' & E4 & D4); [auto |].
  unfold Quadtree.insertIntoChildren. rewrite E1.
  destruct r1; [eexists _, _; split; [done | simpl; lia] |].
  rewrite E2.
  destruct r2; [eexists _, _; split; [done | simpl; lia] |].
  rewrite E3.
  destruct r3; [eexists _, _; split; [done | simpl; lia] |].
  rewrite E4. eexists _, _; split; [done | simpl; lia].
Qed.

(** Inserting into an empty node with room returns at once. *)
Lemma insert_new n b c p :
  (1 <= c)%Z ->
  exists r q', insert (S n) (Quadtree.new b (Some c)) p = Some (r, q') /\
               Quadtree.depth q' <= 1.
Proof.
  intros Hc. unfold Quadtree.new.
  cbn [Quadtree.insert Quadtree.boundary Quadtree.particles Quadtree.capacity
       from_option id length Z.of_nat].
  destruct (Rectangle.contains b (px p) (py p)); cbn [negb].
  - assert (E : (Z.of_nat 0 <? Datatypes.id c)%Z = true)
      by (apply Z.ltb_lt; unfold Datatypes.id; simpl; lia).
    rewrite E.
    eexists _, _; split; [done | simpl; lia].
  - eexists _, _; split; [done | simpl; lia].
Qed.

(** Termination of [insert]: on a well-formed tree whose nodes all have
    room for a particle, a call nests at most [depth + 1] deep, and it adds
    at most one level to the tree. *)
Lemma insert_total (q : Quadtree.t N A) : forall fuel p,
  positiveCapacity q ->
  Quadtree.depth q < fuel ->
  exists r q', insert fuel q p = Some (r, q') /\
               Quadtree.depth q' <= S (Quadtree.depth q).
Proof.
  induction q as [b c ps | b c ps ne IHne nw IHnw se IHse sw IHsw];
    intros fuel p Hcap Hfuel.
  - destruct fuel as [| [| n]]; simpl in Hfuel; [lia | lia |].
    cbn [Quadtree.insert Quadtree.boundary Quadtree.particles
         Quadtree.capacity].
    destruct (negb _); [eexists _, _; split; [done | simpl; lia] |].
    destruct (_ <? _)%Z; [eexists _, _; split; [done | simpl; lia] |].
    unfold Quadtree.ensureDivided, Quadtree.subdivide.
    cbn [Quadtree.boundary Quadtree.particles Quadtree.capacity].
    apply (insertIntoChildren_total _ _ _ _ _ _ _ _ 1).
    intros child Hchild. split.
    + by destruct Hchild as [-> | [-> | [-> | ->]]].
    + destruct Hchild as [-> | [-> | [-> | ->]]]; by apply insert_new.
  - destruct fuel as [| n]; simpl in Hfuel; [lia |].
    destruct Hcap as (Hc & Cne & Cnw & Cse & Csw).
    cbn [Quadtree.insert Quadtree.boundary Quadtree.particles
         Quadtree.capacity].
    destruct (negb _); [eexists _, _; split; [done | simpl; lia] |].
    destruct (_ <? _)%Z; [eexists _, _; split; [done | simpl; lia] |].
    cbn [Quadtree.ensureDivided].
    apply (insertIntoChildren_total _ _ _ _ _ _ _ _
             (S (Nat.max (Nat.max (Quadtree.depth ne) (Quadtree.depth nw))
                         (Nat.max (Quadtree.depth se) (Quadtree.depth sw))))).
    intros child Hchild. split.
    + destruct Hchild as [-> | [-> | [-> | ->]]]; lia.
    + destruct Hchild as [-> | [-> | [-> | ->]]].
      * destruct (IHne n p) as (r & q' & E & D); [done | lia |].
        exists r, q'. split; [done | lia].
      * destruct (IHnw n p) as (r & q' & E & D); [done | lia |].
        exists r, q'. split; [done | lia].
      * destruct (IHse n p) as (r & q' & E & D); [done | lia |].
        exists r, q'. split; [done | lia].
      * destruct (IHsw n p) as (r & q' & E & D); [done | lia |].
        exists r, q'. split; [done | lia].
Qed.
(** The result of the chain is the disjunction of the results of the
    four children. *)
Lemma insertIntoChildren_result ins b c ps (ne nw se sw : Quadtree.t N A) r q'
    (g : Quadtree.t N A -> bool) :
  (forall child r' child',
     child = ne \/ child = nw \/ child = se \/ child = sw ->
     ins child = Some (r', child') -> r' = g child) ->
  Quadtree.insertIntoChildren ins b c ps ne nw se sw = Some (r, q') ->
  r = g ne || g nw || g se || g sw.
Proof.
  intros Hins. unfold Quadtree.insertIntoChildren.
  destruct (ins ne) as [[r1 ne'] |] eqn:E1; [| done].
  apply Hins in E1; [| auto]. subst r1.
  destruct (g ne); [by intros [= <- <-] |].
  destruct (ins nw) as [[r2 nw'] |] eqn:E2; [| done].
  apply Hins in E2; [| auto]. subst r2.
  destruct (g nw); [by intros [= <- <-] |].
  destruct (ins se) as [[r3 se'] |] eqn:E3; [| done].
  apply Hins in E3; [| auto]. subst r3.
  destruct (g se); [by intros [= <- <-] |].
  destruct (ins sw) as [[r4 sw'] |] eqn:E4; [| done].
  apply Hins in E4; [| auto]. subst r4.
  by intros [= <- <-].
Qed.

(** Where the quadrants cover their parent, [insert] returns whether the
    particle lies in the boundary. *)
Lemma insert_result fuel :
  quadrantsCover N ->
  forall (q : Quadtree.t N A) p r q',
    insert fuel q p = Some (r, q') -> wf q ->
    r = Rectangle.contains (Quadtree.boundary q) (px p) (py p).
Proof.
  intros Hcover.
  induction fuel as [| n IH]; intros q p r q'; [done |].
  simpl.
  destruct (Rectangle.contains (Quadtree.boundary q) (px p) (py p)) eqn:Hin;
    simpl; [| by intros [= <- <-]].
  destruct (Z.of_nat (length (Quadtree.particles q)) <? Quadtree.capacity q)%Z;
    [by intros [= <- <-] |].
  specialize (Hcover _ _ _ Hin).
  destruct q as [b c ps | b c ps ne nw se sw]; simpl in *.
  - intros Hchain Hwf.
    eapply (insertIntoChildren_result _ _ _ _ _ _ _ _ _ _
              (fun child =>
                 Rectangle.contains (Quadtree.boundary child) (px p) (py p)))
      in Hchain.
    + by rewrite Hchain.
    + intros child r' child' Hchild E. eapply IH; [exact E |].
      destruct Hchild as [-> | [-> | [-> | ->]]]; constructor.
  - intros Hchain (Hps & Bne & Bnw & Bse & Bsw & Wne & Wnw & Wse & Wsw).
    eapply (insertIntoChildren_result _ _ _ _ _ _ _ _ _ _
              (fun child =>
                 Rectangle.contains (Quadtree.boundary child) (px p) (py p)))
      in Hchain.
    + by rewrite Hchain, Bne, Bnw, Bse, Bsw.
    + intros child r' child' Hchild E. eapply IH; [exact E |].
      by destruct Hchild as [-> | [-> | [-> | ->]]].
Qed.

(** Why the capacity has to be positive: with a capacity of zero or less
    no node ever has room and every insertion subdivides again; where
    the quadrants cover their parent, a call on a particle of the
    boundary returns for no amount of fuel. *)
Lemma insert_without_capacity fuel :
  quadrantsCover N ->
  forall b c p,
    (c <= 0)%Z ->
    inside b p ->
    insert fuel (Quadtree.new b (Some c)) p = None.
Proof.
  intros Hcover.
  induction fuel as [| n IH]; intros b c p Hc Hin; [done |].
  unfold Quadtree.new.
  cbn [Quadtree.insert Quadtree.boundary Quadtree.particles Quadtree.capacity
       from_option id length Z.of_nat].
  change (Rectangle.contains b (px p) (py p) = true) in Hin.
  rewrite Hin. cbn [negb].
  assert (E : (Z.of_nat 0 <? Datatypes.id c)%Z = false)
    by (apply Z.ltb_ge; unfold Datatypes.id; simpl; lia).
  rewrite E.
  cbn [Quadtree.ensureDivided Quadtree.subdivide Quadtree.boundary
       Quadtree.particles Quadtree.capacity].
  assert (Hchild : forall r,
    insert n (Quadtree.new r (Some (Datatypes.id c))) p = None \/
    (Rectangle.contains r (px p) (py p) = false /\
     insert n (Quadtree.new r (Some (Datatypes.id c))) p =
       Some (false, Quadtree.new r (Some (Datatypes.id c))))).
  { intros r. destruct (Rectangle.contains r (px p) (py p)) eqn:Hr.
    - left. by apply IH.
    - destruct n as [| n']; [by left |]. right. split; [done |].
      unfold Quadtree.new.
      cbn [Quadtree.insert Quadtree.boundary]. by rewrite Hr. }
  unfold Quadtree.insertIntoChildren.
  destruct (Hchild (Quadtree.ne_rect b)) as [-> | [Hne ->]]; [done |].
  destruct (Hchild (Quadtree.nw_rect b)) as [-> | [Hnw ->]]; [done |].
  destruct (Hchild (Quadtree.se_rect b)) as [-> | [Hse ->]]; [done |].
  destruct (Hchild (Quadtree.sw_rect b)) as [-> | [Hsw ->]]; [done |].
  exfalso. specialize (Hcover _ _ _ Hin).
  by rewrite Hne, Hnw, Hse, Hsw in Hcover.
Qed.

(** Every particle of a well-formed tree passed the test of the root. *)
Lemma wf_elements_inside (q : Quadtree.t N A) :
  wf q -> Forall (inside (Quadtree.boundary q)) (elements q).
Proof. destruct q; [done | by intros (? & _)]. Qed.

Lemma filter_none (f : A -> bool) (l : list A) :
  Forall (fun p => f p = false) l -> List.filter f l = [].
Proof.
  induction 1 as [| p l Hp _ IH]; simpl; [done |]. by rewrite Hp.
Qed.

Lemma inCircle_pair x y radius p :
  Quadtree.inCircle fst snd x y radius (px p, py p) =
  Quadtree.inCircle px py x y radius p.
Proof. reflexivity. Qed.

(** Where the pruning test is sound, [queryCircle] appends to [found]
    the stored particles that pass the test on squared distances, in the
    order [elements] lists them. *)
Lemma queryCircle_elements (q : Quadtree.t N A) :
  circlePruningSound N ->
  forall x y radius found,
    wf q ->
    Quadtree.queryCircle px py q x y radius found =
    found ++ List.filter (Quadtree.inCircle px py x y radius) (elements q).
Proof.
  intros Hsound.
  induction q as [b c ps | b c ps ne IHne nw IHnw se IHse sw IHsw];
    intros x y radius found Hwf.
  - cbn [Quadtree.queryCircle Quadtree.boundary Quadtree.particles
         Quadtree.elements].
    destruct (Quadtree.outOfReach b x y radius) eqn:Hout; [| done].
    rewrite filter_none; [by rewrite app_nil_r |].
    eapply Forall_impl; [exact Hwf |].
    intros p Hp. rewrite <- inCircle_pair. by eapply Hsound.
  - cbn [Quadtree.queryCircle Quadtree.boundary Quadtree.particles].
    destruct (Quadtree.outOfReach b x y radius) eqn:Hout.
    + rewrite filter_none; [by rewrite app_nil_r |].
      eapply Forall_impl; [exact (wf_elements_inside _ Hwf) |].
      intros p Hp. rewrite <- inCircle_pair. by eapply Hsound.
    + destruct Hwf as (Hps & Bne & Bnw & Bse & Bsw & Wne & Wnw & Wse & Wsw).
      rewrite IHsw, IHse, IHnw, IHne by done.
      cbn [Quadtree.elements]. rewrite !List.filter_app, <- !app_assoc. done.
Qed.

(** In any number system, what [queryCircle] appends to [found] is taken
    from the stored particles that pass the test, each at most as often
    as it is stored. *)
Lemma queryCircle_sublist (q : Quadtree.t N A) : forall x y radius found,
  exists l,
    Quadtree.queryCircle px py q x y radius found = found ++ l /\
    sublist l (List.filter (Quadtree.inCircle px py x y radius) (elements q)).
Proof.
  induction q as [b c ps | b c ps ne IHne nw IHnw se IHse sw IHsw];
    intros x y radius found.
  - cbn [Quadtree.queryCircle Quadtree.boundary Quadtree.particles
         Quadtree.elements].
    destruct (Quadtree.outOfReach b x y radius).
    + exists []. split; [by rewrite app_nil_r | apply sublist_nil_l].
    + by eexists.
  - cbn [Quadtree.queryCircle Quadtree.boundary Quadtree.particles].
    destruct (Quadtree.outOfReach b x y radius).
    + exists []. split; [by rewrite app_nil_r | apply sublist_nil_l].
    + set (found' := found ++ List.filter _ ps).
      destruct (IHne x y radius found') as (l1 & -> & S1).
      destruct (IHnw x y radius (found' ++ l1)) as (l2 & -> & S2).
      destruct (IHse x y radius ((found' ++ l1) ++ l2)) as (l3 & -> & S3).
      destruct (IHsw x y radius (((found' ++ l1) ++ l2) ++ l3))
        as (l4 & -> & S4).
      exists (List.filter (Quadtree.inCircle px py x y radius) ps ++
              l1 ++ l2 ++ l3 ++ l4).
      split; [subst found'; by rewrite <- !app_assoc |].
      cbn [Quadtree.elements]. rewrite !List.filter_app.
      repeat (apply sublist_app; [done |]). done.
Qed.

(** [insertAll] keeps the invariants of the tree. *)
Lemma insertAll_invariant fuel ps : forall (q q' : Quadtree.t N A),
  Quadtree.insertAll px py fuel q ps = Some q' ->
  wf q ->
  wf q' /\ Quadtree.boundary q' = Quadtree.boundary q /\
  (positiveCapacity q -> positiveCapacity q').
Proof.
  induction ps as [| p ps IH]; intros q q'; simpl.
  - by intros [= <-] Hwf.
  - destruct (insert fuel q p) as [[r q1] |] eqn:E; [| done].
    intros Hall Hwf.
    apply insert_post in E as [_ B W _ C]; [| done].
    destruct (IH _ _ Hall W) as (W' & B' & C').
    split; [done |]. split; [congruence | auto].
Qed.

(** What a run of insertions stores: the particles it accepted, and no
    other; they all passed the test of the root. *)
Lemma insertAll_accepted fuel ps : forall (q q' : Quadtree.t N A),
  Quadtree.insertAll px py fuel q ps = Some q' ->
  wf q ->
  elements q' ≡ₚ elements q ++ accepted px py fuel q ps /\
  Forall (inside (Quadtree.boundary q)) (accepted px py fuel q ps) /\
  sublist (accepted px py fuel q ps) ps.
Proof.
  induction ps as [| p ps IH]; intros q q'; simpl.
  - intros [= <-] _. split; [by rewrite app_nil_r |]. split; constructor.
  - destruct (insert fuel q p) as [[r q1] |] eqn:E; [| done].
    intros Hall Hwf.
    apply insert_post in E as [R B W El _]; [| done].
    destruct (IH _ _ Hall W) as (El' & Hin & Hsub).
    rewrite B in Hin. split; [| split].
    + rewrite El', El. destruct r; simpl; [| done].
      by rewrite <- Permutation_middle.
    + destruct r; simpl; [| done]. constructor; [by apply R | done].
    + destruct r; simpl; by constructor.
Qed.

(** Where the quadrants cover their parent, the accepted particles are
    the particles of the root rectangle. *)
Lemma accepted_cover fuel ps :
  quadrantsCover N ->
  forall (q q' : Quadtree.t N A),
    Quadtree.insertAll px py fuel q ps = Some q' ->
    wf q ->
    accepted px py fuel q ps =
    List.filter (insideb px py (Quadtree.boundary q)) ps.
Proof.
  intros Hcover.
  induction ps as [| p ps IH]; intros q q'; simpl; [done |].
  destruct (insert fuel q p) as [[r q1] |] eqn:E; [| done].
  intros Hall Hwf.
  pose proof (insert_result fuel Hcover _ _ _ _ E Hwf) as R.
  apply insert_post in E as [_ B W _ _]; [| done].
  rewrite (IH _ _ Hall W), B. unfold insideb at 2. rewrite <- R.
  by destruct r.
Qed.

(** [insertAll] returns when every node has room for a particle and the
    fuel covers the depth the tree can reach. *)
Lemma insertAll_total fuel ps : forall (q : Quadtree.t N A),
  wf q ->
  positiveCapacity q ->
  Quadtree.depth q + length ps <= fuel ->
  exists q', Quadtree.insertAll px py fuel q ps = Some q' /\
             Quadtree.depth q' <= Quadtree.depth q + length ps.
Proof.
  induction ps as [| p ps IH]; intros q Hwf Hcap Hfuel; simpl in *.
  - exists q. split; [done | lia].
  - destruct (insert_total q fuel p) as (r & q1 & E & D); [done | lia |].
    rewrite E.
    pose proof (insert_post _ _ _ _ _ E Hwf) as [_ _ W _ C].
    destruct (IH q1) as (q' & E' & D'); [done | auto | lia |].
    exists q'. split; [done | lia].
Qed.

Lemma wf_new b (c : option Z) : wf (Quadtree.new b c).
Proof. constructor. Qed.

Lemma sublist_filter (f : A -> bool) (l k : list A) :
  sublist l k -> sublist (List.filter f l) (List.filter f k).
Proof.
  induction 1 as [| a l k _ IH | a l k _ IH]; simpl.
  - constructor.
  - destruct (f a); [by constructor | done].
  - destruct (f a); [by constructor | done].
Qed.

Lemma filter_all (f : A -> bool) (l : list A) :
  Forall (fun p => f p = true) l -> List.filter f l = l.
Proof.
  induction 1 as [| p l Hp _ IH]; simpl; [done |]. by rewrite Hp, IH.
Qed.


End QuadtreeFacts.

(** Evaluate the comparisons of the goal whose operands are numerals. *)
Ltac R_eval :=
  real_numbers;
  repeat match goal with
    | |- context [Rltb ?a ?b] =>
      first [ replace (Rltb a b) with true by (symmetry; apply Rltb_true; lra)
            | replace (Rltb a b) with false by (symmetry; apply Rltb_false; lra) ]
    | |- context [Rleb ?a ?b] =>
      first [ replace (Rleb a b) with true by (symmetry; apply Rleb_true; lra)
            | replace (Rleb a b) with false by (symmetry; apply Rleb_false; lra) ]
    | |- context [Reqb ?a ?b] =>
      first [ replace (Reqb a b) with true by (symmetry; apply Reqb_true; lra)
            | replace (Reqb a b) with false by (symmetry; apply Reqb_false; lra) ]
    end.

Section QuadtreeScenarioFacts.
Local Open Scope R_scope.





(** In exact arithmetic the laws hold, and [queryCircle] is brute-force
    filtering by Euclidean distance of the inserted particles of the root
    rectangle. *)
Lemma queryCircle_exact {A} (px py : A -> R) b c ps fuel q x y radius :
  Quadtree.insertAll px py fuel (Quadtree.new b c) ps = Some q ->
  Forall (inside px py b) ps ->
  0 <= radius ->
  Quadtree.queryCircle px py q x y radius [] ≡ₚ
  Quadtree.bruteForceCircle px py x y radius ps.
Proof.
  intros Hbuild Hin Hr.
  pose proof (wf_new px py b c) as Hwf0.
  destruct (insertAll_invariant _ _ _ _ _ _ Hbuild Hwf0) as (Hwf & _ & _).
  destruct (insertAll_accepted _ _ _ _ _ _ Hbuild Hwf0) as (El & _ & _).
  rewrite (queryCircle_elements px py q real_circlePruningSound) by done.
  simpl in *.
  rewrite (filter_Permutation _ _ _ El).
  rewrite (accepted_cover _ _ _ _ real_quadrantsCover _ _ Hbuild Hwf0).
  rewrite (filter_all (insideb px py b)) by done.
  unfold Quadtree.bruteForceCircle.
  erewrite List.filter_ext; [done |].
  intros p. symmetry. by apply inCircle_distance.
Qed.


End QuadtreeScenarioFacts.

(** On the doubles of the code a cell cannot be halved for ever: after
    57 halvings around the point (10, 10) of the canvas the sum
    [x + width] rounds to [x], the four quadrants are empty and cover
    nothing, and [insert] returns [false] for a particle of the root
    rectangle. *)
Section QuadtreeOnDoubles.
Import PrimFloat.
Local Open Scope float_scope.

Lemma stack64_run :
  Stack64.run = Some (false, 57%nat, 57%nat, 57%nat, seq 1 57).
Proof. vm_compute. reflexivity. Qed.

(** What the model computes for 57 and for 58 stacked particles. *)
Lemma stack64_computed :
  (exists q57 q58 q',
     Stack64.tree 57 = Some q57 /\ Stack64.tree 58 = Some q58 /\
     Quadtree.insert Stack64.px Stack64.py 100 q57 (Stack64.particle 58) =
       Some (false, q') /\
     Quadtree.depth q57 = 57%nat /\
     Quadtree.size q57 = 57%nat /\
     Quadtree.size q' = 57%nat /\
     map fst (Quadtree.queryCircle Stack64.px Stack64.py q58 10 10 5 []) =
       seq 1 57) /\
  forallb (insideb Stack64.px Stack64.py Stack64.canvas) (Stack64.stack 58) =
    true /\
  map fst (Stack64.bruteForceCircle 10 10 5 (Stack64.stack 58)) = seq 1 58 /\
  map fst (List.filter (Quadtree.inCircle Stack64.px Stack64.py 10 10 5)
             (Stack64.stack 58)) = seq 1 58.
Proof.
  split; [| repeat split; vm_compute; reflexivity].
  pose proof stack64_run as Hrun. unfold Stack64.run in Hrun.
  destruct (Stack64.tree 57) as [q57 |] eqn:E57; [| discriminate Hrun].
  destruct (Stack64.tree 58) as [q58 |] eqn:E58; [| discriminate Hrun].
  destruct (Quadtree.insert Stack64.px Stack64.py 100 q57 (Stack64.particle 58))
    as [[r q'] |] eqn:E; [| discriminate Hrun].
  injection Hrun as -> Hd Hs Hs' Hfound.
  exists q57, q58, q'.
  exact (conj eq_refl (conj eq_refl
           (conj E (conj Hd (conj Hs (conj Hs' Hfound)))))).
Qed.


(** The same run, for [insert]: the tree of the first 57 particles is 57
    levels deep, and the insertion of the 58th, a particle of the root
    rectangle, divides the deepest node, returns [false] and stores
    nothing. *)
Lemma insert_refuses_on_doubles :
  exists q q',
    Stack64.tree 57 = Some q /\
    Quadtree.depth q = 57%nat /\
    Quadtree.size q = 57%nat /\
    insideb Stack64.px Stack64.py Stack64.canvas (Stack64.particle 58) = true /\
    Quadtree.insert Stack64.px Stack64.py 100 q (Stack64.particle 58) =
      Some (false, q') /\
    Quadtree.size q' = 57%nat.
Proof.
  destruct stack64_computed
    as ((q57 & q58 & q' & E57 & _ & Hins & Hd & Hs & Hs' & _) & _ & _ & _).
  exists q57, q'.
  refine (conj E57 (conj Hd (conj Hs (conj _ (conj Hins Hs'))))).
  vm_compute. reflexivity.
Qed.

(** Stacked particles do not make [insert] recurse without bound on
    doubles either: with capacity 1 and two particles stored on the point
    (10, 10), the insertion of the third returns [true] within three
    nested calls. *)
Lemma insert_stacked_on_doubles :
  exists q q',
    Stack64.tree 2 = Some q /\
    Quadtree.size q = 2%nat /\
    Quadtree.insert Stack64.px Stack64.py 3 q (Stack64.particle 3) =
      Some (true, q') /\
    Quadtree.size q' = 3%nat.
Proof.
  assert (Hrun :
    option_map
      (fun q =>
         (Quadtree.size q,
          option_map (fun rq => (fst rq, Quadtree.size (snd rq)))
            (Quadtree.insert Stack64.px Stack64.py 3 q (Stack64.particle 3))))
      (Stack64.tree 2) =
    Some (2%nat, Some (true, 3%nat))) by (vm_compute; reflexivity).
  destruct (Stack64.tree 2) as [q |]; [| discriminate Hrun].
  cbn [option_map] in Hrun.
  destruct (Quadtree.insert Stack64.px Stack64.py 3 q (Stack64.particle 3))
    as [[r q'] |] eqn:E; [| discriminate Hrun].
  injection Hrun as Hs -> Hs'.
  exists q, q'. exact (conj eq_refl (conj Hs (conj E Hs'))).
Qed.

(** With a capacity of zero no node has room; on doubles the call still
    returns: after 57 subdivisions no quadrant contains the particle, and
    the result is [false]. *)
Lemma insert_without_capacity_on_doubles :
  exists q',
    Quadtree.insert Stack64.px Stack64.py 58
      (Quadtree.new Stack64.canvas (Some 0%Z)) (Stack64.particle 1) =
      Some (false, q') /\
    Quadtree.size q' = 0%nat /\
    Quadtree.depth q' = 58%nat.
Proof.
  assert (Hrun :
    option_map (fun rq => (fst rq, Quadtree.size (snd rq),
                           Quadtree.depth (snd rq)))
      (Quadtree.insert Stack64.px Stack64.py 58
         (Quadtree.new Stack64.canvas (Some 0%Z)) (Stack64.particle 1)) =
    Some (false, 0%nat, 58%nat)) by (vm_compute; reflexivity).
  destruct (Quadtree.insert Stack64.px Stack64.py 58
              (Quadtree.new Stack64.canvas (Some 0%Z)) (Stack64.particle 1))
    as [[r q'] |]; [| discriminate Hrun].
  injection Hrun as -> Hs Hd.
  exists q'. exact (conj eq_refl (conj Hs Hd)).
Qed.
End QuadtreeOnDoubles.

(** ** RuleManager *)

Section RuleManagerFacts.
Context {Table : Type}.

Local Abbreviation manager := (RuleManager.t Table).

Lemma at_index_lt {X} (a : list X) i x :
  RuleManager.at_index a i = Some x -> (0 <= i < Z.of_nat (length a))%Z.
Proof.
  unfold RuleManager.at_index. destruct (i <? 0)%Z eqn:E; [done |].
  intros H. apply lookup_lt_Some in H. lia.
Qed.

Lemma at_index_is_Some {X} (a : list X) i :
  (0 <= i < Z.of_nat (length a))%Z -> is_Some (RuleManager.at_index a i).
Proof.
  intros H. unfold RuleManager.at_index.
  destruct (i <? 0)%Z eqn:E; [lia |].
  apply lookup_lt_is_Some. lia.
Qed.

(** After [undo], a save leaves the cursor on the last entry: there is
    nothing to redo. *)
Lemma redo_after_save (m : manager) label now :
  (RuleManager.currentHistoryIndex m <
     Z.of_nat (length (RuleManager.ruleHistory m)) - 1)%Z ->
  (-1 <= RuleManager.currentHistoryIndex m)%Z ->
  RuleManager.redo (RuleManager.saveToHistory m label now) =
    RuleManager.Return false (RuleManager.saveToHistory m label now) /\
  RuleManager.ruleHistory (RuleManager.saveToHistory m label now) =
    let history' :=
      take (Z.to_nat (RuleManager.currentHistoryIndex m + 1))
           (RuleManager.ruleHistory m) ++
      [{| RuleManager.label := label;
          RuleManager.h_rules := RuleManager.rules m;
          RuleManager.timestamp := now |}] in
    if (RuleManager.maxHistorySize m <? Z.of_nat (length history'))%Z
    then tail history' else history'.
Proof.
  intros Hlt Hge. unfold RuleManager.saveToHistory.
  assert (E : (RuleManager.currentHistoryIndex m <?
               Z.of_nat (length (RuleManager.ruleHistory m)) - 1)%Z = true)
    by by apply Z.ltb_lt.
  rewrite E. unfold RuleManager.slice0.
  assert (E0 : (RuleManager.currentHistoryIndex m + 1 <? 0)%Z = false)
    by (apply Z.ltb_ge; lia).
  rewrite E0. unfold RuleManager.deepCopy. cbv zeta.
  set (history' := take _ _ ++ [_]).
  assert (Hlen : Z.of_nat (length history') =
                 (RuleManager.currentHistoryIndex m + 2)%Z).
  { subst history'. rewrite length_app, length_take. simpl. lia. }
  destruct (RuleManager.maxHistorySize m <? Z.of_nat (length history'))%Z
    eqn:Emax.
  - split; [| done]. unfold RuleManager.redo. simpl.
    assert (Hlen' : Z.of_nat (length (tail history')) =
                    (RuleManager.currentHistoryIndex m + 1)%Z).
    { destruct history'; simpl in *; lia. }
    assert (E1 : (RuleManager.currentHistoryIndex m <?
                  Z.of_nat (length (tail history')) - 1)%Z = false)
      by (apply Z.ltb_ge; lia).
    by rewrite E1.
  - split; [| done]. unfold RuleManager.redo. simpl.
    assert (E1 : (RuleManager.currentHistoryIndex m + 1 <?
                  Z.of_nat (length history') - 1)%Z = false)
      by (apply Z.ltb_ge; lia).
    by rewrite E1.
Qed.

(** Right after a save the cursor names the new entry, whose snapshot is
    the table: the manager is in sync. *)
Lemma saveToHistory_in_sync (m : manager) label now :
  (1 <= RuleManager.maxHistorySize m)%Z ->
  (-1 <= RuleManager.currentHistoryIndex m <
     Z.of_nat (length (RuleManager.ruleHistory m)))%Z ->
  exists entry,
    RuleManager.at_index
      (RuleManager.ruleHistory (RuleManager.saveToHistory m label now))
      (RuleManager.currentHistoryIndex (RuleManager.saveToHistory m label now))
      = Some entry /\
    RuleManager.h_rules entry =
      RuleManager.rules (RuleManager.saveToHistory m label now).
Proof.
  intros Hmax Hidx. unfold RuleManager.saveToHistory. cbv zeta.
  set (history :=
    if (RuleManager.currentHistoryIndex m <?
        Z.of_nat (length (RuleManager.ruleHistory m)) - 1)%Z
    then _ else _).
  assert (Hlen : Z.of_nat (length history) =
                 (RuleManager.currentHistoryIndex m + 1)%Z).
  { subst history.
    destruct (_ <? _)%Z eqn:E.
    - unfold RuleManager.slice0.
      assert (E0 : (RuleManager.currentHistoryIndex m + 1 <? 0)%Z = false)
        by (apply Z.ltb_ge; lia).
      rewrite E0, length_take. apply Z.ltb_lt in E. lia.
    - apply Z.ltb_ge in E. lia. }
  set (entry := {| RuleManager.label := label; RuleManager.h_rules := _;
                   RuleManager.timestamp := now |}).
  exists entry.
  destruct (_ <? Z.of_nat (length (history ++ [entry])))%Z eqn:Emax;
    cbn [RuleManager.ruleHistory RuleManager.currentHistoryIndex
         RuleManager.rules]; (split; [| done]).
  - apply Z.ltb_lt in Emax. rewrite length_app in Emax. simpl in Emax.
    unfold RuleManager.at_index.
    assert (E0 : (RuleManager.currentHistoryIndex m <? 0)%Z = false)
      by (apply Z.ltb_ge; lia).
    rewrite E0.
    destruct history as [| h history']; simpl in *; [lia |].
    rewrite lookup_app_r by lia.
    replace (Z.to_nat (RuleManager.currentHistoryIndex m) - length history')%nat
      with 0%nat by lia.
    done.
  - unfold RuleManager.at_index.
    assert (E0 : (RuleManager.currentHistoryIndex m + 1 <? 0)%Z = false)
      by (apply Z.ltb_ge; lia).
    rewrite E0, lookup_app_r by lia.
    replace (Z.to_nat (RuleManager.currentHistoryIndex m + 1) - length history)%nat
      with 0%nat by lia.
    done.
Qed.

(** C8, as amended: when the cursor is past the start, names an entry of
    the history, and the table equals the snapshot of that entry (no
    in-place edit since the last save, undo or redo), [undo] succeeds, a
    following [redo] succeeds and restores the table and the cursor; and a
    save made after the [undo] drops the entries after the cursor, so that
    [redo] returns [false]. *)
Theorem undo_then_redo (m : manager) entry :
  (0 < RuleManager.currentHistoryIndex m)%Z ->
  RuleManager.at_index (RuleManager.ruleHistory m)
    (RuleManager.currentHistoryIndex m) = Some entry ->
  RuleManager.rules m = RuleManager.h_rules entry ->
  exists m1 m2,
    RuleManager.undo m = RuleManager.Return true m1 /\
    RuleManager.redo m1 = RuleManager.Return true m2 /\
    RuleManager.rules m2 = RuleManager.rules m /\
    RuleManager.currentHistoryIndex m2 = RuleManager.currentHistoryIndex m /\
    RuleManager.ruleHistory m2 = RuleManager.ruleHistory m /\
    forall label now,
      RuleManager.redo (RuleManager.saveToHistory m1 label now) =
        RuleManager.Return false (RuleManager.saveToHistory m1 label now) /\
      RuleManager.ruleHistory (RuleManager.saveToHistory m1 label now) =
        let history' :=
          take (Z.to_nat (RuleManager.currentHistoryIndex m))
               (RuleManager.ruleHistory m) ++
          [{| RuleManager.label := label;
              RuleManager.h_rules := RuleManager.rules m1;
              RuleManager.timestamp := now |}] in
        if (RuleManager.maxHistorySize m <? Z.of_nat (length history'))%Z
        then tail history' else history'.
Proof.
  intros Hpos Hentry Hsync.
  pose proof (at_index_lt _ _ _ Hentry) as Hrange.
  destruct (at_index_is_Some (RuleManager.ruleHistory m)
              (RuleManager.currentHistoryIndex m - 1)) as [prev Hprev]; [lia |].
  unfold RuleManager.undo.
  assert (E : (0 <? RuleManager.currentHistoryIndex m)%Z = true)
    by by apply Z.ltb_lt.
  rewrite E. simpl. rewrite Hprev.
  eexists _, _. split; [reflexivity |].
  unfold RuleManager.redo. simpl.
  assert (E1 : (RuleManager.currentHistoryIndex m - 1 <?
                Z.of_nat (length (RuleManager.ruleHistory m)) - 1)%Z = true)
    by (apply Z.ltb_lt; lia).
  rewrite E1.
  replace (RuleManager.currentHistoryIndex m - 1 + 1)%Z
    with (RuleManager.currentHistoryIndex m) by lia.
  rewrite Hentry.
  split; [reflexivity |]. simpl.
  split; [by rewrite Hsync |]. split; [done |]. split; [done |].
  intros label now.
  match goal with
  | |- context [RuleManager.saveToHistory ?m1 _ _] =>
    destruct (redo_after_save m1 label now) as [Hredo Hhist]
  end; [simpl; lia | simpl; lia |].
  split; [exact Hredo |].
  rewrite Hhist. simpl.
  by replace (RuleManager.currentHistoryIndex m - 1 + 1)%Z
    with (RuleManager.currentHistoryIndex m) by lia.
Qed.

(** The assignment to the getter-only [types] throws before the table is
    touched, so every input, well-formed or not, is rejected. *)
Lemma importRules_always_rejects (JSON_parse : string -> JsResult JsValue)
    (asTable : JsValue -> Table) (m : manager) jsonString now :
  RuleManager.importRules JSON_parse asTable m jsonString now = (false, m).
Proof.
  unfold RuleManager.importRules, RuleManager.importRules_try.
  destruct (JSON_parse jsonString) as [data | e]; [| done].
  destruct (getProp data "rules") as [data_rules | e]; [| done].
  destruct (truthy data_rules); [| done].
  destruct (getProp data "types") as [data_types | e]; [| done].
  by destruct (truthy data_types).
Qed.

(** C7: [importRules] either replaces the table by the imported one and
    returns [true], or returns [false] and leaves the manager, its table
    included, as it was; an input that does not parse, or that lacks a
    truthy [rules] or [types] field, is always rejected that way. *)
Theorem importRules_all_or_nothing (JSON_parse : string -> JsResult JsValue)
    (asTable : JsValue -> Table) (m : manager) jsonString now :
  ((exists data data_rules m',
      JSON_parse jsonString = Ok data /\
      getProp data "rules" = Ok data_rules /\
      RuleManager.importRules JSON_parse asTable m jsonString now = (true, m') /\
      RuleManager.rules m' = asTable data_rules) \/
   RuleManager.importRules JSON_parse asTable m jsonString now = (false, m)) /\
  (if wellFormedImport JSON_parse jsonString then True
   else RuleManager.importRules JSON_parse asTable m jsonString now =
          (false, m)).
Proof.
  pose proof (importRules_always_rejects JSON_parse asTable m jsonString now)
    as H.
  split; [by right |]. by destruct (wellFormedImport _ _).
Qed.
End RuleManagerFacts.

Section RuleManagerScenarioFacts.
Local Open Scope R_scope.

Lemma savedManager_eq :
  savedManager =
  RuleManager.mk (table_of 1) false
    [{| RuleManager.label := "Initial rules"; RuleManager.h_rules := table_of 0;
        RuleManager.timestamp := 0 |};
     {| RuleManager.label := "Rule change"; RuleManager.h_rules := table_of 1;
        RuleManager.timestamp := 1 |}]
    1 50.
Proof. reflexivity. Qed.

Lemma editedManager_eq :
  editedManager =
  RuleManager.mk
    (<["red"%string := <["red"%string := rule_of 2]>
                         {["red"%string := rule_of 1]}]> (table_of 1))
    false (RuleManager.ruleHistory savedManager) 1 50.
Proof.
  unfold editedManager, RuleManager.setForceRule. rewrite savedManager_eq.
  cbn [RuleManager.rules]. unfold table_of.
  rewrite lookup_singleton_eq, lookup_singleton_eq. reflexivity.
Qed.

Lemma undo_then_redo_witness :
  exists m1 m2,
    RuleManager.undo savedManager = RuleManager.Return true m1 /\
    RuleManager.redo m1 = RuleManager.Return true m2 /\
    RuleManager.rules m2 = RuleManager.rules savedManager.
Proof.
  destruct (undo_then_redo savedManager
              {| RuleManager.label := "Rule change";
                 RuleManager.h_rules := table_of 1;
                 RuleManager.timestamp := 1 |})
    as (m1 & m2 & Hundo & Hredo & Hrules & _).
  - rewrite savedManager_eq. simpl. lia.
  - rewrite savedManager_eq. reflexivity.
  - rewrite savedManager_eq. reflexivity.
  - exists m1, m2. split; [exact Hundo |]. split; [exact Hredo | exact Hrules].
Defined.

(** C8, refuted as stated: after an in-place edit by [setForceRule] the
    manager has two history entries and its cursor past the start; [undo]
    and then [redo] both succeed, and the table they leave is the last
    snapshot, not the edited table that was there before the [undo]. *)
Lemma undo_then_redo_drops_edit :
  length (RuleManager.ruleHistory editedManager) = 2%nat /\
  RuleManager.currentHistoryIndex editedManager = 1%Z /\
  exists m1 m2,
    RuleManager.undo editedManager = RuleManager.Return true m1 /\
    RuleManager.redo m1 = RuleManager.Return true m2 /\
    RuleManager.rules m2 = table_of 1 /\
    RuleManager.rules m2 <> RuleManager.rules editedManager.
Proof.
  rewrite editedManager_eq, savedManager_eq.
  split; [reflexivity |]. split; [reflexivity |].
  eexists _, _. split; [reflexivity |]. split; [reflexivity |].
  split; [reflexivity |].
  cbn [RuleManager.rules RuleManager.h_rules RuleManager.deepCopy].
  unfold RuleManager.deepCopy, table_of. intros Heq.
  assert (Hrule :
    ({["red"%string := {["red"%string := rule_of 1]}]} : RuleTable)
      !! "red"%string ≫= (.!! "red"%string) = Some (rule_of 2)).
  { rewrite Heq. rewrite lookup_insert_eq. simpl. by rewrite lookup_insert_eq. }
  rewrite lookup_singleton_eq in Hrule. simpl in Hrule.
  rewrite lookup_singleton_eq in Hrule.
  injection Hrule as Hclose. lra.
Qed.
End RuleManagerScenarioFacts.

(** ** ParticlePool *)

(** C9, the failing input: on an initialised pool with room, returning a
    particle the pool never handed out makes the active count [-1]. *)
Theorem returnParticle_stray_goes_negative :
  ParticlePool.currentActive (ParticlePool.stats smallPool) = 0%Z /\
  ParticlePool.currentActive
    (ParticlePool.stats
       (ParticlePool.run ["red"%string] smallPool
          [ParticlePool.ReturnParticle strayParticle])) = (-1)%Z.
Proof. split; reflexivity. Qed.

(** The same happens when one acquired particle is returned twice. *)
Lemma returnParticle_twice_goes_negative :
  let acquired :=
    ParticlePool.getParticle smallPool 5 5 "red" Options.defaultOptions in
  ParticlePool.currentActive
    (ParticlePool.stats
       (ParticlePool.run ["red"%string] (snd acquired)
          [ParticlePool.ReturnParticle (fst acquired);
           ParticlePool.ReturnParticle (fst acquired)])) = (-1)%Z.
Proof. reflexivity. Qed.

(** What [returnParticle] does in general: on an initialised pool with room
    it lowers the active count by one, whatever that count is. *)
Lemma returnParticle_decrements types (p : ParticlePool.t) particle :
  ParticlePool.initialized p = true ->
  (Z.of_nat (length (ParticlePool.pool p)) < ParticlePool.maxPoolSize p)%Z ->
  ParticlePool.currentActive
    (ParticlePool.stats (ParticlePool.returnParticle types p particle)) =
  (ParticlePool.currentActive (ParticlePool.stats p) - 1)%Z.
Proof.
  intros Hinit Hroom. unfold ParticlePool.returnParticle.
  rewrite Hinit. simpl.
  assert (E : (ParticlePool.maxPoolSize p <=?
               Z.of_nat (length (ParticlePool.pool p)))%Z = false)
    by (apply Z.leb_gt; lia).
  by rewrite E.
Qed.

(** ** PhysicsEngine: the removal list *)

Lemma forEachR_invariant {S A} (P : S -> Prop) (body : S -> A -> JsResult S)
    (l : list A) :
  (forall s a s', a ∈ l -> P s -> body s a = Ok s' -> P s') ->
  forall s s', P s -> forEachR body l s = Ok s' -> P s'.
Proof.
  induction l as [| a l IH]; intros Hbody s s' Hs; simpl.
  - by intros [= <-].
  - destruct (body s a) as [s1 |] eqn:E; simpl; [| done].
    apply IH.
    + intros s0 a0 s0' Ha0. apply Hbody. by right.
    + eapply Hbody; [by left | exact Hs | exact E].
Qed.

Section RemovalFacts.
Variable random : nat -> R.

Local Abbreviation cool :=
  (fun p => Particle.with_cooldown p CONFIG.COLLISION_COOLDOWN_FRAMES).

(** The spawn loops touch nothing but [particlesToAdd] and the count of
    random draws. *)
Lemma spawnOne_frame p1 p2 creation e :
  let e' := PhysicsEngine.spawnOne random p1 p2 creation e in
  PhysicsEngine.particles e' = PhysicsEngine.particles e /\
  PhysicsEngine.particlesToRemove e' = PhysicsEngine.particlesToRemove e /\
  PhysicsEngine.rules e' = PhysicsEngine.rules e /\
  PhysicsEngine.options e' = PhysicsEngine.options e /\
  PhysicsEngine.collisionsThisFrame e' = PhysicsEngine.collisionsThisFrame e.
Proof. done. Qed.

Lemma spawnCreation_frame p1 p2 creation e :
  let e' := PhysicsEngine.spawnCreation random p1 p2 e creation in
  PhysicsEngine.particles e' = PhysicsEngine.particles e /\
  PhysicsEngine.particlesToRemove e' = PhysicsEngine.particlesToRemove e /\
  PhysicsEngine.rules e' = PhysicsEngine.rules e /\
  PhysicsEngine.options e' = PhysicsEngine.options e /\
  PhysicsEngine.collisionsThisFrame e' = PhysicsEngine.collisionsThisFrame e.
Proof.
  unfold PhysicsEngine.spawnCreation.
  induction (Z.to_nat (count creation)) as [| n IH]; simpl; [done |].
  destruct IH as (-> & -> & -> & -> & ->). done.
Qed.

Lemma spawnAll_frame p1 p2 creations : forall e,
  let e' := foldl (PhysicsEngine.spawnCreation random p1 p2) e creations in
  PhysicsEngine.particles e' = PhysicsEngine.particles e /\
  PhysicsEngine.particlesToRemove e' = PhysicsEngine.particlesToRemove e /\
  PhysicsEngine.rules e' = PhysicsEngine.rules e /\
  PhysicsEngine.options e' = PhysicsEngine.options e /\
  PhysicsEngine.collisionsThisFrame e' = PhysicsEngine.collisionsThisFrame e.
Proof.
  induction creations as [| c cs IH]; intros e; simpl; [done |].
  destruct (IH (PhysicsEngine.spawnCreation random p1 p2 e c))
    as (-> & -> & -> & -> & ->).
  apply spawnCreation_frame.
Qed.

(** Setting a cooldown keeps the particles that are cooling so. *)
Lemma cooling_alter ps i k :
  cooling ps k -> cooling (alter cool i ps) k.
Proof.
  intros (p & Hp & Hc). unfold cooling.
  destruct (decide (i = k)) as [-> | Hne].
  - rewrite list_lookup_alter_eq, Hp. simpl. eauto.
  - rewrite list_lookup_alter_ne by done. eauto.
Qed.

Lemma cooling_alter_eq ps i :
  is_Some (ps !! i) -> cooling (alter cool i ps) i.
Proof.
  intros [p Hp]. unfold cooling.
  rewrite list_lookup_alter_eq, Hp. simpl. eauto.
Qed.

(** Changing the force of a particle does not change who is cooling. *)
Lemma cooling_insert_force ps i p f k :
  ps !! i = Some p ->
  cooling ps k -> cooling (<[i := Particle.applyForce p f]> ps) k.
Proof.
  intros Hi (q & Hq & Hc). unfold cooling.
  destruct (decide (i = k)) as [-> | Hne].
  - rewrite list_lookup_insert_eq by by eapply lookup_lt_Some.
    exists (Particle.applyForce p f). split; [done |].
    simpl. congruence.
  - rewrite list_lookup_insert_ne by done. eauto.
Qed.

(** A particle whose cooldown is not positive is not cooling. *)
Lemma not_cooling ps k p :
  ps !! k = Some p ->
  (0 <? Particle.collisionCooldown p)%Z = false ->
  ~ cooling ps k.
Proof.
  intros Hp Hc (q & Hq & Hq'). rewrite Hp in Hq. injection Hq as <-.
  apply Z.ltb_ge in Hc. unfold CONFIG.COLLISION_COOLDOWN_FRAMES in Hq'. lia.
Qed.

(** [processCollision] on two distinct particles that are not cooling puts
    both in cooldown before it lists them. *)
Lemma processCollision_removals e i j :
  i <> j ->
  ~ cooling (PhysicsEngine.particles e) i ->
  ~ cooling (PhysicsEngine.particles e) j ->
  removalsCooling e ->
  removalsCooling (PhysicsEngine.processCollision random e i j).
Proof.
  intros Hij Hi Hj [Hnd Hall]. unfold PhysicsEngine.processCollision.
  destruct (PhysicsEngine.particles e !! i) as [p1 |] eqn:E1; [| done].
  destruct (PhysicsEngine.particles e !! j) as [p2 |] eqn:E2; [| done].
  destruct (PhysicsEngine.rules e !! Particle.type p1 ≫= _) as [rule |];
    [| done].
  cbv zeta.
  set (ps' := alter cool j (alter cool i (PhysicsEngine.particles e))).
  match goal with
  | |- removalsCooling
         (PhysicsEngine.mk _ _ _ _ _ _ _) => idtac
  end.
  match goal with
  | |- context [foldl ?f ?e2 ?cs] =>
    destruct (spawnAll_frame p1 p2 cs e2) as (Hps & Hrm & _)
  end.
  unfold removalsCooling. cbn [PhysicsEngine.particles PhysicsEngine.particlesToRemove].
  rewrite Hps, Hrm.
  assert (Hall' : Forall (cooling ps') (PhysicsEngine.particlesToRemove e)).
  { eapply Forall_impl; [exact Hall |]. intros k Hk.
    by do 2 apply cooling_alter. }
  assert (Hci : cooling ps' i).
  { apply cooling_alter, cooling_alter_eq. eauto. }
  assert (Hcj : cooling ps' j).
  { apply cooling_alter_eq. rewrite list_lookup_alter_ne by done. eauto. }
  assert (Hni : i ∉ PhysicsEngine.particlesToRemove e).
  { intros Hin. apply Hi. by eapply Forall_forall in Hall. }
  assert (Hnj : j ∉ PhysicsEngine.particlesToRemove e).
  { intros Hin. apply Hj. by eapply Forall_forall in Hall. }
  destruct (destroyOriginals rule);
    cbn [PhysicsEngine.particles PhysicsEngine.particlesToRemove
         PhysicsEngine.with_particles].
  - split.
    + apply NoDup_app. split; [done |]. split.
      * intros k Hk Hk'. apply list_elem_of_In in Hk'.
        destruct Hk' as [<- | [<- | []]]; done.
      * apply NoDup_cons. split; [| apply NoDup_singleton].
        intros Hin. apply list_elem_of_In in Hin.
        destruct Hin as [<- | []]. done.
    + apply Forall_app. split; [done |]. by repeat constructor.
  - done.
Qed.

Lemma checkCollision_removals e i j :
  i <> j ->
  removalsCooling e ->
  removalsCooling (PhysicsEngine.checkCollision random e i j).
Proof.
  intros Hij Hinv. unfold PhysicsEngine.checkCollision.
  destruct (PhysicsEngine.particles e !! i) as [p1 |] eqn:E1; [| done].
  destruct (PhysicsEngine.particles e !! j) as [p2 |] eqn:E2; [| done].
  destruct (0 <? Particle.collisionCooldown p1)%Z eqn:C1; [done |].
  destruct (0 <? Particle.collisionCooldown p2)%Z eqn:C2; [done |].
  cbn [orb].
  destruct (Options.collisionDistanceRatio _) as [ratio |]; [| done].
  cbv zeta. destruct (Rltb _ _); [| done].
  apply processCollision_removals; [done | | | done].
  - by eapply not_cooling.
  - by eapply not_cooling.
Qed.

Lemma calculateParticleInteraction_removals e i j e' :
  i <> j ->
  removalsCooling e ->
  PhysicsEngine.calculateParticleInteraction random e i j = Ok e' ->
  removalsCooling e'.
Proof.
  intros Hij [Hnd Hall]. unfold PhysicsEngine.calculateParticleInteraction.
  destruct (PhysicsEngine.particles e !! i) as [p1 |] eqn:E1;
    [| by intros [= <-]].
  destruct (PhysicsEngine.particles e !! j) as [p2 |] eqn:E2;
    [| by intros [= <-]].
  destruct (Particle.calculateForce _ _ _ _) as [force |]; simpl; [| done].
  intros [= <-].
  set (e1 := PhysicsEngine.with_particles e _).
  assert (H1 : removalsCooling e1).
  { split; [done |]. simpl.
    eapply Forall_impl; [exact Hall |]. intros k Hk.
    by apply cooling_insert_force. }
  destruct (_ <? _)%Z; [| done].
  by apply checkCollision_removals.
Qed.
End RemovalFacts.

Section UpdateRemovals.
Variable random : nat -> R.

Lemma indexPairs_lt n i j : (i, j) ∈ PhysicsEngine.indexPairs n -> i < j.
Proof.
  unfold PhysicsEngine.indexPairs. rewrite list_elem_of_In, in_flat_map.
  intros (k & _ & Hk). apply in_map_iff in Hk as (l & [= <- <-] & Hl).
  apply in_seq in Hl. lia.
Qed.

Lemma calculateForcesBruteForce_removals e e' :
  removalsCooling e ->
  PhysicsEngine.calculateForcesBruteForce random e = Ok e' ->
  removalsCooling e'.
Proof.
  unfold PhysicsEngine.calculateForcesBruteForce.
  apply forEachR_invariant.
  intros s [i j] s' Hin Hs.
  apply indexPairs_lt in Hin.
  destruct (PhysicsEngine.calculateParticleInteraction random s i j)
    as [s1 |] eqn:E1; simpl; [| done].
  intros E2.
  eapply calculateParticleInteraction_removals in E1; [| lia | done].
  eapply calculateParticleInteraction_removals in E2; [done | lia | done].
Qed.

Lemma calculateForcesWithQuadtree_removals fuel canvasWidth canvasHeight e e' :
  removalsCooling e ->
  PhysicsEngine.calculateForcesWithQuadtree random fuel canvasWidth
    canvasHeight e = Some (Ok e') ->
  removalsCooling e'.
Proof.
  unfold PhysicsEngine.calculateForcesWithQuadtree. cbv zeta.
  destruct (Nat.eqb _ 0); [by intros ? [= <-] |].
  destruct (Quadtree.insertAll _ _ _ _ _) as [quadtree |]; [| done].
  intros Hinv [= Hloop]. revert e' Hinv Hloop.
  apply forEachR_invariant.
  intros s i s' _.
  apply forEachR_invariant.
  intros s0 other s0' _ Hs0.
  destruct (Nat.eqb i other) eqn:E; [by intros [= <-] |].
  apply Nat.eqb_neq in E.
  by apply calculateParticleInteraction_removals.
Qed.

(** [update] changes the cooldown of a particle by its decrement only. *)
Lemma update_cooldown p :
  Particle.collisionCooldown (Particle.update p) =
  if (0 <? Particle.collisionCooldown p)%Z
  then (Particle.collisionCooldown p - 1)%Z
  else Particle.collisionCooldown p.
Proof.
  unfold Particle.update. cbv zeta.
  assert (Hclamp : forall q,
    Particle.collisionCooldown (Particle.clampAcceleration q) =
    Particle.collisionCooldown q).
  { intros q. unfold Particle.clampAcceleration. cbv zeta.
    by destruct (Rltb _ _). }
  assert (Hclampv : forall q,
    Particle.collisionCooldown (Particle.clampVelocity q) =
    Particle.collisionCooldown q).
  { intros q. unfold Particle.clampVelocity. cbv zeta.
    by destruct (Rltb _ _). }
  cbn [Particle.collisionCooldown Particle.with_position
       Particle.with_velocity].
  destruct (Options.enableVelocityClamp _);
    rewrite ?Hclampv; cbn [Particle.collisionCooldown Particle.with_velocity];
    destruct (Options.enableAccelerationClamp _);
    rewrite ?Hclamp; by destruct (0 <? _)%Z.
Qed.

(** [update] returns or throws, and does not run on for ever, when the
    root of the quadtree has room for a particle and the fuel covers one
    nested call per particle. *)
Lemma update_returns fuel canvasWidth canvasHeight e :
  (1 <= default 4 (Options.quadtreeCapacity (PhysicsEngine.options e)))%Z ->
  length (PhysicsEngine.particles e) < fuel ->
  is_Some (PhysicsEngine.update random fuel canvasWidth canvasHeight e).
Proof.
  intros Hcap Hfuel. unfold PhysicsEngine.update. cbv zeta.
  set (e2 := PhysicsEngine.with_particles _ _).
  destruct (Options.useQuadtree (PhysicsEngine.options e2) && _); [| by eexists].
  unfold PhysicsEngine.calculateForcesWithQuadtree. cbv zeta.
  destruct (Nat.eqb _ 0); [by eexists |].
  match goal with
  | |- context [Quadtree.insertAll ?px ?py fuel ?q ?ps] =>
    destruct (insertAll_total px py fuel ps q) as (q' & -> & _)
  end.
  - apply wf_new.
  - exact Hcap.
  - subst e2. simpl. rewrite length_seq, length_map. lia.
  - by eexists.
Qed.

(** C10: in the result of one [update], no particle is listed twice in
    [particlesToRemove], and every listed particle is still in collision
    cooldown: [processCollision] sets the cooldown of both particles before
    it lists them, and [checkCollision] skips a pair with a particle in
    cooldown.  (The particles of the array are distinct objects, named by
    their positions.) *)
Theorem update_removals_distinct fuel canvasWidth canvasHeight e e' :
  PhysicsEngine.update random fuel canvasWidth canvasHeight e = Some (Ok e') ->
  NoDup (PhysicsEngine.particlesToRemove e') /\
  Forall (fun k => exists p,
            PhysicsEngine.particles e' !! k = Some p /\
            (0 < Particle.collisionCooldown p)%Z)
         (PhysicsEngine.particlesToRemove e').
Proof.
  unfold PhysicsEngine.update. cbv zeta.
  set (e2 := PhysicsEngine.with_particles _ _).
  assert (H2 : removalsCooling e2) by (split; constructor).
  intros Hupd.
  assert (exists e3,
    removalsCooling e3 /\
    e' = PhysicsEngine.with_particles
           (PhysicsEngine.applyEdgeRepulsion canvasWidth canvasHeight e3)
           (map Particle.update
              (PhysicsEngine.particles
                 (PhysicsEngine.applyEdgeRepulsion canvasWidth canvasHeight e3))))
    as (e3 & [Hnd Hall] & ->).
  { destruct (Options.useQuadtree (PhysicsEngine.options e2) && _).
    - destruct (PhysicsEngine.calculateForcesWithQuadtree _ _ _ _ _)
        as [[e3 |] |] eqn:E; simpl in Hupd; [| done | done].
      injection Hupd as <-. exists e3. split; [| done].
      by eapply calculateForcesWithQuadtree_removals.
    - destruct (PhysicsEngine.calculateForcesBruteForce _ _) as [e3 |] eqn:E;
        simpl in Hupd; [| done].
      injection Hupd as <-. exists e3. split; [| done].
      by eapply calculateForcesBruteForce_removals. }
  split; [done |]. simpl.
  eapply Forall_impl; [exact Hall |].
  intros k (p & Hp & Hc).
  rewrite list_lookup_fmap, list_lookup_fmap, Hp. simpl.
  eexists. split; [done |].
  rewrite update_cooldown. simpl. rewrite Hc. done.
Qed.
End UpdateRemovals.

(** ** PhysicsEngine: one colliding pair *)

Section PairFacts.
Variable random : nat -> R.
Local Open Scope R_scope.

Local Abbreviation cool :=
  (fun p => Particle.with_cooldown p CONFIG.COLLISION_COOLDOWN_FRAMES).

Lemma calculateForce_ok self other (rules : RuleTable) options :
  is_Some (rules !! Particle.type self) ->
  exists f, Particle.calculateForce self other rules options = Ok f.
Proof.
  intros [row Hrow]. unfold Particle.calculateForce. cbv zeta.
  rewrite Hrow. destruct (_ || _); eauto.
Qed.

Lemma spawnOne_sim pre q1 q2 p1 p2 c e ea :
  sameBody q1 p1 -> sameBody q2 p2 -> spawnSim pre e ea ->
  spawnSim pre (PhysicsEngine.spawnOne random q1 q2 c e)
               (PhysicsEngine.spawnOne random p1 p2 c ea).
Proof.
  intros (X1 & Y1 & VX1 & VY1) (X2 & Y2 & VX2 & VY2) (Ho & Hr & Ha).
  unfold spawnSim, PhysicsEngine.spawnOne. simpl.
  rewrite Ho, Hr, Ha, X1, Y1, VX1, VY1, X2, Y2, VX2, VY2.
  by rewrite <- app_assoc.
Qed.

Lemma spawnCreation_sim pre q1 q2 p1 p2 c e ea :
  sameBody q1 p1 -> sameBody q2 p2 -> spawnSim pre e ea ->
  spawnSim pre (PhysicsEngine.spawnCreation random q1 q2 e c)
               (PhysicsEngine.spawnCreation random p1 p2 ea c).
Proof.
  intros H1 H2 Hsim. unfold PhysicsEngine.spawnCreation.
  induction (Z.to_nat (count c)) as [| n IH]; simpl; [done |].
  by apply spawnOne_sim.
Qed.

Lemma spawnAll_sim pre q1 q2 p1 p2 cs : forall e ea,
  sameBody q1 p1 -> sameBody q2 p2 -> spawnSim pre e ea ->
  spawnSim pre (foldl (PhysicsEngine.spawnCreation random q1 q2) e cs)
               (foldl (PhysicsEngine.spawnCreation random p1 p2) ea cs).
Proof.
  induction cs as [| c cs IH]; intros e ea H1 H2 Hsim; simpl; [done |].
  apply IH; [done | done |]. by apply spawnCreation_sim.
Qed.

Lemma spawnAll_requests q1 q2 p1 p2 cs e :
  sameBody q1 p1 -> sameBody q2 p2 ->
  PhysicsEngine.particlesToAdd
    (foldl (PhysicsEngine.spawnCreation random q1 q2) e cs) =
  PhysicsEngine.particlesToAdd e ++
  spawnRequests random (PhysicsEngine.options e) (PhysicsEngine.randomCalls e)
    p1 p2 cs.
Proof.
  intros H1 H2. unfold spawnRequests.
  eapply (spawnAll_sim (PhysicsEngine.particlesToAdd e)); [done | done |].
  split; [done |]. split; [done |]. simpl. by rewrite app_nil_r.
Qed.

(** The first visit of a pair in collision range, with no cooldown and a
    rule object for its direction: the collision is processed. *)
Lemma interaction_collides e i j p1 p2 ratio rule :
  i <> j ->
  PhysicsEngine.particles e !! i = Some p1 ->
  PhysicsEngine.particles e !! j = Some p2 ->
  (PhysicsEngine.collisionsThisFrame e < CONFIG.MAX_COLLISIONS_PER_FRAME)%Z ->
  (Particle.collisionCooldown p1 <= 0)%Z ->
  (Particle.collisionCooldown p2 <= 0)%Z ->
  Options.collisionDistanceRatio (PhysicsEngine.options e) = Some ratio ->
  engineDistance p1 p2 < engineCollisionDistance p1 p2 ratio ->
  PhysicsEngine.rules e !! Particle.type p1 ≫= (.!! Particle.type p2) =
    Some rule ->
  exists f e',
    PhysicsEngine.calculateParticleInteraction random e i j = Ok e' /\
    PhysicsEngine.particles e' =
      alter cool j (alter cool i
        (<[i := Particle.applyForce p1 f]> (PhysicsEngine.particles e))) /\
    PhysicsEngine.particlesToRemove e' =
      PhysicsEngine.particlesToRemove e ++
      (if destroyOriginals rule then [i; j] else []) /\
    PhysicsEngine.particlesToAdd e' =
      PhysicsEngine.particlesToAdd e ++
      spawnRequests random (PhysicsEngine.options e)
        (PhysicsEngine.randomCalls e) p1 p2 (createParticles rule) /\
    PhysicsEngine.rules e' = PhysicsEngine.rules e /\
    PhysicsEngine.options e' = PhysicsEngine.options e /\
    PhysicsEngine.collisionsThisFrame e' =
      (PhysicsEngine.collisionsThisFrame e + 1)%Z.
Proof.
  intros Hij E1 E2 Hbudget C1 C2 Hratio Hrange Hrule.
  destruct (calculateForce_ok p1 p2 (PhysicsEngine.rules e)
              (PhysicsEngine.options e)) as [f Hf].
  { destruct (PhysicsEngine.rules e !! Particle.type p1); [eauto | done]. }
  exists f.
  unfold PhysicsEngine.calculateParticleInteraction.
  rewrite E1, E2, Hf. simpl.
  assert (Eb : (PhysicsEngine.collisionsThisFrame e <?
                CONFIG.MAX_COLLISIONS_PER_FRAME)%Z = true)
    by by apply Z.ltb_lt.
  rewrite Eb.
  unfold PhysicsEngine.checkCollision. simpl.
  rewrite list_lookup_insert_eq by by eapply lookup_lt_Some.
  rewrite list_lookup_insert_ne, E2 by done.
  simpl.
  assert (Ec1 : (0 <? Particle.collisionCooldown p1)%Z = false)
    by by apply Z.ltb_ge.
  assert (Ec2 : (0 <? Particle.collisionCooldown p2)%Z = false)
    by by apply Z.ltb_ge.
  rewrite Ec1, Ec2, Hratio. simpl.
  assert (Er : Rltb (engineDistance p1 p2) (engineCollisionDistance p1 p2 ratio)
               = true) by by apply Rltb_true.
  unfold engineDistance, engineCollisionDistance in Er. rewrite Er.
  unfold PhysicsEngine.processCollision. simpl.
  rewrite list_lookup_insert_eq by by eapply lookup_lt_Some.
  rewrite list_lookup_insert_ne, E2 by done.
  simpl. rewrite Hrule.
  eexists. split; [reflexivity |].
  assert (Hb1 : sameBody (Particle.applyForce p1 f) p1) by by repeat split.
  assert (Hb2 : sameBody p2 p2) by by repeat split.
  destruct (destroyOriginals rule);
    match goal with
    | |- context [foldl (PhysicsEngine.spawnCreation random ?q1 ?q2) ?e2 ?cs] =>
      destruct (spawnAll_frame random q1 q2 cs e2)
        as (Hps & Hrm & Hru & Hop & Hco);
      pose proof (spawnAll_requests q1 q2 p1 p2 cs e2 Hb1 Hb2) as Hadd
    end;
    simpl; rewrite Hps, Hrm, Hru, Hop, Hco, Hadd; simpl;
    by rewrite ?app_nil_r.
Qed.

(** A visit of a pair with a particle in cooldown adds the force and
    nothing else. *)
Lemma interaction_in_cooldown e i j p1 p2 :
  PhysicsEngine.particles e !! i = Some p1 ->
  PhysicsEngine.particles e !! j = Some p2 ->
  i <> j ->
  (0 < Particle.collisionCooldown p1)%Z \/
  (0 < Particle.collisionCooldown p2)%Z ->
  is_Some (PhysicsEngine.rules e !! Particle.type p1) ->
  exists f,
    PhysicsEngine.calculateParticleInteraction random e i j =
    Ok (PhysicsEngine.with_particles e
          (<[i := Particle.applyForce p1 f]> (PhysicsEngine.particles e))).
Proof.
  intros E1 E2 Hij Hcool Hrow.
  destruct (calculateForce_ok p1 p2 (PhysicsEngine.rules e)
              (PhysicsEngine.options e) Hrow) as [f Hf].
  exists f.
  unfold PhysicsEngine.calculateParticleInteraction.
  rewrite E1, E2, Hf. simpl.
  destruct (_ <? _)%Z; [| done].
  unfold PhysicsEngine.checkCollision. simpl.
  rewrite list_lookup_insert_eq by by eapply lookup_lt_Some.
  rewrite list_lookup_insert_ne, E2 by done.
  simpl.
  assert (Ec : (0 <? Particle.collisionCooldown p1)%Z ||
               (0 <? Particle.collisionCooldown p2)%Z = true).
  { apply orb_true_iff. destruct Hcool; [left | right]; by apply Z.ltb_lt. }
  by rewrite Ec.
Qed.
Lemma spawnRequests_sameBody options n q1 q2 p1 p2 cs :
  sameBody q1 p1 -> sameBody q2 p2 ->
  spawnRequests random options n q1 q2 cs =
  spawnRequests random options n p1 p2 cs.
Proof.
  intros H1 H2. unfold spawnRequests at 1.
  by rewrite (spawnAll_requests q1 q2 p1 p2).
Qed.

(** Both directions of a colliding pair, the first one visited first: the
    first visit processes the collision under the rule of its direction,
    and the second visit finds both particles in cooldown. *)
Lemma pair_both_directions e r1 r2 ratio rule :
  PhysicsEngine.particles e = [r1; r2] ->
  (PhysicsEngine.collisionsThisFrame e < CONFIG.MAX_COLLISIONS_PER_FRAME)%Z ->
  (Particle.collisionCooldown r1 <= 0)%Z ->
  (Particle.collisionCooldown r2 <= 0)%Z ->
  Options.collisionDistanceRatio (PhysicsEngine.options e) = Some ratio ->
  engineDistance r1 r2 < engineCollisionDistance r1 r2 ratio ->
  PhysicsEngine.rules e !! Particle.type r1 ≫= (.!! Particle.type r2) =
    Some rule ->
  is_Some (PhysicsEngine.rules e !! Particle.type r2) ->
  exists ea eb a1 a2 b1 b2,
    PhysicsEngine.calculateParticleInteraction random e 0 1 = Ok ea /\
    PhysicsEngine.calculateParticleInteraction random ea 1 0 = Ok eb /\
    PhysicsEngine.particles ea = [a1; a2] /\
    sameBody a1 r1 /\ sameBody a2 r2 /\
    PhysicsEngine.options ea = PhysicsEngine.options e /\
    PhysicsEngine.particles eb = [b1; b2] /\
    PhysicsEngine.options eb = PhysicsEngine.options e /\
    PhysicsEngine.particlesToAdd eb =
      PhysicsEngine.particlesToAdd e ++
      spawnRequests random (PhysicsEngine.options e)
        (PhysicsEngine.randomCalls e) r1 r2 (createParticles rule) /\
    PhysicsEngine.particlesToRemove eb =
      PhysicsEngine.particlesToRemove e ++
      (if destroyOriginals rule then [0; 1]%nat else []) /\
    PhysicsEngine.collisionsThisFrame eb =
      (PhysicsEngine.collisionsThisFrame e + 1)%Z.
Proof.
  intros Hps Hbudget C1 C2 Hratio Hrange Hrule Hrow2.
  destruct (interaction_collides e 0 1 r1 r2 ratio rule)
    as (f & ea & Ea & Pa & Ra & Aa & Rua & Oa & Ca);
    [done | by rewrite Hps | by rewrite Hps | done..|].
  rewrite Hps in Pa. simpl in Pa.
  destruct (interaction_in_cooldown ea 1 0 (cool r2)
              (cool (Particle.applyForce r1 f))) as [f2 Eb];
    [by rewrite Pa | by rewrite Pa | done | | |].
  { left. simpl. unfold CONFIG.COLLISION_COOLDOWN_FRAMES. lia. }
  { by rewrite Rua. }
  eexists ea, _, _, _, _, _.
  split; [exact Ea |]. split; [exact Eb |].
  split; [exact Pa |].
  split; [by repeat split |]. split; [by repeat split |].
  split; [done |].
  rewrite Pa. simpl.
  split; [reflexivity |]. split; [done |]. split; [done |]. split; done.
Qed.
(** The neighbours of either particle of a pair in reach: both. *)
Lemma query_pair q1 q2 b c maxDistance i :
  Rectangle.contains b (Particle.x q1) (Particle.y q1) = true ->
  Rectangle.contains b (Particle.x q2) (Particle.y q2) = true ->
  (Particle.x q1 - Particle.x q2) * (Particle.x q1 - Particle.x q2) +
  (Particle.y q1 - Particle.y q2) * (Particle.y q1 - Particle.y q2)
    <= maxDistance * maxDistance ->
  (i = 0 \/ i = 1)%nat ->
  Quadtree.queryCircle (PhysicsEngine.refX [q1; q2]) (PhysicsEngine.refY [q1; q2])
    (Quadtree.Leaf b c [0; 1]%nat)
    (PhysicsEngine.refX [q1; q2] i) (PhysicsEngine.refY [q1; q2] i)
    maxDistance [] = [0; 1]%nat.
Proof.
  intros H1 H2 Hd Hi.
  set (px := PhysicsEngine.refX [q1; q2]).
  set (py := PhysicsEngine.refY [q1; q2]).
  assert (Hsq : 0 <= maxDistance * maxDistance).
  { pose proof (Rle_0_sqr maxDistance) as H. by unfold Rsqr in H. }
  assert (Hin : forall k, (k = 0 \/ k = 1)%nat ->
            Quadtree.inCircle px py (px i) (py i) maxDistance k = true).
  { intros k Hk. unfold Quadtree.inCircle. cbv zeta. apply Rleb_true.
    subst px py.
    destruct Hi as [-> | ->], Hk as [-> | ->];
      unfold PhysicsEngine.refX, PhysicsEngine.refY; simpl; lra. }
  cbn [Quadtree.queryCircle Quadtree.boundary Quadtree.particles].
  destruct (Quadtree.outOfReach b (px i) (py i) maxDistance) eqn:Hout.
  - exfalso.
    assert (Hc : Rectangle.contains b (px i) (py i) = true)
      by by destruct Hi as [-> | ->].
    pose proof (outOfReach_sound px py b (px i) (py i) maxDistance i Hc Hout)
      as Hno.
    rewrite Hin in Hno; done.
  - cbn [List.filter app]. rewrite !Hin by auto. done.
Qed.

(** The force pass of [update] on a colliding pair that it visits in both
    directions. *)
Lemma force_pass_pair fuel canvasWidth canvasHeight e r1 r2 ratio rule :
  PhysicsEngine.particles e = [r1; r2] ->
  (PhysicsEngine.collisionsThisFrame e < CONFIG.MAX_COLLISIONS_PER_FRAME)%Z ->
  (Particle.collisionCooldown r1 <= 0)%Z ->
  (Particle.collisionCooldown r2 <= 0)%Z ->
  Options.collisionDistanceRatio (PhysicsEngine.options e) = Some ratio ->
  engineDistance r1 r2 < engineCollisionDistance r1 r2 ratio ->
  PhysicsEngine.rules e !! Particle.type r1 ≫= (.!! Particle.type r2) =
    Some rule ->
  is_Some (PhysicsEngine.rules e !! Particle.type r2) ->
  pairVisited fuel canvasWidth canvasHeight (PhysicsEngine.options e) r1 r2 ->
  exists eb,
    (if Options.useQuadtree (PhysicsEngine.options e) &&
        negb (Nat.eqb (length (PhysicsEngine.particles e)) 0)
     then PhysicsEngine.calculateForcesWithQuadtree random fuel canvasWidth
            canvasHeight e
     else Some (PhysicsEngine.calculateForcesBruteForce random e)) =
      Some (Ok eb) /\
    PhysicsEngine.particlesToAdd eb =
      PhysicsEngine.particlesToAdd e ++
      spawnRequests random (PhysicsEngine.options e)
        (PhysicsEngine.randomCalls e) r1 r2 (createParticles rule) /\
    PhysicsEngine.particlesToRemove eb =
      PhysicsEngine.particlesToRemove e ++
      (if destroyOriginals rule then [0; 1]%nat else []) /\
    PhysicsEngine.collisionsThisFrame eb =
      (PhysicsEngine.collisionsThisFrame e + 1)%Z.
Proof.
  intros Hps Hbudget C1 C2 Hratio Hrange Hrule Hrow2 Hmode.
  destruct (pair_both_directions e r1 r2 ratio rule)
    as (ea & eb & a1 & a2 & b1 & b2 & Ea & Eb & Pa & (X1 & Y1 & _)
        & (X2 & Y2 & _) & Oa & Pb & Ob & Hadd & Hrm & Hco); [done..|].
  exists eb. split; [| done].
  assert (Hbrute :
    PhysicsEngine.calculateForcesBruteForce random e = Ok eb).
  { unfold PhysicsEngine.calculateForcesBruteForce. rewrite Hps.
    change (PhysicsEngine.indexPairs (length [r1; r2])) with [(0, 1)%nat].
    simpl. rewrite Ea. simpl. rewrite Eb. done. }
  destruct Hmode as [Hoff | (Hfuel & Hcap & In1 & In2 & maxD & HmaxD & Hd)].
  { rewrite Hoff. simpl. by rewrite Hbrute. }
  destruct (Options.useQuadtree (PhysicsEngine.options e));
    [| simpl; by rewrite Hbrute].
  rewrite Hps. simpl negb. cbn [andb].
  unfold PhysicsEngine.calculateForcesWithQuadtree. cbv zeta.
  rewrite Hps. change (Nat.eqb (length [r1; r2]) 0) with false. cbv iota.
  change (seq 0 (length [r1; r2])) with [0; 1]%nat.
  destruct fuel as [| n]; [lia |].
  assert (Hbuild :
    Quadtree.insertAll (PhysicsEngine.refX [r1; r2]) (PhysicsEngine.refY [r1; r2])
      (S n)
      (Quadtree.new (Rectangle.mk 0 0 canvasWidth canvasHeight)
         (Options.quadtreeCapacity (PhysicsEngine.options e)))
      [0; 1]%nat =
    Some (Quadtree.Leaf (Rectangle.mk 0 0 canvasWidth canvasHeight)
            (default 4%Z (Options.quadtreeCapacity (PhysicsEngine.options e)))
            [0; 1]%nat)).
  { unfold Quadtree.new.
    set (c := default 4%Z _) in *.
    cbn [Quadtree.insertAll Quadtree.insert Quadtree.boundary
         Quadtree.particles Quadtree.capacity].
    change (PhysicsEngine.refX [r1; r2] 0) with (Particle.x r1).
    change (PhysicsEngine.refY [r1; r2] 0) with (Particle.y r1).
    rewrite In1. cbn [negb].
    assert (E0 : (Z.of_nat (length (@nil nat)) <? c)%Z = true)
      by (apply Z.ltb_lt; simpl; lia).
    rewrite E0. cbn [Quadtree.push Quadtree.boundary Quadtree.particles
                      Quadtree.capacity app].
    change (PhysicsEngine.refX [r1; r2] 1) with (Particle.x r2).
    change (PhysicsEngine.refY [r1; r2] 1) with (Particle.y r2).
    rewrite In2. cbn [negb].
    assert (E1 : (Z.of_nat (length [0%nat]) <? c)%Z = true)
      by (apply Z.ltb_lt; simpl; lia).
    rewrite E1. done. }
  rewrite Hbuild. f_equal.
  cbn [forEachR]. rewrite HmaxD, Hps.
  rewrite (query_pair r1 r2 _ _ maxD 0%nat) by auto.
  cbn [forEachR Nat.eqb mbind JsResult_bind]. rewrite Ea.
  cbn [forEachR Nat.eqb mbind JsResult_bind].
  rewrite Oa, HmaxD, Pa.
  rewrite (query_pair a1 a2 _ _ maxD 1%nat); [| | | | auto].
  - cbn [forEachR Nat.eqb mbind JsResult_bind]. rewrite Eb. done.
  - by rewrite X1, Y1.
  - by rewrite X2, Y2.
  - by rewrite X1, Y1, X2, Y2.
Qed.
(** One [update] on an engine that holds a colliding pair and visits it in
    both directions: the outcome is the one of the rule for the direction
    from the first particle of the array to the second. *)
Lemma update_pair fuel canvasWidth canvasHeight e p1 p2 ratio rule :
  PhysicsEngine.particles e = [p1; p2] ->
  (Particle.collisionCooldown p1 <= 0)%Z ->
  (Particle.collisionCooldown p2 <= 0)%Z ->
  Options.collisionDistanceRatio (PhysicsEngine.options e) = Some ratio ->
  engineDistance p1 p2 < engineCollisionDistance p1 p2 ratio ->
  PhysicsEngine.rules e !! Particle.type p1 ≫= (.!! Particle.type p2) =
    Some rule ->
  is_Some (PhysicsEngine.rules e !! Particle.type p2) ->
  pairVisited fuel canvasWidth canvasHeight (PhysicsEngine.options e) p1 p2 ->
  exists e',
    PhysicsEngine.update random fuel canvasWidth canvasHeight e = Some (Ok e') /\
    PhysicsEngine.particlesToAdd e' =
      spawnRequests random (PhysicsEngine.options e)
        (PhysicsEngine.randomCalls e) p1 p2 (createParticles rule) /\
    PhysicsEngine.particlesToRemove e' =
      (if destroyOriginals rule then [0; 1]%nat else []) /\
    PhysicsEngine.collisionsThisFrame e' = 1%Z.
Proof.
  intros Hps C1 C2 Hratio Hrange Hrule Hrow2 Hmode.
  unfold PhysicsEngine.update. cbv zeta.
  set (e2 := PhysicsEngine.with_particles _ _).
  destruct (force_pass_pair fuel canvasWidth canvasHeight e2
              (Particle.resetForces p1) (Particle.resetForces p2) ratio rule)
    as (eb & Hpass & Hadd & Hrm & Hco).
  - subst e2. simpl. by rewrite Hps.
  - subst e2. simpl. unfold CONFIG.MAX_COLLISIONS_PER_FRAME. lia.
  - done.
  - done.
  - done.
  - exact Hrange.
  - exact Hrule.
  - exact Hrow2.
  - exact Hmode.
  - rewrite Hpass. eexists. split; [reflexivity |].
    simpl. rewrite Hadd, Hrm, Hco. subst e2. simpl.
    split; [| done].
    by apply spawnRequests_sameBody.
Qed.
End PairFacts.

(** ** PhysicsEngine: the spawn scenario *)

Section SpawnScenario.
Local Open Scope R_scope.

Lemma pair_in_collision_range p1 p2 :
  (p1 = particleA /\ p2 = particleB) \/ (p1 = particleB /\ p2 = particleA) ->
  engineDistance p1 p2 < engineCollisionDistance p1 p2 2.
Proof.
  assert (Hsize : orDefault (Some 2) 2 = 2) by (apply orDefault_Some; lra).
  intros [[-> ->] | [-> ->]];
    unfold engineDistance, engineCollisionDistance; simpl; rewrite Hsize.
  - replace ((100 - 101) * (100 - 101) + (100 - 100) * (100 - 100))
      with (1 * 1) by lra.
    rewrite sqrt_square; lra.
  - replace ((101 - 100) * (101 - 100) + (100 - 100) * (100 - 100))
      with (1 * 1) by lra.
    rewrite sqrt_square; lra.
Qed.

Lemma pair_visited options p1 p2 :
  options = Options.defaultOptions \/ options = bruteForceOptions ->
  (p1 = particleA /\ p2 = particleB) \/ (p1 = particleB /\ p2 = particleA) ->
  pairVisited 1 800 350 options p1 p2.
Proof.
  intros [-> | ->] Hp; [right | by left].
  split; [lia |]. split; [simpl; lia |].
  destruct Hp as [[-> ->] | [-> ->]];
    (split; [apply contains_spec; simpl; lra |]);
    (split; [apply contains_spec; simpl; lra |]);
    exists 80; (split; [done |]); simpl; lra.
Qed.

Lemma tableWith_AB rule :
  tableWith rule !! "A"%string ≫= (.!! "B"%string) = Some rule.
Proof.
  unfold tableWith. rewrite lookup_insert_eq. simpl. apply lookup_insert_eq.
Qed.

Lemma tableWith_BA rule :
  tableWith rule !! "B"%string ≫= (.!! "A"%string) = Some initialRule.
Proof.
  unfold tableWith.
  rewrite lookup_insert_ne, lookup_insert_eq by done. simpl.
  unfold initialRow. apply lookup_insert_eq.
Qed.

Lemma tableWith_rows rule t :
  t = "A"%string \/ t = "B"%string -> is_Some (tableWith rule !! t).
Proof.
  unfold tableWith. intros [-> | ->].
  - rewrite lookup_insert_eq. eauto.
  - rewrite lookup_insert_ne, lookup_insert_eq by done. eauto.
Qed.

Lemma update_BA random options :
  options = Options.defaultOptions \/ options = bruteForceOptions ->
  exists e',
    PhysicsEngine.update random 1 800 350
      (engineOf [particleB; particleA] spawnRule options) = Some (Ok e') /\
    PhysicsEngine.particlesToAdd e' = [] /\
    PhysicsEngine.particlesToRemove e' = [] /\
    PhysicsEngine.collisionsThisFrame e' = 1%Z.
Proof.
  intros Hopt.
  destruct (update_pair random 1 800 350
              (engineOf [particleB; particleA] spawnRule options)
              particleB particleA 2 initialRule)
    as (e' & Hupd & Hadd & Hrm & Hco).
  - done.
  - simpl. lia.
  - simpl. lia.
  - by destruct Hopt as [-> | ->].
  - apply pair_in_collision_range. auto.
  - apply tableWith_BA.
  - apply tableWith_rows. auto.
  - apply pair_visited; auto.
  - exists e'. split; [exact Hupd |]. split; [| split; done].
    rewrite Hadd. reflexivity.
Qed.

(** C5, the failing input: with the type-B particle first in the array and
    the initial (neutral) rule for (B, A), one [update] returns no spawn
    request at all.  The pair is first visited in the direction (B, A);
    [processCollision] takes the neutral rule object for a collision rule,
    puts both particles in cooldown, and the visit in the direction (A, B)
    is skipped.  This holds in the quadtree pass (the default) and in the
    brute-force pass, whatever [Math.random] returns. *)
Theorem update_neutral_direction_first (random : nat -> R) :
  (exists e',
     PhysicsEngine.update random 1 800 350
       (engineOf [particleB; particleA] spawnRule Options.defaultOptions) =
       Some (Ok e') /\
     PhysicsEngine.particlesToAdd e' = [] /\
     PhysicsEngine.collisionsThisFrame e' = 1%Z) /\
  (exists e',
     PhysicsEngine.update random 1 800 350
       (engineOf [particleB; particleA] spawnRule bruteForceOptions) =
       Some (Ok e') /\
     PhysicsEngine.particlesToAdd e' = [] /\
     PhysicsEngine.collisionsThisFrame e' = 1%Z).
Proof.
  split.
  - destruct (update_BA random Options.defaultOptions) as (e' & ? & ? & ? & ?);
      [auto |]. eauto.
  - destruct (update_BA random bruteForceOptions) as (e' & ? & ? & ? & ?);
      [auto |]. eauto.
Qed.

(** With the type-A particle first the scenario goes as the claim says:
    exactly two requests of type C, each within 5 per axis of the midpoint
    (100.5, 100) of the pair. *)
Lemma update_spawn_direction_first random options :
  (forall n, 0 <= random n < 1) ->
  options = Options.defaultOptions \/ options = bruteForceOptions ->
  exists e' s1 s2,
    PhysicsEngine.update random 1 800 350
      (engineOf [particleA; particleB] spawnRule options) = Some (Ok e') /\
    PhysicsEngine.particlesToAdd e' = [s1; s2] /\
    PhysicsEngine.s_type s1 = "C"%string /\
    PhysicsEngine.s_type s2 = "C"%string /\
    Rabs (PhysicsEngine.s_x s1 - 100.5) <= 5 /\
    Rabs (PhysicsEngine.s_y s1 - 100) <= 5 /\
    Rabs (PhysicsEngine.s_x s2 - 100.5) <= 5 /\
    Rabs (PhysicsEngine.s_y s2 - 100) <= 5.
Proof.
  intros Hrandom Hopt.
  destruct (update_pair random 1 800 350
              (engineOf [particleA; particleB] spawnRule options)
              particleA particleB 2 spawnRule)
    as (e' & Hupd & Hadd & Hrm & Hco).
  - done.
  - simpl. lia.
  - simpl. lia.
  - by destruct Hopt as [-> | ->].
  - apply pair_in_collision_range. auto.
  - apply tableWith_AB.
  - apply tableWith_rows. auto.
  - apply pair_visited; auto.
  - eexists e', _, _. split; [exact Hupd |]. split; [exact Hadd |].
    simpl.
    pose proof (Hrandom 0%nat) as H0. pose proof (Hrandom 1%nat) as H1.
    pose proof (Hrandom 4%nat) as H4. pose proof (Hrandom 5%nat) as H5.
    repeat split; try apply Rabs_le; lra.
Qed.

(** The destroy scenario: both particles are listed for removal, once. *)
Lemma update_destroy random :
  exists e',
    PhysicsEngine.update random 1 800 350
      (engineOf [particleA; particleB] destroyRule Options.defaultOptions) =
      Some (Ok e') /\
    PhysicsEngine.particlesToRemove e' = [0; 1]%nat.
Proof.
  destruct (update_pair random 1 800 350
              (engineOf [particleA; particleB] destroyRule
                 Options.defaultOptions)
              particleA particleB 2 destroyRule)
    as (e' & Hupd & Hadd & Hrm & Hco).
  - done.
  - simpl. lia.
  - simpl. lia.
  - done.
  - apply pair_in_collision_range. auto.
  - apply tableWith_AB.
  - apply tableWith_rows. auto.
  - apply pair_visited; auto.
  - exists e'. split; [exact Hupd | exact Hrm].
Qed.

Lemma update_removals_distinct_witness :
  exists e',
    PhysicsEngine.update zeroRandom 1 800 350
      (engineOf [particleA; particleB] destroyRule Options.defaultOptions) =
      Some (Ok e') /\
    PhysicsEngine.particlesToRemove e' = [0; 1]%nat /\
    NoDup (PhysicsEngine.particlesToRemove e').
Proof.
  destruct (update_destroy zeroRandom) as (e' & Hupd & Hrm).
  exists e'. split; [exact Hupd |]. split; [exact Hrm |].
  exact (proj1 (update_removals_distinct zeroRandom 1 800 350 _ e' Hupd)).
Defined.
End SpawnScenario.

(** * Further properties of the kernel *)

(** ** Particle.js *)

Section ParticleMore.
Local Open Scope R_scope.

(** X1: [clampAcceleration] scales the force by a factor between 0 and 1, and
    leaves a magnitude of at most [maxAcceleration], when that limit is not
    negative. *)
Theorem clampAcceleration_bounded p :
  0 <= Particle.maxAcceleration p ->
  Particle.getAcceleration (Particle.clampAcceleration p) <=
    Particle.maxAcceleration p /\
  exists scale,
    0 <= scale <= 1 /\
    Particle.fx (Particle.clampAcceleration p) = Particle.fx p * scale /\
    Particle.fy (Particle.clampAcceleration p) = Particle.fy p * scale.
Proof.
  intros Hmax. unfold Particle.clampAcceleration. cbv zeta.
  set (mag := sqrt (Particle.fx p * Particle.fx p + Particle.fy p * Particle.fy p)).
  destruct (Rltb (Particle.maxAcceleration p) mag) eqn:E.
  - apply Rltb_true in E.
    assert (Hpos : 0 < mag) by lra.
    assert (Hscale : 0 <= Particle.maxAcceleration p / mag).
    { apply Rmult_le_pos; [done |]. left. by apply Rinv_0_lt_compat. }
    assert (Hscale1 : Particle.maxAcceleration p / mag <= 1).
    { apply (Rmult_le_reg_r mag); [done |].
      replace (Particle.maxAcceleration p / mag * mag)
        with (Particle.maxAcceleration p) by (field; lra).
      lra. }
    split.
    + unfold Particle.getAcceleration. simpl.
      rewrite sqrt_scaled. fold mag. rewrite Rabs_pos_eq by done.
      right. field. lra.
    + exists (Particle.maxAcceleration p / mag). by repeat split.
  - apply Rltb_false in E. split; [exact E |].
    exists 1. split; [lra |]. split; lra.
Qed.

Lemma clampAcceleration_bounded_witness :
  Particle.getAcceleration (Particle.clampAcceleration pushedParticle) <=
    Particle.maxAcceleration pushedParticle.
Proof.
  apply clampAcceleration_bounded.
  simpl. rewrite orDefault_Some by lra. lra.
Defined.

(** X2: the cooldown counts down by one per [update] and stops at 0: a particle
    with cooldown [c >= 0] has cooldown [max 0 (c - n)] after [n] updates. *)
Theorem cooldown_countdown p n :
  (0 <= Particle.collisionCooldown p)%Z ->
  Particle.collisionCooldown (Nat.iter n Particle.update p) =
  Z.max 0 (Particle.collisionCooldown p - Z.of_nat n).
Proof.
  intros Hc. induction n as [| n IH].
  - simpl. lia.
  - rewrite Nat.iter_succ, update_cooldown, IH.
    destruct (0 <? _)%Z eqn:E; [apply Z.ltb_lt in E | apply Z.ltb_ge in E]; lia.
Qed.

Lemma cooldown_countdown_witness :
  Particle.collisionCooldown (Nat.iter 59 Particle.update cooledParticle) = 1%Z /\
  Particle.collisionCooldown (Nat.iter 60 Particle.update cooledParticle) = 0%Z.
Proof.
  split.
  - rewrite cooldown_countdown; [reflexivity |].
    simpl. unfold CONFIG.COLLISION_COOLDOWN_FRAMES. lia.
  - rewrite cooldown_countdown; [reflexivity |].
    simpl. unfold CONFIG.COLLISION_COOLDOWN_FRAMES. lia.
Defined.

(** X3: a particle that [isNearEdge] does not report, for the margin the edge
    repulsion uses, gets no edge force. *)
Theorem edgeRepulsion_zero_off_edges p canvasWidth canvasHeight options :
  Particle.isNearEdge p canvasWidth canvasHeight
    (Some (orDefault (Options.minDistanceToEdges options) 50)) = false ->
  Particle.calculateEdgeRepulsion p canvasWidth canvasHeight options =
    {| f_x := 0; f_y := 0 |}.
Proof.
  unfold Particle.isNearEdge, Particle.calculateEdgeRepulsion. cbv zeta.
  simpl default.
  set (minD := orDefault (Options.minDistanceToEdges options) 50).
  intros H.
  apply orb_false_iff in H as [H Hb]. apply orb_false_iff in H as [H Ht].
  apply orb_false_iff in H as [Hl Hr].
  apply Rltb_false in Hl, Hr, Ht, Hb.
  assert (E1 : Rltb (Particle.x p) minD = false) by by apply Rltb_false.
  assert (E2 : Rltb (canvasWidth - Particle.x p) minD = false)
    by (apply Rltb_false; lra).
  assert (E3 : Rltb (Particle.y p) minD = false) by by apply Rltb_false.
  assert (E4 : Rltb (canvasHeight - Particle.y p) minD = false)
    by (apply Rltb_false; lra).
  by rewrite E1, E2, E3, E4.
Qed.

Lemma edgeRepulsion_zero_off_edges_witness :
  Particle.calculateEdgeRepulsion middleParticle 800 350
    Options.defaultOptions = {| f_x := 0; f_y := 0 |}.
Proof.
  apply edgeRepulsion_zero_off_edges.
  unfold Particle.isNearEdge. simpl.
  rewrite orDefault_Some by lra. R_eval. reflexivity.
Defined.


End ParticleMore.

Section ForceMore.
Local Open Scope R_scope.

Lemma abs_le_hypot a b : Rabs a <= sqrt (a * a + b * b).
Proof.
  rewrite <- sqrt_Rsqr_abs. unfold Rsqr.
  pose proof (Rle_0_sqr a) as Ha. pose proof (Rle_0_sqr b) as Hb.
  unfold Rsqr in Ha, Hb.
  apply sqrt_le_1; lra.
Qed.

(** The shape of a force [calculateForce] returns for a pair in range: a
    scalar bounded by the rule force and the collision term, times the unit
    vector from the particle to the other one. *)
Lemma calculateForce_shape self other (rules : RuleTable) options B f :
  0 <= B ->
  (forall row rule,
     rules !! Particle.type self = Some row ->
     row !! Particle.type other = Some rule ->
     Rabs (closeForce rule) <= B /\ Rabs (farForce rule) <= B) ->
  Particle.calculateForce self other rules options = Ok f ->
  f = {| f_x := 0; f_y := 0 |} \/
  exists finalForce,
    0 < Particle.distance self other /\
    Rabs finalForce <=
      (B + 3) * Rabs (orDefault (Options.forceMultiplier options) 0.1) /\
    f_x f = finalForce *
            ((Particle.x other - Particle.x self) / Particle.distance self other) /\
    f_y f = finalForce *
            ((Particle.y other - Particle.y self) / Particle.distance self other).
Proof.
  intros HB Hrules. unfold Particle.calculateForce, Particle.distance.
  cbv zeta.
  set (dx := Particle.x other - Particle.x self).
  set (dy := Particle.y other - Particle.y self).
  set (d := sqrt (dx * dx + dy * dy)).
  set (maxD := orDefault (Options.maxDistance options) 80).
  set (mult := orDefault (Options.forceMultiplier options) 0.1).
  destruct (Reqb d 0 || Rltb maxD d) eqn:E; [intros [= <-]; by left |].
  apply orb_false_iff in E as [Ed0 Emax].
  apply Reqb_false in Ed0. apply Rltb_false in Emax.
  assert (Hd : 0 < d) by (pose proof (sqrt_pos (dx * dx + dy * dy)); fold d in H; lra).
  destruct (rules !! Particle.type self) as [row |] eqn:Hrow; [| done].
  set (rule := default Particle.neutralRule (row !! Particle.type other)).
  assert (Hrule : Rabs (closeForce rule) <= B /\ Rabs (farForce rule) <= B).
  { subst rule. destruct (row !! Particle.type other) as [r |] eqn:Hr; simpl.
    - by eapply Hrules.
    - rewrite Rabs_R0. done. }
  set (force := if Rltb d (threshold rule) then closeForce rule
                else farForce rule).
  assert (Hforce : Rabs force <= B)
    by (subst force; destruct (Rltb d (threshold rule)); tauto).
  set (falloff := 1 - d / maxD).
  assert (Hfall : 0 <= falloff <= 1).
  { subst falloff.
    assert (0 <= d / maxD)
      by (apply Rmult_le_pos; [lra | left; apply Rinv_0_lt_compat; lra]).
    assert (d / maxD <= 1).
    { apply (Rmult_le_reg_r maxD); [lra |].
      replace (d / maxD * maxD) with d by (field; lra). lra. }
    lra. }
  set (cd := (Particle.size self + Particle.size other) *
             orDefault (Options.collisionDistanceRatio options) 1).
  set (collisionForce := if Rltb d cd then -3 * (1 - d / cd) else 0).
  assert (Hcf : -3 <= collisionForce <= 0).
  { subst collisionForce. destruct (Rltb d cd) eqn:Ecd; [| lra].
    apply Rltb_true in Ecd.
    assert (0 < d / cd)
      by (apply Rmult_lt_0_compat; [lra | apply Rinv_0_lt_compat; lra]).
    assert (d / cd < 1).
    { apply (Rmult_lt_reg_r cd); [lra |].
      replace (d / cd * cd) with d by (field; lra). lra. }
    lra. }
  intros [= <-]. right.
  exists ((force * falloff + collisionForce) * mult).
  split; [done |]. split; [| split; reflexivity].
  rewrite Rabs_mult. apply Rmult_le_compat_r; [apply Rabs_pos |].
  eapply Rle_trans; [apply Rabs_triang |].
  assert (Rabs (force * falloff) <= B).
  { rewrite Rabs_mult, (Rabs_pos_eq falloff) by lra.
    pose proof (Rabs_pos force).
    assert (Rabs force * falloff <= Rabs force * 1)
      by (apply Rmult_le_compat_l; lra).
    lra. }
  assert (Rabs collisionForce <= 3) by (apply Rabs_le; lra).
  lra.
Qed.

(** X5: every force [calculateForce] returns is bounded: when the rule forces
    of the pair are at most [B] in absolute value, each component is at
    most [(B + 3) * |forceMultiplier|], at any distance. *)
Theorem calculateForce_bounded self other (rules : RuleTable) options B f :
  0 <= B ->
  (forall row rule,
     rules !! Particle.type self = Some row ->
     row !! Particle.type other = Some rule ->
     Rabs (closeForce rule) <= B /\ Rabs (farForce rule) <= B) ->
  Particle.calculateForce self other rules options = Ok f ->
  Rabs (f_x f) <=
    (B + 3) * Rabs (orDefault (Options.forceMultiplier options) 0.1) /\
  Rabs (f_y f) <=
    (B + 3) * Rabs (orDefault (Options.forceMultiplier options) 0.1).
Proof.
  intros HB Hrules Hf.
  set (bound := (B + 3) * Rabs (orDefault (Options.forceMultiplier options) 0.1)).
  assert (Hbound : 0 <= bound)
    by (apply Rmult_le_pos; [lra | apply Rabs_pos]).
  destruct (calculateForce_shape self other rules options B f HB Hrules Hf)
    as [-> | (F & Hd & HF & -> & ->)].
  - simpl. rewrite Rabs_R0. done.
  - unfold Particle.distance in *. cbv zeta in *.
    set (dx := Particle.x other - Particle.x self) in *.
    set (dy := Particle.y other - Particle.y self) in *.
    set (d := sqrt (dx * dx + dy * dy)) in *.
    assert (Hunit : forall a, Rabs a <= d -> Rabs (F * (a / d)) <= bound).
    { intros a Ha. rewrite Rabs_mult.
      assert (Hn : Rabs (a / d) <= 1).
      { unfold Rdiv. rewrite Rabs_mult, (Rabs_pos_eq (/ d))
          by (left; by apply Rinv_0_lt_compat).
        apply (Rmult_le_reg_r d); [done |].
        replace (Rabs a * / d * d) with (Rabs a) by (field; lra). lra. }
      pose proof (Rabs_pos F). pose proof (Rabs_pos (a / d)).
      assert (Rabs F * Rabs (a / d) <= Rabs F * 1)
        by (apply Rmult_le_compat_l; lra).
      fold bound in HF. lra. }
    split; apply Hunit.
    + apply abs_le_hypot.
    + subst d. rewrite (Rplus_comm (dx * dx)). apply abs_le_hypot.
Qed.

Lemma calculateForce_bounded_witness :
  exists f,
    Particle.calculateForce boundarySelf boundaryOther boundaryRules
      boundaryOptions = Ok f /\
    Rabs (f_x f) <= (0 + 3) * Rabs 0.1 /\ Rabs (f_y f) <= (0 + 3) * Rabs 0.1.
Proof.
  destruct (calculateForce_ok boundarySelf boundaryOther boundaryRules
              boundaryOptions) as [f Hf].
  { unfold boundaryRules. rewrite lookup_singleton_eq. eauto. }
  exists f. split; [exact Hf |].
  assert (Hmul : orDefault (Options.forceMultiplier boundaryOptions) 0.1 = 0.1)
    by (apply orDefault_Some; lra).
  rewrite <- Hmul.
  apply (calculateForce_bounded boundarySelf boundaryOther boundaryRules
           boundaryOptions 0 f); [lra | | exact Hf].
  intros row rule Hrow Hrule. exfalso. revert Hrow Hrule.
  unfold boundaryRules. rewrite lookup_singleton_eq. intros [= <-].
  by rewrite lookup_empty.
Defined.

(** X6: the force is central: it points along the line through the two
    particles. *)
Theorem calculateForce_central self other (rules : RuleTable) options f :
  Particle.calculateForce self other rules options = Ok f ->
  f_x f * (Particle.y other - Particle.y self) =
  f_y f * (Particle.x other - Particle.x self).
Proof.
  intros Hf.
  destruct (calculateForce_shape self other rules options
              (Rmax (Rabs (closeForce (default Particle.neutralRule
                       (rules !! Particle.type self ≫=
                          (.!! Particle.type other)))))
                    (Rabs (farForce (default Particle.neutralRule
                       (rules !! Particle.type self ≫=
                          (.!! Particle.type other))))))
              f) as [-> | (F & Hd & _ & -> & ->)].
  - eapply Rle_trans; [apply Rabs_pos | apply Rmax_l].
  - intros row rule Hrow Hrule. rewrite Hrow. simpl. rewrite Hrule. simpl.
    split; [apply Rmax_l | apply Rmax_r].
  - exact Hf.
  - simpl. lra.
  - field. lra.
Qed.

Lemma calculateForce_central_witness :
  exists f,
    Particle.calculateForce boundarySelf boundaryOther boundaryRules
      boundaryOptions = Ok f /\
    f_x f * (Particle.y boundaryOther - Particle.y boundarySelf) =
    f_y f * (Particle.x boundaryOther - Particle.x boundarySelf).
Proof.
  destruct (calculateForce_ok boundarySelf boundaryOther boundaryRules
              boundaryOptions) as [f Hf].
  { unfold boundaryRules. rewrite lookup_singleton_eq. eauto. }
  exists f. split; [exact Hf |].
  exact (calculateForce_central _ _ _ _ f Hf).
Defined.
End ForceMore.

(** ** ParticlePool.js *)

Section PoolMore.
Local Open Scope Z_scope.

Lemma allocate_length types n k : length (ParticlePool.allocate types n k) = n.
Proof. revert k. induction n as [| n IH]; intros k; simpl; [done | by rewrite IH]. Qed.

Lemma allocate_ids types n k :
  map Particle.id (ParticlePool.allocate types n k) = seqZ k (Z.of_nat n).
Proof.
  revert k. induction n as [| n IH]; intros k; [done |].
  rewrite seqZ_cons by lia. simpl. rewrite IH. f_equal. f_equal; lia.
Qed.

Lemma allocate_pristine types n k :
  Forall (pristine types) (ParticlePool.allocate types n k).
Proof.
  revert k. induction n as [| n IH]; intros k; simpl; constructor; [done | apply IH].
Qed.

Lemma reset_reset q x y type options x' y' type' options' :
  Particle.reset (Particle.reset q x y type options) x' y' type' options' =
  Particle.reset q x' y' type' options'.
Proof. reflexivity. Qed.

Lemma pool_last (p : ParticlePool.t) particle rest :
  reverse (ParticlePool.pool p) = particle :: rest ->
  ParticlePool.pool p = reverse rest ++ [particle].
Proof.
  intros H. rewrite <- (reverse_involutive (ParticlePool.pool p)), H.
  by rewrite reverse_cons.
Qed.

Lemma write_length particle pool :
  length (ParticlePool.write particle pool) = length pool.
Proof. unfold ParticlePool.write. by rewrite length_map. Qed.

(** Writing to an object the free list does not hold leaves the list as
    it is. *)
Lemma write_absent particle pool :
  Particle.id particle ∉ map Particle.id pool ->
  ParticlePool.write particle pool = pool.
Proof.
  unfold ParticlePool.write.
  induction pool as [| q pool IH]; simpl; [done |].
  rewrite not_elem_of_cons. intros [Hq Hpool].
  destruct (Particle.id q =? Particle.id particle) eqn:E;
    [apply Z.eqb_eq in E; congruence |].
  by rewrite IH.
Qed.

Lemma parked_false (p : ParticlePool.t) particle :
  parked p particle = false <->
  Particle.id particle ∉ map Particle.id (ParticlePool.pool p).
Proof.
  unfold parked. induction (ParticlePool.pool p) as [| q pool IH]; simpl.
  - split; [intros _; apply not_elem_of_nil | done].
  - rewrite orb_false_iff, IH, not_elem_of_cons, Z.eqb_neq.
    split; intros [? ?]; split; (done || congruence).
Qed.

(** Two particles in the reset state with the same id are in the same
    state. *)
Lemma pristine_same_id types q q' :
  pristine types q -> pristine types q' -> Particle.id q = Particle.id q' ->
  q = q'.
Proof.
  unfold pristine. intros Hq Hq' Hid. rewrite Hq, Hq'.
  unfold Particle.reset. by rewrite Hid.
Qed.

(** Taking an object of the free list into use and resetting it again
    leaves a free list of reset objects as it was. *)
Lemma write_write_pristine types particle x y type options pool :
  pristine types particle ->
  Forall (pristine types) pool ->
  ParticlePool.write
    (Particle.reset (Particle.reset particle x y type options) 0%R 0%R
       (ParticlePool.firstType types) Options.defaultOptions)
    (ParticlePool.write (Particle.reset particle x y type options) pool) =
  pool.
Proof.
  intros Hp Hpool. rewrite reset_reset. unfold ParticlePool.write.
  rewrite map_map.
  transitivity (map (fun q : Particle.t => q) pool); [| apply map_id].
  apply map_ext_Forall. eapply Forall_impl; [exact Hpool |].
  intros q Hq. cbn beta. cbn [Particle.reset Particle.id].
  destruct (Particle.id q =? Particle.id particle) eqn:E.
  - cbn [Particle.id]. rewrite Z.eqb_refl.
    apply Z.eqb_eq in E. symmetry.
    apply (pristine_same_id types); [done | | done].
    unfold pristine. by rewrite reset_reset.
  - by rewrite E.
Qed.

(** X22: [initialize] fills the pool with particles of consecutive, hence
    distinct, ids starting at the id counter, advances the counter past
    them, and a second [initialize] changes nothing. *)
Theorem initialize_ids types (p : ParticlePool.t) initialSize again :
  ParticlePool.initialized p = false ->
  let p' := ParticlePool.initialize types p initialSize in
  map Particle.id (ParticlePool.pool p') =
    seqZ (ParticlePool.nextParticleId p) (ParticlePool.poolSize p') /\
  NoDup (map Particle.id (ParticlePool.pool p')) /\
  ParticlePool.nextParticleId p' =
    ParticlePool.nextParticleId p + Z.of_nat (length (ParticlePool.pool p')) /\
  ParticlePool.initialize types p' again = p'.
Proof.
  intros Hinit. unfold ParticlePool.initialize. rewrite Hinit. cbv zeta.
  set (n := match initialSize with
            | Some n => if n =? 0 then _ else n
            | None => _
            end).
  cbn [ParticlePool.pool ParticlePool.poolSize ParticlePool.nextParticleId
       ParticlePool.initialized].
  assert (Hids : map Particle.id
                   (ParticlePool.allocate types (Z.to_nat n)
                      (ParticlePool.nextParticleId p)) =
                 seqZ (ParticlePool.nextParticleId p) n).
  { rewrite allocate_ids. unfold seqZ. by rewrite Nat2Z.id. }
  rewrite Hids, allocate_length.
  repeat split. apply NoDup_seqZ.
Qed.

Lemma initialize_ids_witness :
  map Particle.id (ParticlePool.pool pool3) = [1; 2; 3] /\
  ParticlePool.nextParticleId pool3 = 4.
Proof.
  destruct (initialize_ids ["red"%string] (ParticlePool.new 1) (Some 3)
              None eq_refl) as (Hids & _ & Hnext & _).
  split; [exact Hids | exact Hnext].
Defined.

(** X23: whatever the state of the pool, the particle [getParticle] hands
    out agrees with a newly constructed one at the requested place on
    every field of [Particle.t], the fields the constructor sets: of
    these only the id is left of its previous life. *)
Theorem getParticle_fresh (p : ParticlePool.t) x y type options :
  let q := fst (ParticlePool.getParticle p x y type options) in
  q = Particle.new (Particle.id q) x y type options.
Proof.
  unfold ParticlePool.getParticle.
  destruct (negb (ParticlePool.initialized p)); [reflexivity |].
  destruct (reverse (ParticlePool.pool p)); reflexivity.
Qed.

(** X24: taking a particle from a pool that has one and handing it back
    restores the free list and the active count; the only trace is one
    more recycling and the peak. *)
Theorem get_then_return types (p : ParticlePool.t) x y type options :
  ParticlePool.initialized p = true ->
  ParticlePool.pool p <> [] ->
  Forall (pristine types) (ParticlePool.pool p) ->
  Z.of_nat (length (ParticlePool.pool p)) <= ParticlePool.maxPoolSize p ->
  let taken := ParticlePool.getParticle p x y type options in
  let p' := ParticlePool.returnParticle types (snd taken) (fst taken) in
  ParticlePool.pool p' = ParticlePool.pool p /\
  ParticlePool.currentActive (ParticlePool.stats p') =
    ParticlePool.currentActive (ParticlePool.stats p) /\
  ParticlePool.totalRecycled (ParticlePool.stats p') =
    ParticlePool.totalRecycled (ParticlePool.stats p) + 1 /\
  ParticlePool.totalCreated (ParticlePool.stats p') =
    ParticlePool.totalCreated (ParticlePool.stats p) /\
  ParticlePool.nextParticleId p' = ParticlePool.nextParticleId p.
Proof.
  intros Hinit Hne Hpr Hmax. unfold ParticlePool.getParticle.
  rewrite Hinit. cbn [negb].
  destruct (reverse (ParticlePool.pool p)) as [| particle rest] eqn:Hrev.
  { apply (f_equal reverse) in Hrev. rewrite reverse_involutive in Hrev.
    done. }
  apply pool_last in Hrev. cbv zeta. cbn [fst snd].
  unfold ParticlePool.returnParticle.
  cbn [ParticlePool.initialized ParticlePool.pool ParticlePool.maxPoolSize
       ParticlePool.stats ParticlePool.poolSize ParticlePool.nextParticleId].
  rewrite ?Hinit. cbn [negb].
  rewrite Hrev, length_app in Hmax. simpl in Hmax.
  rewrite write_length.
  destruct (ParticlePool.maxPoolSize p <=? Z.of_nat (length (reverse rest)))
    eqn:E; [apply Z.leb_le in E; lia |].
  cbv zeta.
  cbn [ParticlePool.pool ParticlePool.stats ParticlePool.currentActive
       ParticlePool.totalRecycled ParticlePool.totalCreated
       ParticlePool.activate ParticlePool.nextParticleId].
  rewrite Hrev, Forall_app, Forall_singleton in Hpr.
  destruct Hpr as [Hrest Hlast].
  rewrite (write_write_pristine types) by done.
  rewrite reset_reset. unfold pristine in Hlast.
  rewrite <- Hlast. rewrite Hrev. repeat split; lia.
Qed.

Lemma get_then_return_witness :
  ParticlePool.pool
    (ParticlePool.returnParticle ["red"%string]
       (snd (ParticlePool.getParticle pool3 5 6 "blue" Options.empty))
       (fst (ParticlePool.getParticle pool3 5 6 "blue" Options.empty))) =
  ParticlePool.pool pool3.
Proof.
  refine (proj1 (get_then_return ["red"%string] pool3 5%R 6%R "blue"%string Options.empty
                   eq_refl _ _ _)).
  - discriminate.
  - exact (allocate_pristine ["red"%string] 3 1).
  - vm_compute. discriminate.
Defined.

(** X25: the free list is a stack: a particle that the free list does
    not hold already, handed back to a pool with room, is the one the
    next [getParticle] hands out, and that pair of calls leaves the free
    list and the active count as they were. *)
Theorem return_then_get types (p : ParticlePool.t) q x y type options :
  ParticlePool.initialized p = true ->
  Z.of_nat (length (ParticlePool.pool p)) < ParticlePool.maxPoolSize p ->
  parked p q = false ->
  let taken :=
    ParticlePool.getParticle (ParticlePool.returnParticle types p q)
      x y type options in
  fst taken = Particle.reset q x y type options /\
  ParticlePool.pool (snd taken) = ParticlePool.pool p /\
  ParticlePool.currentActive (ParticlePool.stats (snd taken)) =
    ParticlePool.currentActive (ParticlePool.stats p) /\
  ParticlePool.totalCreated (ParticlePool.stats (snd taken)) =
    ParticlePool.totalCreated (ParticlePool.stats p).
Proof.
  intros Hinit Hmax Hfree. apply parked_false in Hfree.
  unfold ParticlePool.returnParticle.
  rewrite Hinit. cbn [negb].
  destruct (ParticlePool.maxPoolSize p <=?
            Z.of_nat (length (ParticlePool.pool p))) eqn:E;
    [apply Z.leb_le in E; lia |].
  unfold ParticlePool.getParticle.
  cbv zeta. cbn [ParticlePool.initialized ParticlePool.pool negb].
  rewrite (write_absent (Particle.reset q _ _ _ _)) by done.
  rewrite reverse_app, reverse_singleton. cbn [app].
  cbn [fst snd ParticlePool.pool ParticlePool.stats
       ParticlePool.activate ParticlePool.currentActive
       ParticlePool.totalCreated].
  rewrite reverse_involutive, reset_reset.
  rewrite (write_absent (Particle.reset q _ _ _ _)) by done.
  repeat split; lia.
Qed.

Lemma return_then_get_witness :
  fst (ParticlePool.getParticle
         (ParticlePool.returnParticle ["red"%string] pool3 strayParticle)
         5 6 "blue" Options.empty) =
  Particle.reset strayParticle 5 6 "blue" Options.empty /\
  ParticlePool.pool
    (snd (ParticlePool.getParticle
            (ParticlePool.returnParticle ["red"%string] pool3 strayParticle)
            5 6 "blue" Options.empty)) =
  ParticlePool.pool pool3.
Proof.
  destruct (return_then_get ["red"%string] pool3 strayParticle 5%R 6%R
              "blue"%string Options.empty) as (Hq & Hpool & _).
  - reflexivity.
  - vm_compute. reflexivity.
  - vm_compute. reflexivity.
  - split; [exact Hq | exact Hpool].
Defined.

Lemma step_balance types (p : ParticlePool.t) c :
  poolBalance (ParticlePool.step types p c) = poolBalance p.
Proof.
  unfold poolBalance. destruct c as [x y type options | particle]; simpl.
  - unfold ParticlePool.getParticle.
    destruct (negb (ParticlePool.initialized p)); [reflexivity |].
    destruct (reverse (ParticlePool.pool p)) as [| q rest] eqn:Hrev.
    + simpl. lia.
    + apply pool_last in Hrev. rewrite Hrev, length_app. simpl.
      rewrite write_length. lia.
  - unfold ParticlePool.returnParticle.
    destruct (negb (ParticlePool.initialized p)); [reflexivity |].
    destruct (ParticlePool.maxPoolSize p <=? _); [reflexivity |].
    simpl. rewrite length_app, write_length. simpl. lia.
Qed.

Lemma run_snoc types (p : ParticlePool.t) calls c :
  ParticlePool.run types p (calls ++ [c]) =
  ParticlePool.step types (ParticlePool.run types p calls) c.
Proof. unfold ParticlePool.run. by rewrite foldl_app. Qed.

(** X26: over any sequence of [getParticle] and [returnParticle] calls, on any
    pool, the free particles plus the active count grow exactly by the
    particles created because the pool was empty: the sum checked by
    [validate()] stays put as long as the pool never runs dry. *)
Theorem run_balance types (p : ParticlePool.t) calls :
  Z.of_nat (length (ParticlePool.pool (ParticlePool.run types p calls))) +
  ParticlePool.currentActive (ParticlePool.stats (ParticlePool.run types p calls)) =
  Z.of_nat (length (ParticlePool.pool p)) +
  ParticlePool.currentActive (ParticlePool.stats p) +
  (ParticlePool.totalCreated (ParticlePool.stats (ParticlePool.run types p calls)) -
   ParticlePool.totalCreated (ParticlePool.stats p)).
Proof.
  assert (H : poolBalance (ParticlePool.run types p calls) = poolBalance p).
  { induction calls as [| c calls IH] using rev_ind; [reflexivity |].
    by rewrite run_snoc, step_balance. }
  unfold poolBalance in H. lia.
Qed.

Lemma step_frame types (p : ParticlePool.t) c :
  ParticlePool.maxPoolSize (ParticlePool.step types p c) =
    ParticlePool.maxPoolSize p /\
  ParticlePool.poolSize (ParticlePool.step types p c) =
    ParticlePool.poolSize p /\
  ParticlePool.initialized (ParticlePool.step types p c) =
    ParticlePool.initialized p.
Proof.
  destruct c as [x y type options | particle]; simpl.
  - unfold ParticlePool.getParticle.
    destruct (negb (ParticlePool.initialized p)); [done |].
    by destruct (reverse (ParticlePool.pool p)).
  - unfold ParticlePool.returnParticle.
    destruct (negb (ParticlePool.initialized p)); [done |].
    by destruct (ParticlePool.maxPoolSize p <=? _).
Qed.

Lemma run_frame types (p : ParticlePool.t) calls :
  ParticlePool.maxPoolSize (ParticlePool.run types p calls) =
    ParticlePool.maxPoolSize p /\
  ParticlePool.poolSize (ParticlePool.run types p calls) =
    ParticlePool.poolSize p /\
  ParticlePool.initialized (ParticlePool.run types p calls) =
    ParticlePool.initialized p.
Proof.
  induction calls as [| c calls IH] using rev_ind; [done |].
  rewrite run_snoc.
  destruct (step_frame types (ParticlePool.run types p calls) c)
    as (-> & -> & ->).
  exact IH.
Qed.

(** X27: the free list never outgrows its cap: after any sequence of calls it
    holds at most [maxPoolSize] particles, or what it held at the start
    if that was more. *)
Theorem run_pool_bounded types (p : ParticlePool.t) calls :
  Z.of_nat (length (ParticlePool.pool (ParticlePool.run types p calls))) <=
  Z.max (Z.of_nat (length (ParticlePool.pool p))) (ParticlePool.maxPoolSize p).
Proof.
  induction calls as [| c calls IH] using rev_ind; [simpl; lia |].
  rewrite run_snoc.
  destruct (run_frame types p calls) as (Hmax & _ & _).
  set (p' := ParticlePool.run types p calls) in *.
  destruct c as [x y type options | particle]; simpl.
  - unfold ParticlePool.getParticle.
    destruct (negb (ParticlePool.initialized p')); [exact IH |].
    destruct (reverse (ParticlePool.pool p')) as [| q rest] eqn:Hrev;
      [exact IH |].
    apply pool_last in Hrev. rewrite Hrev, length_app in IH. simpl in *.
    rewrite write_length. lia.
  - unfold ParticlePool.returnParticle.
    destruct (negb (ParticlePool.initialized p')); [exact IH |].
    destruct (ParticlePool.maxPoolSize p' <=?
              Z.of_nat (length (ParticlePool.pool p'))) eqn:E; [exact IH |].
    apply Z.leb_gt in E. simpl. rewrite length_app, write_length. simpl. lia.
Qed.

(** X28: [peakUsage] is a high-water mark: once it is at least the active
    count, it stays so over any sequence of calls, and never decreases. *)
Theorem run_peak types (p : ParticlePool.t) calls :
  ParticlePool.currentActive (ParticlePool.stats p) <=
    ParticlePool.peakUsage (ParticlePool.stats p) ->
  ParticlePool.currentActive (ParticlePool.stats (ParticlePool.run types p calls)) <=
    ParticlePool.peakUsage (ParticlePool.stats (ParticlePool.run types p calls)) /\
  ParticlePool.peakUsage (ParticlePool.stats p) <=
    ParticlePool.peakUsage (ParticlePool.stats (ParticlePool.run types p calls)).
Proof.
  intros Hp.
  induction calls as [| c calls IH] using rev_ind; [simpl; lia |].
  rewrite run_snoc.
  set (p' := ParticlePool.run types p calls) in *.
  destruct c as [x y type options | particle]; simpl.
  - unfold ParticlePool.getParticle.
    destruct (negb (ParticlePool.initialized p')); [exact IH |].
    destruct (reverse (ParticlePool.pool p')); simpl; lia.
  - unfold ParticlePool.returnParticle.
    destruct (negb (ParticlePool.initialized p')); [exact IH |].
    destruct (ParticlePool.maxPoolSize p' <=? _); [exact IH |].
    simpl. lia.
Qed.

Lemma run_peak_witness :
  ParticlePool.currentActive
    (ParticlePool.stats
       (ParticlePool.run ["red"%string] pool3
          [ParticlePool.GetParticle 5 6 "blue" Options.empty;
           ParticlePool.ReturnParticle strayParticle])) <=
  ParticlePool.peakUsage
    (ParticlePool.stats
       (ParticlePool.run ["red"%string] pool3
          [ParticlePool.GetParticle 5 6 "blue" Options.empty;
           ParticlePool.ReturnParticle strayParticle])).
Proof.
  refine (proj1 (run_peak ["red"%string] pool3 _ _)).
  vm_compute. discriminate.
Defined.

(** The free list holds reset objects, each of them once. *)
Lemma step_orderly types (p : ParticlePool.t) c :
  Forall (pristine types) (ParticlePool.pool p) ->
  NoDup (map Particle.id (ParticlePool.pool p)) ->
  match c with
  | ParticlePool.GetParticle _ _ _ _ => True
  | ParticlePool.ReturnParticle particle => parked p particle = false
  end ->
  Forall (pristine types) (ParticlePool.pool (ParticlePool.step types p c)) /\
  NoDup (map Particle.id (ParticlePool.pool (ParticlePool.step types p c))).
Proof.
  intros Hpr Hnd Hc.
  destruct c as [x y type options | particle]; simpl.
  - unfold ParticlePool.getParticle.
    destruct (negb (ParticlePool.initialized p)); [done |].
    destruct (reverse (ParticlePool.pool p)) as [| q rest] eqn:Hrev; [done |].
    apply pool_last in Hrev.
    rewrite Hrev, map_app, NoDup_app in Hnd.
    destruct Hnd as (Hnd & Hq & _).
    rewrite Hrev, Forall_app in Hpr. destruct Hpr as [Hpr _].
    cbv zeta. cbn [snd ParticlePool.pool].
    rewrite write_absent; [done |].
    cbn [Particle.reset Particle.id]. intros Hin.
    apply (Hq _ Hin). simpl. left.
  - apply parked_false in Hc.
    unfold ParticlePool.returnParticle.
    destruct (negb (ParticlePool.initialized p)); [done |].
    destruct (ParticlePool.maxPoolSize p <=? _); [done |].
    cbv zeta. cbn [ParticlePool.pool].
    rewrite write_absent by done.
    split.
    + rewrite Forall_app, Forall_singleton. split; [done |].
      unfold pristine. by rewrite reset_reset.
    + rewrite map_app, NoDup_app. split; [done |]. split.
      * intros k Hk. cbn [map Particle.reset Particle.id].
        rewrite elem_of_cons, elem_of_nil. intros [-> | []]. done.
      * apply NoDup_singleton.
Qed.

Lemma run_orderly types calls : forall p : ParticlePool.t,
  Forall (pristine types) (ParticlePool.pool p) ->
  NoDup (map Particle.id (ParticlePool.pool p)) ->
  orderly types p calls = true ->
  Forall (pristine types) (ParticlePool.pool (ParticlePool.run types p calls)) /\
  NoDup (map Particle.id (ParticlePool.pool (ParticlePool.run types p calls))).
Proof.
  induction calls as [| c calls IH]; intros p Hpr Hnd Hcalls; [done |].
  cbn [orderly] in Hcalls. apply andb_true_iff in Hcalls as [Hc Hcalls].
  destruct (step_orderly types p c Hpr Hnd) as [Hpr' Hnd'].
  { destruct c; [done | by apply negb_true_iff]. }
  exact (IH _ Hpr' Hnd' Hcalls).
Qed.

(** X29: every particle parked in the pool is in the reset state, and no
    particle is parked twice, from [initialize] on and through any
    sequence of calls that returns no particle while the free list
    holds it: what a particle did while active then never leaks into its
    next use. *)
Theorem run_pristine types nextId initialSize calls :
  orderly types
    (ParticlePool.initialize types (ParticlePool.new nextId) initialSize)
    calls = true ->
  Forall (pristine types)
    (ParticlePool.pool
       (ParticlePool.run types
          (ParticlePool.initialize types (ParticlePool.new nextId) initialSize)
          calls)) /\
  NoDup
    (map Particle.id
       (ParticlePool.pool
          (ParticlePool.run types
             (ParticlePool.initialize types (ParticlePool.new nextId)
                initialSize)
             calls))).
Proof.
  apply run_orderly.
  - apply allocate_pristine.
  - unfold ParticlePool.initialize. cbn [ParticlePool.initialized
      ParticlePool.new ParticlePool.pool].
    rewrite allocate_ids. apply NoDup_seqZ.
Qed.

Lemma run_pristine_witness :
  Forall (pristine ["red"%string])
    (ParticlePool.pool
       (ParticlePool.run ["red"%string] pool3
          [ParticlePool.GetParticle 5 6 "blue" Options.empty;
           ParticlePool.ReturnParticle
             (fst (ParticlePool.getParticle pool3 5 6 "blue" Options.empty));
           ParticlePool.ReturnParticle strayParticle])).
Proof.
  refine (proj1 (run_pristine ["red"%string] 1 (Some 3)
                   [ParticlePool.GetParticle 5 6 "blue" Options.empty;
                    ParticlePool.ReturnParticle
                      (fst (ParticlePool.getParticle pool3 5 6 "blue"
                              Options.empty));
                    ParticlePool.ReturnParticle strayParticle] _)).
  vm_compute. reflexivity.
Defined.

(** Without that discipline the property is lost: when the particle taken
    from [pool3] is returned twice, the free list holds it twice, and
    after the next [getParticle] the last entry of the free list is the
    particle that was handed out, at the place (7, 8) it was put to. *)
Lemma double_return_leaks :
  orderly ["red"%string] pool3 doubleReturn = false /\
  let taken :=
    ParticlePool.getParticle
      (ParticlePool.run ["red"%string] pool3 (take 3 doubleReturn))
      7 8 "blue" Options.empty in
  ParticlePool.run ["red"%string] pool3 doubleReturn = snd taken /\
  last (ParticlePool.pool (snd taken)) = Some (fst taken) /\
  Particle.x (fst taken) = 7%R /\
  ~ pristine ["red"%string] (fst taken).
Proof.
  split; [vm_compute; reflexivity |].
  cbv zeta. split; [reflexivity |]. split; [vm_compute; reflexivity |].
  split; [vm_compute; reflexivity |].
  unfold pristine. intros Heq. apply (f_equal Particle.x) in Heq.
  vm_compute in Heq. lra.
Qed.

(** X30: [resize] refuses a size below the active count and leaves the pool
    as it is; any other size is taken, and if the free list and the
    active count fitted into the pool size before (the check of
    [validate()]), they fit into the new one. *)
Theorem resize_within types (p : ParticlePool.t) newSize :
  withinPoolSize p ->
  let p' := ParticlePool.resize types p newSize in
  (newSize < ParticlePool.currentActive (ParticlePool.stats p) -> p' = p) /\
  (ParticlePool.currentActive (ParticlePool.stats p) <= newSize ->
   ParticlePool.poolSize p' = newSize /\ withinPoolSize p' /\
   ParticlePool.stats p' = ParticlePool.stats p).
Proof.
  unfold withinPoolSize. intros Hw. unfold ParticlePool.resize. cbv zeta.
  split; intros Hn.
  - apply Z.ltb_lt in Hn. by rewrite Hn.
  - apply Z.ltb_ge in Hn. rewrite Hn.
    cbn [ParticlePool.poolSize ParticlePool.pool ParticlePool.stats].
    apply Z.ltb_ge in Hn.
    split; [reflexivity |]. split; [| reflexivity].
    destruct (ParticlePool.poolSize p <? newSize) eqn:E1.
    + apply Z.ltb_lt in E1. cbn [fst].
      rewrite length_app, allocate_length. lia.
    + destruct (newSize <? ParticlePool.poolSize p) eqn:E2; cbn [fst].
      * apply Z.ltb_lt in E2. rewrite length_drop. lia.
      * apply Z.ltb_ge in E1, E2. lia.
Qed.

Lemma resize_within_witness :
  ParticlePool.poolSize (ParticlePool.resize ["red"%string] pool3Taken 1) = 1 /\
  withinPoolSize (ParticlePool.resize ["red"%string] pool3Taken 1).
Proof.
  assert (Hw : withinPoolSize pool3Taken) by (vm_compute; discriminate).
  destruct (proj2 (resize_within ["red"%string] pool3Taken 1 Hw))
    as (Hsize & Hwithin & _).
  - vm_compute. discriminate.
  - split; [exact Hsize | exact Hwithin].
Defined.
End PoolMore.

(** ** Quadtree.js *)

Section QuadtreeMore.
Context {N : Type} `{Number.t N} {A : Type}.
Variables px py : A -> N.

Local Abbreviation insert := (Quadtree.insert px py).
Local Abbreviation wf := (wellFormed px py).
Local Abbreviation elements := Quadtree.elements.
Local Abbreviation inside := (inside px py).
Local Abbreviation inb := (insideb px py).

(** Where the pruning test is sound, [query] appends to [found] the
    stored particles of [range], in the order [elements] lists them. *)
Lemma query_elements (q : Quadtree.t N A) :
  rangePruningSound N ->
  forall range found,
    wf q ->
    Quadtree.query px py q range found =
    found ++ List.filter (inb range) (elements q).
Proof.
  intros Hsound.
  induction q as [b c ps | b c ps ne IHne nw IHnw se IHse sw IHsw];
    intros range found Hwf.
  - cbn [Quadtree.query Quadtree.boundary Quadtree.particles
         Quadtree.elements].
    destruct (Rectangle.intersects b range) eqn:Hint; [done |].
    cbn [negb]. rewrite filter_none; [by rewrite app_nil_r |].
    eapply Forall_impl; [exact Hwf |].
    intros p Hp. by eapply Hsound.
  - cbn [Quadtree.query Quadtree.boundary Quadtree.particles].
    destruct (Rectangle.intersects b range) eqn:Hint; cbn [negb].
    + destruct Hwf as (Hps & Bne & Bnw & Bse & Bsw & Wne & Wnw & Wse & Wsw).
      rewrite IHsw, IHse, IHnw, IHne by done.
      cbn [Quadtree.elements]. rewrite !List.filter_app, <- !app_assoc. done.
    + rewrite filter_none; [by rewrite app_nil_r |].
      eapply Forall_impl; [exact (wf_elements_inside _ _ _ Hwf) |].
      intros p Hp. by eapply Hsound.
Qed.

(** In any number system, what [query] appends to [found] is taken from
    the stored particles of [range], each at most as often as it is
    stored. *)
Lemma query_sublist (q : Quadtree.t N A) : forall range found,
  exists l,
    Quadtree.query px py q range found = found ++ l /\
    sublist l (List.filter (inb range) (elements q)).
Proof.
  induction q as [b c ps | b c ps ne IHne nw IHnw se IHse sw IHsw];
    intros range found.
  - cbn [Quadtree.query Quadtree.boundary Quadtree.particles
         Quadtree.elements].
    destruct (Rectangle.intersects b range); cbn [negb].
    + by eexists.
    + exists []. split; [by rewrite app_nil_r | apply sublist_nil_l].
  - cbn [Quadtree.query Quadtree.boundary Quadtree.particles].
    destruct (Rectangle.intersects b range); cbn [negb].
    + set (found' := found ++ List.filter _ ps).
      destruct (IHne range found') as (l1 & -> & S1).
      destruct (IHnw range (found' ++ l1)) as (l2 & -> & S2).
      destruct (IHse range ((found' ++ l1) ++ l2)) as (l3 & -> & S3).
      destruct (IHsw range (((found' ++ l1) ++ l2) ++ l3)) as (l4 & -> & S4).
      exists (List.filter (inb range) ps ++ l1 ++ l2 ++ l3 ++ l4).
      split; [subst found'; by rewrite <- !app_assoc |].
      cbn [Quadtree.elements]. rewrite !List.filter_app.
      repeat (apply sublist_app; [done |]). done.
    + exists []. split; [by rewrite app_nil_r | apply sublist_nil_l].
Qed.

Lemma size_elements (q : Quadtree.t N A) :
  Quadtree.size q = length (elements q).
Proof.
  induction q as [b c ps | b c ps ne IHne nw IHnw se IHse sw IHsw]; simpl;
    [done |].
  rewrite !length_app. lia.
Qed.

(** Among particles that passed the test of [b], filtering by [b] and
    [f] is filtering by [f]. *)
Lemma filter_inside (f : A -> bool) b (l : list A) :
  Forall (inside b) l ->
  List.filter (fun p => inb b p && f p) l = List.filter f l.
Proof.
  induction 1 as [| p l Hp _ IH]; simpl; [done |].
  unfold insideb at 1. rewrite Hp, IH. done.
Qed.

Lemma filter_filter (f g : A -> bool) (l : list A) :
  List.filter g (List.filter f l) = List.filter (fun p => f p && g p) l.
Proof.
  induction l as [| p l IH]; simpl; [done |].
  destruct (f p); simpl; [| done]. destruct (g p); by rewrite IH.
Qed.

(** X7: in whatever number system, [query] on a tree built by insertions
    returns only particles that [insert] accepted and that lie in
    [range], each at most as often as it was accepted; where pruning by
    [Rectangle.intersects] is sound it returns all of them, up to order;
    and where moreover the quadrants cover their parent it is a
    brute-force rectangle filter of the inserted particles. *)
Theorem query_brute_force b c ps fuel q range :
  Quadtree.insertAll px py fuel (Quadtree.new b c) ps = Some q ->
  Quadtree.query px py q range [] ⊆+
    List.filter (inb range) (accepted px py fuel (Quadtree.new b c) ps) /\
  (rangePruningSound N ->
   Quadtree.query px py q range [] ≡ₚ
     List.filter (inb range) (accepted px py fuel (Quadtree.new b c) ps)) /\
  (rangePruningSound N -> quadrantsCover N ->
   Quadtree.query px py q range [] ≡ₚ
     List.filter (fun p => inb b p && inb range p) ps).
Proof.
  intros Hbuild.
  pose proof (wf_new px py b c) as Hwf0.
  destruct (insertAll_invariant _ _ _ _ _ _ Hbuild Hwf0) as (Hwf & _ & _).
  destruct (insertAll_accepted _ _ _ _ _ _ Hbuild Hwf0) as (El & _ & _).
  simpl in El.
  split; [| split].
  - destruct (query_sublist q range []) as (l & -> & Hl).
    simpl. rewrite <- (filter_Permutation _ _ _ El).
    by apply sublist_submseteq.
  - intros Hsound. rewrite query_elements by done. simpl.
    by apply filter_Permutation.
  - intros Hsound Hcover. rewrite query_elements by done. simpl.
    rewrite (filter_Permutation _ _ _ El).
    rewrite (accepted_cover _ _ _ _ Hcover _ _ Hbuild Hwf0).
    by rewrite filter_filter.
Qed.

(** X8: in whatever number system, [size()] counts the particles that
    [insert] accepted: an accepted particle is stored once, a refused one
    leaves no trace; the accepted particles are inserted ones that passed
    the test of the root rectangle, and where the quadrants cover their
    parent they are all of these. *)
Theorem size_counts_inserted b c ps fuel q :
  Quadtree.insertAll px py fuel (Quadtree.new b c) ps = Some q ->
  Quadtree.size q = length (accepted px py fuel (Quadtree.new b c) ps) /\
  Forall (inside b) (accepted px py fuel (Quadtree.new b c) ps) /\
  sublist (accepted px py fuel (Quadtree.new b c) ps) ps /\
  (quadrantsCover N -> Quadtree.size q = length (List.filter (inb b) ps)).
Proof.
  intros Hbuild.
  pose proof (wf_new px py b c) as Hwf0.
  destruct (insertAll_accepted _ _ _ _ _ _ Hbuild Hwf0) as (El & Hin & Hsub).
  simpl in El. rewrite size_elements, El.
  repeat split; try done.
  intros Hcover. by rewrite (accepted_cover _ _ _ _ Hcover _ _ Hbuild Hwf0).
Qed.

(** X9: in whatever number system, [queryCircle] never finds a particle
    that fails the test of the root rectangle, whatever the radius: what
    it returns is taken from the inserted particles that pass this test
    and the test on squared distances, each at most as often as it was
    inserted; where the pruning test is sound and the quadrants cover
    their parent it returns all of them, up to order. *)
Theorem queryCircle_drops_outside b c ps fuel q x y radius :
  Quadtree.insertAll px py fuel (Quadtree.new b c) ps = Some q ->
  Quadtree.queryCircle px py q x y radius [] ⊆+
    List.filter (fun p => inb b p && Quadtree.inCircle px py x y radius p) ps /\
  (circlePruningSound N -> quadrantsCover N ->
   Quadtree.queryCircle px py q x y radius [] ≡ₚ
     List.filter (fun p => inb b p && Quadtree.inCircle px py x y radius p) ps).
Proof.
  intros Hbuild.
  pose proof (wf_new px py b c) as Hwf0.
  destruct (insertAll_invariant _ _ _ _ _ _ Hbuild Hwf0) as (Hwf & _ & _).
  destruct (insertAll_accepted _ _ _ _ _ _ Hbuild Hwf0) as (El & Hin & Hsub).
  simpl in El, Hin.
  split.
  - destruct (queryCircle_sublist px py q x y radius []) as (l & -> & Hl).
    simpl. transitivity
      (List.filter (Quadtree.inCircle px py x y radius)
         (accepted px py fuel (Quadtree.new b c) ps)).
    + rewrite <- (filter_Permutation _ _ _ El). by apply sublist_submseteq.
    + rewrite <- (filter_inside _ b) by done.
      apply sublist_submseteq. by apply sublist_filter.
  - intros Hsound Hcover. rewrite queryCircle_elements by done. simpl.
    rewrite (filter_Permutation _ _ _ El).
    rewrite (accepted_cover _ _ _ _ Hcover _ _ Hbuild Hwf0).
    by rewrite filter_filter.
Qed.

Lemma insertIntoChildren_full ins b c0 ps (ne nw se sw : Quadtree.t N A) r q' c :
  (forall child r' child',
     ins child = Some (r', child') ->
     divisionsFull c child -> divisionsFull c child') ->
  divisionsFull c (Quadtree.Node b c0 ps ne nw se sw) ->
  Quadtree.insertIntoChildren ins b c0 ps ne nw se sw = Some (r, q') ->
  divisionsFull c q'.
Proof.
  intros Hins (Hc & Hlen & Fne & Fnw & Fse & Fsw).
  unfold Quadtree.insertIntoChildren.
  destruct (ins ne) as [[[] ne'] |] eqn:E1; [| | done];
    apply Hins in E1; [| done | | done].
  { intros [= <- <-]. simpl. auto 10. }
  destruct (ins nw) as [[[] nw'] |] eqn:E2; [| | done];
    apply Hins in E2; [| done | | done].
  { intros [= <- <-]. simpl. auto 10. }
  destruct (ins se) as [[[] se'] |] eqn:E3; [| | done];
    apply Hins in E3; [| done | | done].
  { intros [= <- <-]. simpl. auto 10. }
  destruct (ins sw) as [[r4 sw'] |] eqn:E4; [| done].
  apply Hins in E4; [| done].
  intros [= <- <-]. simpl. auto 10.
Qed.

Lemma insert_full c fuel : forall (q : Quadtree.t N A) p r q',
  insert fuel q p = Some (r, q') -> divisionsFull c q -> divisionsFull c q'.
Proof.
  induction fuel as [| n IH]; intros q p r q'; [done |].
  simpl.
  destruct (negb (Rectangle.contains (Quadtree.boundary q) (px p) (py p))).
  { by intros [= <- <-]. }
  destruct (Z.of_nat (length (Quadtree.particles q)) <? Quadtree.capacity q)%Z
    eqn:Hroom.
  { intros [= <- <-]. destruct q as [b c0 ps | b c0 ps ne nw se sw]; simpl.
    - done.
    - intros (? & ? & ?). rewrite length_app. simpl. split; [done |].
      split; [lia | done]. }
  apply Z.ltb_ge in Hroom.
  destruct q as [b c0 ps | b c0 ps ne nw se sw];
    cbn [Quadtree.ensureDivided Quadtree.subdivide Quadtree.boundary
         Quadtree.capacity Quadtree.particles] in *.
  - intros Hins Hfull. simpl in Hfull. subst c0.
    eapply insertIntoChildren_full; [| | exact Hins].
    + intros child r' child' E. exact (IH _ _ _ _ E).
    + simpl. auto 10.
  - intros Hins Hfull.
    eapply insertIntoChildren_full; [| exact Hfull | exact Hins].
    intros child r' child' E. exact (IH _ _ _ _ E).
Qed.

Lemma insertAll_full c fuel ps : forall (q q' : Quadtree.t N A),
  Quadtree.insertAll px py fuel q ps = Some q' ->
  divisionsFull c q -> divisionsFull c q'.
Proof.
  induction ps as [| p ps IH]; intros q q'; simpl.
  - by intros [= <-].
  - destruct (insert fuel q p) as [[r q1] |] eqn:E; [| done].
    intros Hall Hfull. eapply IH; [exact Hall |]. by eapply insert_full.
Qed.

Lemma full_depth c (q : Quadtree.t N A) :
  divisionsFull c q ->
  (Z.of_nat (Quadtree.getDepth q) * c <= Z.of_nat (Quadtree.size q))%Z.
Proof.
  induction q as [b c0 ps | b c0 ps ne IHne nw IHnw se IHse sw IHsw].
  - simpl. lia.
  - intros (_ & Hlen & Fne & Fnw & Fse & Fsw).
    specialize (IHne Fne). specialize (IHnw Fnw).
    specialize (IHse Fse). specialize (IHsw Fsw).
    cbn [Quadtree.getDepth Quadtree.size].
    destruct (Nat.max_dec (Nat.max (Quadtree.getDepth ne) (Quadtree.getDepth nw))
                (Nat.max (Quadtree.getDepth se) (Quadtree.getDepth sw)))
      as [-> | ->].
    + destruct (Nat.max_dec (Quadtree.getDepth ne) (Quadtree.getDepth nw))
        as [-> | ->]; lia.
    + destruct (Nat.max_dec (Quadtree.getDepth se) (Quadtree.getDepth sw))
        as [-> | ->]; lia.
Qed.

(** The two depth functions differ by one: [depth()] counts the levels,
    [getDepth()] the subdivisions below a node. *)
Lemma depth_getDepth (q : Quadtree.t N A) :
  Quadtree.depth q = S (Quadtree.getDepth q).
Proof.
  induction q as [b c ps | b c ps ne IHne nw IHnw se IHse sw IHsw]; simpl;
    [done |].
  rewrite IHne, IHnw, IHse, IHsw. lia.
Qed.

(** X10: a node is subdivided only when it is full, so a tree built by
    insertions is never deeper than its content allows: each level below
    the root is paid for by [capacity] stored particles. *)
Theorem depth_bounded_by_size b c ps fuel q :
  Quadtree.insertAll px py fuel (Quadtree.new b c) ps = Some q ->
  ((Z.of_nat (Quadtree.depth q) - 1) * default 4 c <=
   Z.of_nat (Quadtree.size q))%Z.
Proof.
  intros Hbuild.
  assert (Hfull : divisionsFull (default 4%Z c) q).
  { eapply insertAll_full; [exact Hbuild |]. reflexivity. }
  apply full_depth in Hfull. rewrite depth_getDepth.
  replace (Z.of_nat (S (Quadtree.getDepth q)) - 1)%Z
    with (Z.of_nat (Quadtree.getDepth q)) by lia.
  exact Hfull.
Qed.
End QuadtreeMore.

Section QuadtreeMoreScenarios.
Local Open Scope R_scope.

Lemma scattered_built :
  exists q,
    Quadtree.insertAll Particle.x Particle.y 5
      (Quadtree.new canvas (Some 1%Z)) scattered = Some q.
Proof.
  destruct (insertAll_total Particle.x Particle.y 5 scattered
              (Quadtree.new canvas (Some 1%Z))) as (q & Hq & _).
  - apply wf_new.
  - simpl. lia.
  - simpl. lia.
  - by exists q.
Qed.

Lemma query_brute_force_witness :
  exists q,
    Quadtree.insertAll Particle.x Particle.y 5
      (Quadtree.new canvas (Some 1%Z)) scattered = Some q /\
    Quadtree.query Particle.x Particle.y q (Rectangle.mk 0 0 50 15) [] ≡ₚ
    List.filter
      (fun p => insideb Particle.x Particle.y canvas p &&
                insideb Particle.x Particle.y (Rectangle.mk 0 0 50 15) p)
      scattered.
Proof.
  destruct scattered_built as [q Hq]. exists q. split; [exact Hq |].
  destruct (query_brute_force Particle.x Particle.y canvas (Some 1%Z)
              scattered 5 q (Rectangle.mk 0 0 50 15) Hq) as (_ & _ & Hall).
  exact (Hall real_rangePruningSound real_quadrantsCover).
Defined.

Lemma size_counts_inserted_witness :
  exists q,
    Quadtree.insertAll Particle.x Particle.y 5
      (Quadtree.new canvas (Some 1%Z)) scattered = Some q /\
    Quadtree.size q =
    length (List.filter (insideb Particle.x Particle.y canvas) scattered).
Proof.
  destruct scattered_built as [q Hq]. exists q. split; [exact Hq |].
  destruct (size_counts_inserted Particle.x Particle.y canvas (Some 1%Z)
              scattered 5 q Hq) as (_ & _ & _ & Hsize).
  exact (Hsize real_quadrantsCover).
Defined.

Lemma queryCircle_drops_outside_witness :
  exists q,
    Quadtree.insertAll Particle.x Particle.y 5
      (Quadtree.new canvas (Some 1%Z)) scattered = Some q /\
    Quadtree.queryCircle Particle.x Particle.y q 0 20 500 [] ≡ₚ
    List.filter
      (fun p => insideb Particle.x Particle.y canvas p &&
                Quadtree.inCircle Particle.x Particle.y 0 20 500 p)
      scattered.
Proof.
  destruct scattered_built as [q Hq]. exists q. split; [exact Hq |].
  destruct (queryCircle_drops_outside Particle.x Particle.y canvas (Some 1%Z)
              scattered 5 q 0 20 500 Hq) as (_ & Hall).
  exact (Hall real_circlePruningSound real_quadrantsCover).
Defined.

Lemma depth_bounded_by_size_witness :
  exists q,
    Quadtree.insertAll Particle.x Particle.y 5
      (Quadtree.new canvas (Some 1%Z)) scattered = Some q /\
    ((Z.of_nat (Quadtree.depth q) - 1) * 1 <= Z.of_nat (Quadtree.size q))%Z.
Proof.
  destruct scattered_built as [q Hq]. exists q. split; [exact Hq |].
  exact (depth_bounded_by_size Particle.x Particle.y canvas (Some 1%Z)
           scattered 5 q Hq).
Defined.
End QuadtreeMoreScenarios.

(** ** PhysicsEngine.js *)

Section EngineMore.
Variable random : nat -> R.

Local Abbreviation cool :=
  (fun p => Particle.with_cooldown p CONFIG.COLLISION_COOLDOWN_FRAMES).

(** What one call of [calculateParticleInteraction] that returns does to
    the engine: it adds a force to the first particle, and then either
    leaves everything else alone or processes one collision of two
    particles out of cooldown, within the budget. *)
Lemma interaction_effect e i j e' :
  PhysicsEngine.calculateParticleInteraction random e i j = Ok e' ->
  PhysicsEngine.rules e' = PhysicsEngine.rules e /\
  PhysicsEngine.options e' = PhysicsEngine.options e /\
  exists ps1,
    (ps1 = PhysicsEngine.particles e \/
     exists p1 f,
       PhysicsEngine.particles e !! i = Some p1 /\
       ps1 = <[i := Particle.applyForce p1 f]> (PhysicsEngine.particles e)) /\
    ((PhysicsEngine.particles e' = ps1 /\
      PhysicsEngine.collisionsThisFrame e' = PhysicsEngine.collisionsThisFrame e /\
      PhysicsEngine.particlesToAdd e' = PhysicsEngine.particlesToAdd e /\
      PhysicsEngine.particlesToRemove e' = PhysicsEngine.particlesToRemove e) \/
     ((PhysicsEngine.collisionsThisFrame e <
         CONFIG.MAX_COLLISIONS_PER_FRAME)%Z /\
      (exists q1 q2,
         ps1 !! i = Some q1 /\ ps1 !! j = Some q2 /\
         (Particle.collisionCooldown q1 <= 0)%Z /\
         (Particle.collisionCooldown q2 <= 0)%Z) /\
      PhysicsEngine.particles e' = alter cool j (alter cool i ps1) /\
      PhysicsEngine.collisionsThisFrame e' =
        (PhysicsEngine.collisionsThisFrame e + 1)%Z /\
      length (PhysicsEngine.particlesToRemove e') <=
        length (PhysicsEngine.particlesToRemove e) + 2)).
Proof.
  intros Hcall.
  pattern e'. match goal with |- ?P e' => set (Post := P) end.
  assert (Hsame : Post e).
  { subst Post. cbv beta. do 2 (split; [done |]).
    exists (PhysicsEngine.particles e). split; [by left | by left]. }
  revert Hcall.
  unfold PhysicsEngine.calculateParticleInteraction.
  destruct (PhysicsEngine.particles e !! i) as [p1 |] eqn:E1;
    [| by intros [= <-]].
  destruct (PhysicsEngine.particles e !! j) as [p2 |] eqn:E2;
    [| by intros [= <-]].
  destruct (Particle.calculateForce _ _ _ _) as [f |]; simpl; [| done].
  intros [= <-].
  set (ps1 := <[i := Particle.applyForce p1 f]> (PhysicsEngine.particles e)).
  assert (Hstay : Post (PhysicsEngine.with_particles e ps1)).
  { subst Post. cbv beta. do 2 (split; [done |]).
    exists ps1. split; [right; eauto |]. by left. }
  cbn [PhysicsEngine.collisionsThisFrame PhysicsEngine.with_particles].
  destruct (PhysicsEngine.collisionsThisFrame e <?
            CONFIG.MAX_COLLISIONS_PER_FRAME)%Z eqn:Hbudget; [| exact Hstay].
  apply Z.ltb_lt in Hbudget.
  unfold PhysicsEngine.checkCollision.
  cbn [PhysicsEngine.particles PhysicsEngine.with_particles
       PhysicsEngine.options].
  destruct (ps1 !! i) as [q1 |] eqn:F1; [| exact Hstay].
  destruct (ps1 !! j) as [q2 |] eqn:F2; [| exact Hstay].
  destruct (0 <? Particle.collisionCooldown q1)%Z eqn:C1; [exact Hstay |].
  destruct (0 <? Particle.collisionCooldown q2)%Z eqn:C2; [exact Hstay |].
  cbn [orb]. apply Z.ltb_ge in C1, C2.
  destruct (Options.collisionDistanceRatio _) as [ratio |]; [| exact Hstay].
  cbv zeta. destruct (Rltb _ _); [| exact Hstay].
  unfold PhysicsEngine.processCollision.
  cbn [PhysicsEngine.particles PhysicsEngine.with_particles
       PhysicsEngine.rules].
  rewrite F1, F2.
  destruct (PhysicsEngine.rules e !! Particle.type q1 ≫= _) as [rule |];
    [| exact Hstay].
  cbv zeta. subst Post. cbv beta.
  match goal with
  | |- context [foldl ?f ?e2 ?cs] =>
    destruct (spawnAll_frame random q1 q2 cs e2) as (Hps & Hrm & Hru & Hop & Hco)
  end.
  cbn [PhysicsEngine.particles PhysicsEngine.rules PhysicsEngine.options
       PhysicsEngine.collisionsThisFrame PhysicsEngine.particlesToRemove].
  rewrite Hps, Hrm, Hru, Hop, Hco.
  split; [by destruct (destroyOriginals rule) |].
  split; [by destruct (destroyOriginals rule) |].
  exists ps1. split; [right; eauto |]. right.
  split; [done |]. split; [by exists q1, q2 |].
  destruct (destroyOriginals rule); simpl; rewrite ?length_app; simpl;
    repeat split; lia.
Qed.

(** A property of the engine that every returning call of
    [calculateParticleInteraction] keeps is kept by either force pass. *)
Lemma forcePass_invariant (P : PhysicsEngine.t -> Prop) :
  (forall e i j e',
     P e -> PhysicsEngine.calculateParticleInteraction random e i j = Ok e' ->
     P e') ->
  forall fuel canvasWidth canvasHeight e e',
    P e ->
    (if Options.useQuadtree (PhysicsEngine.options e) &&
        negb (Nat.eqb (length (PhysicsEngine.particles e)) 0)
     then PhysicsEngine.calculateForcesWithQuadtree random fuel canvasWidth
            canvasHeight e
     else Some (PhysicsEngine.calculateForcesBruteForce random e)) =
      Some (Ok e') ->
    P e'.
Proof.
  intros Hstep fuel canvasWidth canvasHeight e e' He.
  destruct (Options.useQuadtree (PhysicsEngine.options e) && _).
  - unfold PhysicsEngine.calculateForcesWithQuadtree. cbv zeta.
    destruct (Nat.eqb _ 0); [by intros [= <-] |].
    destruct (Quadtree.insertAll _ _ _ _ _) as [quadtree |]; [| done].
    intros [= Hloop]. revert e' He Hloop.
    apply forEachR_invariant.
    intros s i s' _.
    apply forEachR_invariant.
    intros s0 other s0' _ Hs0.
    destruct (Nat.eqb i other); [by intros [= <-] |].
    by apply Hstep.
  - intros [= Hloop]. revert e' He Hloop.
    unfold PhysicsEngine.calculateForcesBruteForce.
    apply forEachR_invariant.
    intros s [i j] s' _ Hs.
    destruct (PhysicsEngine.calculateParticleInteraction random s i j)
      as [s1 |] eqn:E1; simpl; [| done].
    intros E2. eapply Hstep; [| exact E2]. by eapply Hstep.
Qed.

(** [update] as its force pass followed by the edge repulsion and the
    moves. *)
Lemma update_invariant (P : PhysicsEngine.t -> Prop) :
  (forall e i j e',
     P e -> PhysicsEngine.calculateParticleInteraction random e i j = Ok e' ->
     P e') ->
  forall fuel canvasWidth canvasHeight e e',
    P (PhysicsEngine.mk
         (map Particle.resetForces (PhysicsEngine.particles e))
         (PhysicsEngine.rules e) (PhysicsEngine.options e) 0 [] []
         (PhysicsEngine.randomCalls e)) ->
    PhysicsEngine.update random fuel canvasWidth canvasHeight e =
      Some (Ok e') ->
    exists e3,
      P e3 /\
      e' = PhysicsEngine.with_particles
             (PhysicsEngine.applyEdgeRepulsion canvasWidth canvasHeight e3)
             (map Particle.update
                (PhysicsEngine.particles
                   (PhysicsEngine.applyEdgeRepulsion canvasWidth canvasHeight
                      e3))).
Proof.
  intros Hstep fuel canvasWidth canvasHeight e e' H2.
  unfold PhysicsEngine.update. cbv zeta.
  unfold PhysicsEngine.with_particles at 1 2 3 4.
  cbn [PhysicsEngine.particles PhysicsEngine.rules PhysicsEngine.options
       PhysicsEngine.collisionsThisFrame PhysicsEngine.particlesToAdd
       PhysicsEngine.particlesToRemove PhysicsEngine.randomCalls].
  set (e2 := PhysicsEngine.mk _ _ _ _ _ _ _) in *.
  destruct (if Options.useQuadtree (PhysicsEngine.options e) && _
            then _ else _) as [[e3 |] |] eqn:E; simpl; [| done | done].
  intros [= <-]. exists e3. split; [| done].
  eapply (forcePass_invariant P Hstep fuel canvasWidth canvasHeight e2);
    [exact H2 |].
  exact E.
Qed.

Lemma fmap_insert_same {B} (g : Particle.t -> B) (ps : list Particle.t) i p q :
  ps !! i = Some p -> g q = g p -> map g (<[i := q]> ps) = map g ps.
Proof.
  intros Hp Hg. apply list_eq. intros k. rewrite !list_lookup_fmap.
  destruct (decide (i = k)) as [<- | Hne].
  - rewrite list_lookup_insert_eq by by eapply lookup_lt_Some.
    rewrite Hp. simpl. by rewrite Hg.
  - by rewrite list_lookup_insert_ne.
Qed.

Lemma fmap_alter_same {B} (g : Particle.t -> B) h (ps : list Particle.t) i :
  (forall p, g (h p) = g p) -> map g (alter h i ps) = map g ps.
Proof.
  intros Hg. apply list_eq. intros k. rewrite !list_lookup_fmap.
  destruct (decide (i = k)) as [<- | Hne].
  - rewrite list_lookup_alter_eq. destruct (ps !! i); simpl; [| done].
    by rewrite Hg.
  - by rewrite list_lookup_alter_ne.
Qed.

Lemma update_identity p : identity (Particle.update p) = identity p.
Proof.
  unfold Particle.update. cbv zeta.
  assert (Hclamp : forall q,
    identity (Particle.clampAcceleration q) = identity q).
  { intros q. unfold Particle.clampAcceleration. cbv zeta.
    by destruct (Rltb _ _). }
  assert (Hclampv : forall q,
    identity (Particle.clampVelocity q) = identity q).
  { intros q. unfold Particle.clampVelocity. cbv zeta.
    by destruct (Rltb _ _). }
  unfold identity in *.
  cbn [Particle.id Particle.type Particle.size Particle.options
       Particle.friction Particle.bounceDecay Particle.maxAcceleration
       Particle.maxVelocity Particle.with_position Particle.with_velocity].
  destruct (Options.enableVelocityClamp _);
    rewrite ?Hclampv;
    cbn [Particle.id Particle.type Particle.size Particle.options
         Particle.friction Particle.bounceDecay Particle.maxAcceleration
         Particle.maxVelocity Particle.with_velocity];
    destruct (Options.enableAccelerationClamp _);
    rewrite ?Hclamp; by destruct (0 <? _)%Z.
Qed.

(** X11: [update] moves the particles and nothing else: it returns the same
    particles in the same order (ids, types, sizes, options and limits
    untouched), and the rules and options of the engine as they were;
    additions and removals are only reported. *)
Theorem update_keeps_collection fuel canvasWidth canvasHeight e e' :
  PhysicsEngine.update random fuel canvasWidth canvasHeight e = Some (Ok e') ->
  map identity (PhysicsEngine.particles e') =
    map identity (PhysicsEngine.particles e) /\
  length (PhysicsEngine.particles e') = length (PhysicsEngine.particles e) /\
  PhysicsEngine.rules e' = PhysicsEngine.rules e /\
  PhysicsEngine.options e' = PhysicsEngine.options e.
Proof.
  intros Hupd.
  assert (Hid : map identity (PhysicsEngine.particles e') =
                  map identity (PhysicsEngine.particles e) /\
                PhysicsEngine.rules e' = PhysicsEngine.rules e /\
                PhysicsEngine.options e' = PhysicsEngine.options e).
  { edestruct (update_invariant
                 (fun s =>
                    map identity (PhysicsEngine.particles s) =
                      map identity (PhysicsEngine.particles e) /\
                    PhysicsEngine.rules s = PhysicsEngine.rules e /\
                    PhysicsEngine.options s = PhysicsEngine.options e))
      as (e3 & (Hps & Hru & Hop) & ->); [| | exact Hupd |].
    - intros s i j s' (Hps & Hru & Hop) Hcall.
      apply interaction_effect in Hcall
        as (Hru' & Hop' & ps1 & Hps1 & Hcase).
      split; [| split; congruence].
      assert (H1 : map identity ps1 = map identity (PhysicsEngine.particles s)).
      { destruct Hps1 as [-> | (p1 & f & Hp1 & ->)]; [done |].
        by eapply fmap_insert_same. }
      destruct Hcase as [(-> & _) | (_ & _ & -> & _)].
      + congruence.
      + rewrite !fmap_alter_same by done. congruence.
    - cbn [PhysicsEngine.particles PhysicsEngine.rules PhysicsEngine.options].
      split; [| done]. rewrite map_map. by apply map_ext.
    - cbn [PhysicsEngine.particles PhysicsEngine.rules PhysicsEngine.options
           PhysicsEngine.with_particles PhysicsEngine.applyEdgeRepulsion].
      split; [| done]. rewrite !map_map. rewrite <- Hps.
      apply map_ext. intros p. by rewrite update_identity. }
  destruct Hid as (Hps & Hru & Hop).
  split; [done |]. split; [| done].
  apply (f_equal length) in Hps. by rewrite !length_map in Hps.
Qed.

Lemma interaction_budget s i j s' :
  withinBudget s ->
  PhysicsEngine.calculateParticleInteraction random s i j = Ok s' ->
  withinBudget s'.
Proof.
  intros (Hc & Hrm & Hzero) Hcall.
  apply interaction_effect in Hcall as (_ & _ & ps1 & _ & Hcase).
  unfold withinBudget.
  destruct Hcase as [(_ & -> & -> & ->) | (Hlt & _ & _ & -> & Hlen)].
  - done.
  - split; [lia |]. split; [lia |]. lia.
Qed.

(** X12: a frame processes at most [MAX_COLLISIONS_PER_FRAME] collisions, it
    lists at most two removals for each, and without a collision it
    requests no addition and no removal. *)
Theorem update_within_budget fuel canvasWidth canvasHeight e e' :
  PhysicsEngine.update random fuel canvasWidth canvasHeight e = Some (Ok e') ->
  (0 <= PhysicsEngine.collisionsThisFrame e' <=
     CONFIG.MAX_COLLISIONS_PER_FRAME)%Z /\
  (Z.of_nat (length (PhysicsEngine.particlesToRemove e')) <=
     2 * PhysicsEngine.collisionsThisFrame e')%Z /\
  (PhysicsEngine.collisionsThisFrame e' = 0%Z ->
   PhysicsEngine.particlesToAdd e' = [] /\
   PhysicsEngine.particlesToRemove e' = []).
Proof.
  intros Hupd.
  destruct (update_invariant withinBudget interaction_budget
              fuel canvasWidth canvasHeight e e')
    as (e3 & H3 & ->); [| exact Hupd | exact H3].
  unfold withinBudget, CONFIG.MAX_COLLISIONS_PER_FRAME. simpl.
  split; [lia |]. split; [lia | done].
Qed.

Lemma interaction_allCooling s i j s' :
  allCooling s ->
  PhysicsEngine.calculateParticleInteraction random s i j = Ok s' ->
  allCooling s' /\
  map Particle.collisionCooldown (PhysicsEngine.particles s') =
    map Particle.collisionCooldown (PhysicsEngine.particles s).
Proof.
  intros (Hc & Hadd & Hrm & Hall) Hcall.
  apply interaction_effect in Hcall as (_ & _ & ps1 & Hps1 & Hcase).
  assert (H1 : Forall (fun p => (0 < Particle.collisionCooldown p)%Z) ps1 /\
               map Particle.collisionCooldown ps1 =
                 map Particle.collisionCooldown (PhysicsEngine.particles s)).
  { destruct Hps1 as [-> | (p1 & f & Hp1 & ->)]; [done |]. split.
    - apply Forall_insert; [done |].
      by apply (Forall_lookup_1 _ _ _ _ Hall Hp1).
    - by eapply fmap_insert_same. }
  destruct H1 as [Hall1 Hmap1].
  destruct Hcase as [(Eps & Ec & Eadd & Erm) | (_ & Hout & _)].
  - unfold allCooling. by rewrite Eps, Ec, Eadd, Erm.
  - exfalso. destruct Hout as (q1 & q2 & Hq1 & _ & Hcool & _).
    pose proof (Forall_lookup_1 _ _ _ _ Hall1 Hq1) as Hpos.
    simpl in Hpos. lia.
Qed.

(** X13: while every particle is in collision cooldown a frame processes no
    collision and requests nothing, whatever the rules and the distances;
    each cooldown goes down by one. *)
Theorem update_all_cooling fuel canvasWidth canvasHeight e e' :
  Forall (fun p => (0 < Particle.collisionCooldown p)%Z)
         (PhysicsEngine.particles e) ->
  PhysicsEngine.update random fuel canvasWidth canvasHeight e = Some (Ok e') ->
  PhysicsEngine.collisionsThisFrame e' = 0%Z /\
  PhysicsEngine.particlesToAdd e' = [] /\
  PhysicsEngine.particlesToRemove e' = [] /\
  map Particle.collisionCooldown (PhysicsEngine.particles e') =
    map (fun p => (Particle.collisionCooldown p - 1)%Z)
        (PhysicsEngine.particles e).
Proof.
  intros Hall Hupd.
  edestruct (update_invariant
               (fun s =>
                  allCooling s /\
                  map Particle.collisionCooldown (PhysicsEngine.particles s) =
                    map Particle.collisionCooldown (PhysicsEngine.particles e)))
    as (e3 & ((Hc & Hadd & Hrm & Hall3) & Hmap) & ->); [| | exact Hupd |].
  - intros s i j s' (Hs & Hmap) Hcall.
    destruct (interaction_allCooling s i j s' Hs Hcall) as [Hs' Hmap'].
    split; [done | congruence].
  - split.
    + repeat split. simpl. by apply Forall_fmap.
    + simpl. rewrite map_map. by apply map_ext.
  - cbn [PhysicsEngine.particles PhysicsEngine.rules PhysicsEngine.options
         PhysicsEngine.with_particles PhysicsEngine.applyEdgeRepulsion
         PhysicsEngine.collisionsThisFrame PhysicsEngine.particlesToAdd
         PhysicsEngine.particlesToRemove].
    do 3 (split; [done |]).
    rewrite !map_map.
    transitivity (map (fun p => (Particle.collisionCooldown p - 1)%Z)
                      (PhysicsEngine.particles e3)).
    + apply Forall_fmap_ext_1.
      eapply Forall_impl; [exact Hall3 |]. intros p Hp.
      rewrite update_cooldown. simpl.
      assert (E : (0 <? Particle.collisionCooldown p)%Z = true)
        by by apply Z.ltb_lt.
      by rewrite E.
    + rewrite <- (map_map Particle.collisionCooldown (fun c => (c - 1)%Z)).
      rewrite Hmap. by rewrite map_map.
Qed.

(** X14: nothing of an earlier frame leaks into [update]: the forces the
    particles carry and the collision results the engine holds when it is
    called make no difference to what it returns. *)
Theorem update_ignores_stale_state fuel canvasWidth canvasHeight e fx' fy'
    collisions toAdd toRemove :
  PhysicsEngine.update random fuel canvasWidth canvasHeight
    (staleEngine e fx' fy' collisions toAdd toRemove) =
  PhysicsEngine.update random fuel canvasWidth canvasHeight e.
Proof.
  unfold PhysicsEngine.update, staleEngine. cbv zeta.
  cbn [PhysicsEngine.particles PhysicsEngine.rules PhysicsEngine.options
       PhysicsEngine.randomCalls PhysicsEngine.with_particles].
  rewrite map_map.
  replace (map (fun p => Particle.resetForces (Particle.with_force p (fx' p) (fy' p)))
               (PhysicsEngine.particles e))
    with (map Particle.resetForces (PhysicsEngine.particles e))
    by by apply map_ext.
  reflexivity.
Qed.
End EngineMore.

Section EngineMoreScenarios.
Local Open Scope R_scope.

Lemma update_keeps_collection_witness :
  exists e',
    PhysicsEngine.update zeroRandom 1 800 350
      (engineOf [particleB; particleA] spawnRule Options.defaultOptions) =
      Some (Ok e') /\
    map identity (PhysicsEngine.particles e') =
      map identity [particleB; particleA] /\
    length (PhysicsEngine.particles e') = 2%nat.
Proof.
  destruct (update_BA zeroRandom Options.defaultOptions) as (e' & Hupd & _);
    [by left |].
  exists e'. split; [exact Hupd |].
  destruct (update_keeps_collection zeroRandom 1 800 350 _ e' Hupd)
    as (Hid & Hlen & _).
  split; [exact Hid | exact Hlen].
Defined.

Lemma update_within_budget_witness :
  exists e',
    PhysicsEngine.update zeroRandom 1 800 350
      (engineOf [particleB; particleA] spawnRule Options.defaultOptions) =
      Some (Ok e') /\
    (0 <= PhysicsEngine.collisionsThisFrame e' <=
       CONFIG.MAX_COLLISIONS_PER_FRAME)%Z.
Proof.
  destruct (update_BA zeroRandom Options.defaultOptions) as (e' & Hupd & _);
    [by left |].
  exists e'. split; [exact Hupd |].
  exact (proj1 (update_within_budget zeroRandom 1 800 350 _ e' Hupd)).
Defined.

(** The brute-force frame of the engine whose two particles are in
    cooldown returns. *)
Lemma coolingEngine_update :
  exists e',
    PhysicsEngine.update zeroRandom 1 800 350 coolingEngine = Some (Ok e').
Proof.
  unfold PhysicsEngine.update. cbv zeta.
  set (e2 := PhysicsEngine.with_particles _ _).
  change (Options.useQuadtree (PhysicsEngine.options e2)) with false.
  cbn [andb].
  unfold PhysicsEngine.calculateForcesBruteForce.
  change (PhysicsEngine.indexPairs (length (PhysicsEngine.particles e2)))
    with [(0, 1)%nat].
  cbn [forEachR].
  destruct (interaction_in_cooldown zeroRandom e2 0 1
              (Particle.resetForces (Particle.with_cooldown particleA 60))
              (Particle.resetForces (Particle.with_cooldown particleB 3)))
    as [f1 ->]; [done | done | done | left; simpl; lia | |].
  { apply tableWith_rows. by left. }
  cbn [mbind JsResult_bind].
  set (e3 := PhysicsEngine.with_particles e2 _).
  destruct (interaction_in_cooldown zeroRandom e3 1 0
              (Particle.resetForces (Particle.with_cooldown particleB 3))
              (Particle.applyForce
                 (Particle.resetForces (Particle.with_cooldown particleA 60))
                 f1))
    as [f2 ->]; [done | done | done | left; simpl; lia | |].
  { apply tableWith_rows. by right. }
  cbn [mbind JsResult_bind]. by eexists.
Qed.

Lemma update_all_cooling_witness :
  exists e',
    PhysicsEngine.update zeroRandom 1 800 350 coolingEngine = Some (Ok e') /\
    PhysicsEngine.collisionsThisFrame e' = 0%Z /\
    map Particle.collisionCooldown (PhysicsEngine.particles e') = [59; 2]%Z.
Proof.
  destruct coolingEngine_update as [e' Hupd].
  exists e'. split; [exact Hupd |].
  destruct (update_all_cooling zeroRandom 1 800 350 coolingEngine e')
    as (Hc & _ & _ & Hcool).
  - repeat constructor; simpl; lia.
  - exact Hupd.
  - split; [exact Hc | exact Hcool].
Defined.
End EngineMoreScenarios.

(** ** RuleManager.js *)

Section RuleTableFacts.
Local Open Scope R_scope.

Lemma foldl_insert_lookup {V} (v : V) (l : list string) :
  forall (acc : gmap string V) k,
    foldl (fun m t => <[t := v]> m) acc l !! k =
    if bool_decide (k ∈ l) then Some v else acc !! k.
Proof.
  induction l as [| a l IH]; intros acc k; cbn [foldl].
  - rewrite bool_decide_eq_false_2; [done | by apply not_elem_of_nil].
  - rewrite IH. destruct (decide (k ∈ l)) as [Hin | Hnin].
    + rewrite !bool_decide_eq_true_2; [done | by right | done].
    + rewrite (bool_decide_eq_false_2 (k ∈ l)) by done.
      destruct (decide (k = a)) as [-> | Hne].
      * rewrite lookup_insert_eq, bool_decide_eq_true_2; [done | by left].
      * rewrite lookup_insert_ne by done.
        rewrite bool_decide_eq_false_2; [done |].
        intros Hin. apply elem_of_cons in Hin as [? | ?]; done.
Qed.

Lemma saveToHistory_rules {Table} (m : RuleManager.t Table) label now :
  RuleManager.rules (RuleManager.saveToHistory m label now) =
    RuleManager.rules m /\
  RuleManager.initialized (RuleManager.saveToHistory m label now) =
    RuleManager.initialized m /\
  RuleManager.maxHistorySize (RuleManager.saveToHistory m label now) =
    RuleManager.maxHistorySize m.
Proof.
  unfold RuleManager.saveToHistory. cbv zeta.
  by destruct (RuleManager.maxHistorySize m <? _)%Z.
Qed.

Lemma lookupRule_update (rules : RuleTable) row t1 t2 r u1 u2 :
  rules !! t1 = Some row ->
  lookupRule (<[t1 := <[t2 := r]> row]> rules) u1 u2 =
  if bool_decide (u1 = t1 /\ u2 = t2) then Some r else lookupRule rules u1 u2.
Proof.
  intros Hrow. unfold lookupRule.
  destruct (decide (u1 = t1)) as [-> | Hne1].
  - rewrite lookup_insert_eq. simpl.
    destruct (decide (u2 = t2)) as [-> | Hne2].
    + by rewrite lookup_insert_eq, bool_decide_eq_true_2.
    + rewrite lookup_insert_ne by done.
      rewrite bool_decide_eq_false_2 by (by intros [_ ?]).
      by rewrite Hrow.
  - rewrite lookup_insert_ne by done.
    by rewrite bool_decide_eq_false_2 by (by intros [? _]).
Qed.

Lemma initialTable_lookup types type1 type2 :
  lookupRule (RuleManager.initialTable types) type1 type2 =
  if bool_decide (type1 ∈ types /\ type2 ∈ types)
  then Some RuleManager.neutralRule else None.
Proof.
  unfold lookupRule, RuleManager.initialTable, RuleManager.initialRow.
  rewrite foldl_insert_lookup, lookup_empty.
  destruct (decide (type1 ∈ types)) as [H1 | H1].
  - rewrite (bool_decide_eq_true_2 (type1 ∈ types)) by done. simpl.
    rewrite foldl_insert_lookup, lookup_empty.
    destruct (decide (type2 ∈ types)) as [H2 | H2].
    + by rewrite !bool_decide_eq_true_2.
    + rewrite !bool_decide_eq_false_2; [done | tauto | done].
  - rewrite !bool_decide_eq_false_2; [done | tauto | done].
Qed.

Lemma initialize_rules types (m : RuleManager.t RuleTable) now :
  RuleManager.rules (RuleManager.initialize types m now) =
  RuleManager.initialTable types.
Proof.
  unfold RuleManager.initialize.
  by destruct (saveToHistory_rules
                 (RuleManager.mk (RuleManager.initialTable types) true
                    (RuleManager.ruleHistory m)
                    (RuleManager.currentHistoryIndex m)
                    (RuleManager.maxHistorySize m))
                 "Initial rules" now) as (-> & _).
Qed.

Lemma freshManager_complete :
  tableComplete ["red"%string; "blue"%string] (RuleManager.rules freshManager).
Proof.
  intros t1 t2 H1 H2. unfold freshManager.
  rewrite initialize_rules, initialTable_lookup.
  rewrite bool_decide_eq_true_2 by done. by eexists.
Qed.

(** X15: [initialize] builds the complete neutral table: the neutral rule for
    every ordered pair of registered types, nothing for any other pair,
    whatever the manager held before; and it marks the manager
    initialised. *)
Theorem initialize_table types (m : RuleManager.t RuleTable) now type1 type2 :
  lookupRule (RuleManager.rules (RuleManager.initialize types m now))
    type1 type2 =
    (if bool_decide (type1 ∈ types /\ type2 ∈ types)
     then Some RuleManager.neutralRule else None) /\
  RuleManager.initialized (RuleManager.initialize types m now) = true.
Proof.
  split.
  - rewrite initialize_rules. apply initialTable_lookup.
  - unfold RuleManager.initialize.
    by destruct (saveToHistory_rules
                   (RuleManager.mk (RuleManager.initialTable types) true
                      (RuleManager.ruleHistory m)
                      (RuleManager.currentHistoryIndex m)
                      (RuleManager.maxHistorySize m))
                   "Initial rules" now) as (_ & -> & _).
Qed.

(** X16: after [initialize], [calculateForce] on a particle of a registered
    type never throws, and outside collision range the force is zero:
    under the neutral table only the collision repulsion acts. *)
Theorem calculateForce_after_initialize types (m : RuleManager.t RuleTable)
    now self other options :
  Particle.type self ∈ types ->
  exists f,
    Particle.calculateForce self other
      (RuleManager.rules (RuleManager.initialize types m now)) options = Ok f /\
    ((Particle.size self + Particle.size other) *
       orDefault (Options.collisionDistanceRatio options) 1
     <= Particle.distance self other ->
     f = {| f_x := 0; f_y := 0 |}).
Proof.
  intros Hself. unfold RuleManager.initialize.
  destruct (saveToHistory_rules
              (RuleManager.mk (RuleManager.initialTable types) true
                 (RuleManager.ruleHistory m) (RuleManager.currentHistoryIndex m)
                 (RuleManager.maxHistorySize m))
              "Initial rules" now) as (-> & _ & _).
  cbn [RuleManager.rules].
  unfold Particle.calculateForce, Particle.distance. cbv zeta.
  set (d := sqrt _).
  destruct (Reqb d 0 || Rltb _ d); [by eexists |].
  unfold RuleManager.initialTable at 1.
  rewrite foldl_insert_lookup, bool_decide_eq_true_2 by done.
  assert (Hrule : default Particle.neutralRule
                    (RuleManager.initialRow types !! Particle.type other) =
                  Particle.neutralRule).
  { unfold RuleManager.initialRow.
    rewrite foldl_insert_lookup, lookup_empty.
    by destruct (bool_decide _). }
  rewrite Hrule. eexists. split; [reflexivity |].
  intros Hfar. apply Rltb_false in Hfar. rewrite Hfar.
  simpl. f_equal.
  - destruct (Rltb d 30); ring.
  - destruct (Rltb d 30); ring.
Qed.

Lemma calculateForce_after_initialize_witness :
  exists f,
    Particle.calculateForce redParticle blueParticle
      (RuleManager.rules freshManager) Options.defaultOptions = Ok f.
Proof.
  destruct (calculateForce_after_initialize ["red"%string; "blue"%string]
              (RuleManager.new ∅) 0 redParticle blueParticle
              Options.defaultOptions) as (f & Hf & _).
  - simpl. by left.
  - exists f. exact Hf.
Defined.

(** X17: the two in-place setters change the addressed rule and nothing else:
    [setForceRule] writes the three force fields and keeps the collision
    fields, [setCollisionRule] the other way round; every other rule, and
    the history, stay as they are, and on a missing rule nothing changes
    at all. *)
Theorem setters_lookup (m : RuleManager.t RuleTable) type1 type2
    closeForce' farForce' threshold' destroyOriginals' createParticles'
    u1 u2 :
  let mf := RuleManager.setForceRule m type1 type2 closeForce' farForce'
              threshold' in
  let mc := RuleManager.setCollisionRule m type1 type2 destroyOriginals'
              createParticles' in
  lookupRule (RuleManager.rules mf) u1 u2 =
    (if bool_decide (u1 = type1 /\ u2 = type2)
     then (fun rule =>
             {| closeForce := closeForce'; farForce := farForce';
                threshold := threshold';
                destroyOriginals := destroyOriginals rule;
                createParticles := createParticles rule |})
          <$> lookupRule (RuleManager.rules m) type1 type2
     else lookupRule (RuleManager.rules m) u1 u2) /\
  lookupRule (RuleManager.rules mc) u1 u2 =
    (if bool_decide (u1 = type1 /\ u2 = type2)
     then (fun rule =>
             {| closeForce := closeForce rule; farForce := farForce rule;
                threshold := threshold rule;
                destroyOriginals := destroyOriginals';
                createParticles := default [] createParticles' |})
          <$> lookupRule (RuleManager.rules m) type1 type2
     else lookupRule (RuleManager.rules m) u1 u2) /\
  RuleManager.ruleHistory mf = RuleManager.ruleHistory m /\
  RuleManager.ruleHistory mc = RuleManager.ruleHistory m /\
  RuleManager.currentHistoryIndex mf = RuleManager.currentHistoryIndex m /\
  RuleManager.currentHistoryIndex mc = RuleManager.currentHistoryIndex m.
Proof.
  cbv zeta. unfold RuleManager.setForceRule, RuleManager.setCollisionRule.
  assert (Hmiss : lookupRule (RuleManager.rules m) type1 type2 = None ->
    lookupRule (RuleManager.rules m) u1 u2 =
    if bool_decide (u1 = type1 /\ u2 = type2) then None
    else lookupRule (RuleManager.rules m) u1 u2).
  { intros Hnone. case_bool_decide as Hu; [| done].
    destruct Hu as [-> ->]. exact Hnone. }
  destruct (RuleManager.rules m !! type1) as [row |] eqn:Hrow.
  - destruct (row !! type2) as [rule |] eqn:Hrule.
    + assert (Hl : lookupRule (RuleManager.rules m) type1 type2 = Some rule)
        by (unfold lookupRule; by rewrite Hrow).
      cbn [RuleManager.rules RuleManager.ruleHistory
           RuleManager.currentHistoryIndex].
      rewrite !lookupRule_update, Hl by done. done.
    + assert (Hl : lookupRule (RuleManager.rules m) type1 type2 = None)
        by (unfold lookupRule; by rewrite Hrow).
      rewrite Hl. simpl. by rewrite <- Hmiss.
  - assert (Hl : lookupRule (RuleManager.rules m) type1 type2 = None)
      by (unfold lookupRule; by rewrite Hrow).
    rewrite Hl. simpl. by rewrite <- Hmiss.
Qed.
End RuleTableFacts.

Section BulkEdits.
Local Open Scope R_scope.

Lemma typePairs_elem types t1 t2 :
  (t1, t2) ∈ RuleManager.typePairs types <-> t1 ∈ types /\ t2 ∈ types.
Proof.
  unfold RuleManager.typePairs.
  rewrite list_elem_of_In, in_flat_map. split.
  - intros (a & Ha & Hin). apply in_map_iff in Hin as (b & [= <- <-] & Hb).
    by rewrite !list_elem_of_In.
  - rewrite !list_elem_of_In. intros [H1 H2]. exists t1. split; [done |].
    apply in_map_iff. by exists t2.
Qed.

(** The loop leaves the history alone, whether it returns or throws. *)
Lemma forEachRule_frame f pairs : forall k (m : RuleManager.t RuleTable),
  match RuleManager.forEachRule f pairs k m with
  | RuleManager.Return _ m' | RuleManager.Raise _ m' =>
    RuleManager.ruleHistory m' = RuleManager.ruleHistory m /\
    RuleManager.currentHistoryIndex m' = RuleManager.currentHistoryIndex m /\
    RuleManager.maxHistorySize m' = RuleManager.maxHistorySize m
  end.
Proof.
  induction pairs as [| [t1 t2] rest IH]; intros k m; simpl; [done |].
  destruct (RuleManager.rules m !! t1) as [row |]; [| done].
  destruct (row !! t2) as [rule |]; [| done].
  match goal with
  | |- match RuleManager.forEachRule f rest ?k' ?m1 with _ => _ end =>
    specialize (IH k' m1); destruct (RuleManager.forEachRule f rest k' m1)
  end; exact IH.
Qed.

(** The loop throws a TypeError when a visited rule object is missing. *)
Lemma forEachRule_throws f pairs : forall k (m : RuleManager.t RuleTable) t1 t2,
  (t1, t2) ∈ pairs ->
  lookupRule (RuleManager.rules m) t1 t2 = None ->
  exists m', RuleManager.forEachRule f pairs k m = RuleManager.Raise TypeError m'.
Proof.
  induction pairs as [| [a b] rest IH]; intros k m t1 t2 Hin Hnone.
  { by apply not_elem_of_nil in Hin. }
  simpl.
  destruct (RuleManager.rules m !! a) as [row |] eqn:Hrow; [| by eexists].
  destruct (row !! b) as [rule |] eqn:Hrule; [| by eexists].
  assert (Hne : ~ (t1 = a /\ t2 = b)).
  { intros [-> ->]. unfold lookupRule in Hnone. rewrite Hrow in Hnone.
    simpl in Hnone. congruence. }
  apply elem_of_cons in Hin as [[= -> ->] | Hin]; [tauto |].
  apply (IH _ _ t1 t2 Hin). cbn [RuleManager.rules].
  rewrite lookupRule_update by done.
  by rewrite bool_decide_eq_false_2.
Qed.

Section Loop.
Variable f : nat -> Rule -> Rule.
(** What the body keeps of a rule, and what it establishes. *)
Variable kept : Rule -> Rule -> Prop.
Variable established : Rule -> Prop.
Hypothesis kept_refl : forall r, kept r r.
Hypothesis kept_trans : forall r0 r1 r2, kept r0 r1 -> kept r1 r2 -> kept r0 r2.
Hypothesis f_keeps : forall k r, kept r (f k r).
Hypothesis f_establishes : forall k r, established (f k r).

(** On a table with the visited rule objects the loop returns; a visited
    rule ends up as the body leaves it, any other as it was. *)
Lemma forEachRule_returns pairs : forall k (m : RuleManager.t RuleTable),
  (forall t1 t2, (t1, t2) ∈ pairs ->
                 is_Some (lookupRule (RuleManager.rules m) t1 t2)) ->
  exists m',
    RuleManager.forEachRule f pairs k m = RuleManager.Return tt m' /\
    forall u1 u2,
      match lookupRule (RuleManager.rules m) u1 u2 with
      | None => lookupRule (RuleManager.rules m') u1 u2 = None
      | Some r0 =>
        exists r',
          lookupRule (RuleManager.rules m') u1 u2 = Some r' /\
          kept r0 r' /\
          ((u1, u2) ∈ pairs -> established r') /\
          ((u1, u2) ∉ pairs -> r' = r0)
      end.
Proof using Type*.
  induction pairs as [| [a b] rest IH]; intros k m Hall.
  { exists m. split; [done |]. intros u1 u2.
    destruct (lookupRule _ u1 u2) as [r0 |]; [| done].
    exists r0. split; [done |]. split; [done |]. split; [| done].
    intros Hin. by apply not_elem_of_nil in Hin. }
  destruct (Hall a b) as [rule Hab]; [by left |].
  simpl. unfold lookupRule in Hab.
  destruct (RuleManager.rules m !! a) as [row |] eqn:Hrow; [| done].
  simpl in Hab. rewrite Hab.
  set (m1 := RuleManager.mk _ _ _ _ _).
  assert (Hm1 : forall u1 u2,
    lookupRule (RuleManager.rules m1) u1 u2 =
    if bool_decide (u1 = a /\ u2 = b) then Some (f k rule)
    else lookupRule (RuleManager.rules m) u1 u2).
  { intros u1 u2. subst m1. cbn [RuleManager.rules].
    by apply lookupRule_update. }
  destruct (IH (S k) m1) as (m' & Hret & Hpost).
  { intros t1 t2 Hin. rewrite Hm1. case_bool_decide; [by eexists |].
    apply Hall. by right. }
  exists m'. split; [exact Hret |].
  intros u1 u2. specialize (Hpost u1 u2). rewrite Hm1 in Hpost.
  case_bool_decide as Hu.
  - destruct Hu as [-> ->].
    assert (Hl : lookupRule (RuleManager.rules m) a b = Some rule)
      by (unfold lookupRule; by rewrite Hrow).
    rewrite Hl. destruct Hpost as (r' & Hr' & Hk & Hest & Hsame).
    exists r'. split; [done |].
    split; [eapply kept_trans; [apply f_keeps | exact Hk] |].
    split.
    + intros _. destruct (decide ((a, b) ∈ rest)) as [Hin | Hnin]; [auto |].
      rewrite (Hsame Hnin). apply f_establishes.
    + intros Hnin. exfalso. apply Hnin. by left.
  - destruct (lookupRule (RuleManager.rules m) u1 u2) as [r0 |]; [| done].
    destruct Hpost as (r' & Hr' & Hk & Hest & Hsame).
    exists r'. split; [done |]. split; [done |]. split.
    + intros Hin. apply elem_of_cons in Hin as [[= -> ->] | Hin]; [tauto | auto].
    + intros Hnin. apply Hsame. intros Hin. apply Hnin. by right.
Qed.
End Loop.

(** X18: on a table with a rule object for every ordered pair of registered
    types, [clearAllRules] returns: it leaves the neutral rule at each of
    those pairs and every other rule as it was, and then saves one history
    entry. *)
Theorem clearAllRules_resets types (m : RuleManager.t RuleTable) now :
  tableComplete types (RuleManager.rules m) ->
  exists m2,
    RuleManager.clearAllRules types m now =
      RuleManager.Return tt
        (RuleManager.saveToHistory m2 "All rules cleared" now) /\
    RuleManager.ruleHistory m2 = RuleManager.ruleHistory m /\
    RuleManager.currentHistoryIndex m2 = RuleManager.currentHistoryIndex m /\
    forall u1 u2,
      lookupRule (RuleManager.rules m2) u1 u2 =
      if bool_decide (u1 ∈ types /\ u2 ∈ types)
      then Some RuleManager.neutralRule
      else lookupRule (RuleManager.rules m) u1 u2.
Proof.
  intros Hcomplete.
  destruct (forEachRule_returns
              (fun _ rule =>
                 {| closeForce := 0; farForce := 0; threshold := 30;
                    destroyOriginals := destroyOriginals rule;
                    createParticles := createParticles rule |})
              sameCollisionFields
              (fun r => closeForce r = 0 /\ farForce r = 0 /\ threshold r = 30))
    with (pairs := RuleManager.typePairs types) (k := 0%nat) (m := m)
    as (m1 & Hret1 & Hpost1);
    [done | intros ? ? ? [? ?] [? ?]; split; congruence | done | done | |].
  { intros t1 t2 Hin. apply typePairs_elem in Hin as [H1 H2].
    by apply Hcomplete. }
  pose proof (forEachRule_frame
                (fun _ rule =>
                   {| closeForce := 0; farForce := 0; threshold := 30;
                      destroyOriginals := destroyOriginals rule;
                      createParticles := createParticles rule |})
                (RuleManager.typePairs types) 0 m) as Hframe1.
  rewrite Hret1 in Hframe1. destruct Hframe1 as (Hh1 & Hi1 & _).
  destruct (forEachRule_returns
              (fun _ rule =>
                 {| closeForce := closeForce rule; farForce := farForce rule;
                    threshold := threshold rule;
                    destroyOriginals := false; createParticles := [] |})
              sameForceFields
              (fun r => destroyOriginals r = false /\ createParticles r = []))
    with (pairs := RuleManager.typePairs types) (k := 0%nat) (m := m1)
    as (m2 & Hret2 & Hpost2);
    [done
    | intros ? ? ? (? & ? & ?) (? & ? & ?); repeat split; congruence
    | done | done | |].
  { intros t1 t2 Hin. specialize (Hpost1 t1 t2).
    apply typePairs_elem in Hin as [H1 H2].
    destruct (Hcomplete t1 t2 H1 H2) as [r0 Hr0]. rewrite Hr0 in Hpost1.
    destruct Hpost1 as (r' & -> & _). by eexists. }
  pose proof (forEachRule_frame
                (fun _ rule =>
                   {| closeForce := closeForce rule; farForce := farForce rule;
                      threshold := threshold rule;
                      destroyOriginals := false; createParticles := [] |})
                (RuleManager.typePairs types) 0 m1) as Hframe2.
  rewrite Hret2 in Hframe2. destruct Hframe2 as (Hh2 & Hi2 & _).
  exists m2.
  unfold RuleManager.clearAllRules, RuleManager.clearForceRules.
  rewrite Hret1. unfold RuleManager.clearCollisionRules. rewrite Hret2.
  split; [done |]. split; [congruence |]. split; [congruence |].
  intros u1 u2. specialize (Hpost1 u1 u2). specialize (Hpost2 u1 u2).
  destruct (lookupRule (RuleManager.rules m) u1 u2) as [r0 |] eqn:Hr0.
  - destruct Hpost1 as (r1 & Hr1 & Hk1 & He1 & Hs1). rewrite Hr1 in Hpost2.
    destruct Hpost2 as (r2 & Hr2 & Hk2 & He2 & Hs2). rewrite Hr2.
    case_bool_decide as Hin.
    + apply typePairs_elem in Hin.
      f_equal. destruct (He1 Hin) as (F1 & F2 & F3).
      destruct (He2 Hin) as (C1 & C2). destruct Hk2 as (K1 & K2 & K3).
      destruct r2; simpl in *. unfold RuleManager.neutralRule. congruence.
    + rewrite <- typePairs_elem in Hin. by rewrite (Hs2 Hin), (Hs1 Hin).
  - rewrite Hpost1 in Hpost2. rewrite Hpost2.
    case_bool_decide as Hin; [| done].
    destruct Hin as [H1 H2].
    destruct (Hcomplete u1 u2 H1 H2) as [r Hr]. congruence.
Qed.

Lemma clearAllRules_resets_witness :
  exists m2,
    RuleManager.clearAllRules ["red"%string; "blue"%string] freshManager 1 =
      RuleManager.Return tt
        (RuleManager.saveToHistory m2 "All rules cleared" 1) /\
    lookupRule (RuleManager.rules m2) "red" "blue" =
      Some RuleManager.neutralRule.
Proof.
  destruct (clearAllRules_resets ["red"%string; "blue"%string] freshManager 1
              freshManager_complete) as (m2 & Hret & _ & _ & Hlook).
  exists m2. split; [exact Hret |].
  rewrite Hlook. rewrite bool_decide_eq_true_2; [reflexivity |]. split.
  - by left.
  - right. by left.
Defined.

(** X19: on a table that lacks the rule object of a pair of registered types
    (the empty table of a manager not yet initialised, for one) the bulk
    editors throw a TypeError, and no history entry is saved. *)
Theorem bulk_edits_throw_on_incomplete types (m : RuleManager.t RuleTable)
    now random randomCalls historyLabel type1 type2 :
  type1 ∈ types -> type2 ∈ types ->
  lookupRule (RuleManager.rules m) type1 type2 = None ->
  (exists m',
     RuleManager.clearAllRules types m now = RuleManager.Raise TypeError m' /\
     RuleManager.ruleHistory m' = RuleManager.ruleHistory m /\
     RuleManager.currentHistoryIndex m' = RuleManager.currentHistoryIndex m) /\
  (exists m',
     RuleManager.randomizeForceRules random randomCalls types m historyLabel
       now = RuleManager.Raise TypeError m' /\
     RuleManager.ruleHistory m' = RuleManager.ruleHistory m /\
     RuleManager.currentHistoryIndex m' = RuleManager.currentHistoryIndex m).
Proof.
  intros H1 H2 Hnone.
  assert (Hin : (type1, type2) ∈ RuleManager.typePairs types)
    by by apply typePairs_elem.
  split.
  - unfold RuleManager.clearAllRules, RuleManager.clearForceRules.
    match goal with
    | |- context [RuleManager.forEachRule ?f ?pairs 0 m] =>
      destruct (forEachRule_throws f pairs 0 m type1 type2 Hin Hnone)
        as [m' Hraise];
      pose proof (forEachRule_frame f pairs 0 m) as Hframe
    end.
    rewrite Hraise in Hframe. destruct Hframe as (Hh & Hi & _).
    exists m'. by rewrite Hraise.
  - unfold RuleManager.randomizeForceRules.
    match goal with
    | |- context [RuleManager.forEachRule ?f ?pairs 0 m] =>
      destruct (forEachRule_throws f pairs 0 m type1 type2 Hin Hnone)
        as [m' Hraise];
      pose proof (forEachRule_frame f pairs 0 m) as Hframe
    end.
    rewrite Hraise in Hframe. destruct Hframe as (Hh & Hi & _).
    exists m'. by rewrite Hraise.
Qed.

Lemma bulk_edits_throw_on_incomplete_witness :
  exists m',
    RuleManager.clearAllRules ["red"%string] (RuleManager.new ∅) 0 =
      RuleManager.Raise TypeError m'.
Proof.
  destruct (bulk_edits_throw_on_incomplete ["red"%string] (RuleManager.new ∅)
              0 zeroRandom 0 "Random force rules" "red" "red")
    as [(m' & Hraise & _) _].
  - by left.
  - by left.
  - reflexivity.
  - exists m'. exact Hraise.
Defined.

(** X20: [randomizeForceRules] on a complete table, with [Math.random] in
    [0, 1): it returns, every rule of a pair of registered types gets
    forces in [-1, 1) and a threshold in [20, 60) and keeps its collision
    fields, every other rule stays as it was, and one history entry is
    saved. *)
Theorem randomizeForceRules_ranges random randomCalls types
    (m : RuleManager.t RuleTable) historyLabel now :
  unitRandom random ->
  tableComplete types (RuleManager.rules m) ->
  exists m1,
    RuleManager.randomizeForceRules random randomCalls types m historyLabel
      now = RuleManager.Return tt
              (RuleManager.saveToHistory m1 historyLabel now) /\
    RuleManager.ruleHistory m1 = RuleManager.ruleHistory m /\
    RuleManager.currentHistoryIndex m1 = RuleManager.currentHistoryIndex m /\
    forall u1 u2,
      match lookupRule (RuleManager.rules m) u1 u2 with
      | None => lookupRule (RuleManager.rules m1) u1 u2 = None
      | Some r0 =>
        exists r,
          lookupRule (RuleManager.rules m1) u1 u2 = Some r /\
          sameCollisionFields r0 r /\
          (u1 ∈ types /\ u2 ∈ types ->
           -1 <= closeForce r < 1 /\ -1 <= farForce r < 1 /\
           20 <= threshold r < 60) /\
          (~ (u1 ∈ types /\ u2 ∈ types) -> r = r0)
      end.
Proof.
  intros Hrandom Hcomplete.
  destruct (forEachRule_returns
              (fun k rule =>
                 {| closeForce := (random (randomCalls + 3 * k)%nat - 0.5) * 2;
                    farForce := (random (randomCalls + 3 * k + 1)%nat - 0.5) * 2;
                    threshold := 20 + random (randomCalls + 3 * k + 2)%nat * 40;
                    destroyOriginals := destroyOriginals rule;
                    createParticles := createParticles rule |})
              sameCollisionFields
              (fun r => -1 <= closeForce r < 1 /\ -1 <= farForce r < 1 /\
                        20 <= threshold r < 60))
    with (pairs := RuleManager.typePairs types) (k := 0%nat) (m := m)
    as (m1 & Hret & Hpost);
    [done | intros ? ? ? [? ?] [? ?]; split; congruence | done | | |].
  { intros k r. cbn [closeForce farForce threshold].
    pose proof (Hrandom (randomCalls + 3 * k)%nat).
    pose proof (Hrandom (randomCalls + 3 * k + 1)%nat).
    pose proof (Hrandom (randomCalls + 3 * k + 2)%nat).
    lra. }
  { intros t1 t2 Hin. apply typePairs_elem in Hin as [H1 H2].
    by apply Hcomplete. }
  pose proof (forEachRule_frame
                (fun k rule =>
                   {| closeForce := (random (randomCalls + 3 * k)%nat - 0.5) * 2;
                      farForce := (random (randomCalls + 3 * k + 1)%nat - 0.5) * 2;
                      threshold := 20 + random (randomCalls + 3 * k + 2)%nat * 40;
                      destroyOriginals := destroyOriginals rule;
                      createParticles := createParticles rule |})
                (RuleManager.typePairs types) 0 m) as Hframe.
  rewrite Hret in Hframe. destruct Hframe as (Hh & Hi & _).
  exists m1. unfold RuleManager.randomizeForceRules. rewrite Hret.
  split; [done |]. split; [done |]. split; [done |].
  intros u1 u2. specialize (Hpost u1 u2).
  destruct (lookupRule (RuleManager.rules m) u1 u2) as [r0 |]; [| done].
  destruct Hpost as (r & Hr & Hk & Hest & Hsame).
  exists r. split; [done |]. split; [done |]. split.
  - intros Hin. apply Hest. by apply typePairs_elem.
  - intros Hnin. apply Hsame. by rewrite typePairs_elem.
Qed.

Lemma halfRandom_unit : unitRandom halfRandom.
Proof. intros n. unfold halfRandom. lra. Qed.

Lemma randomizeForceRules_ranges_witness :
  exists m1,
    RuleManager.randomizeForceRules halfRandom 0
      ["red"%string; "blue"%string] freshManager "Random force rules" 1 =
    RuleManager.Return tt
      (RuleManager.saveToHistory m1 "Random force rules" 1).
Proof.
  destruct (randomizeForceRules_ranges halfRandom 0
              ["red"%string; "blue"%string] freshManager
              "Random force rules" 1 halfRandom_unit freshManager_complete)
    as (m1 & Hret & _).
  exists m1. exact Hret.
Defined.
End BulkEdits.

Section HistoryFacts.
Context {Table : Type}.

(** X21: the history stays in step with its cursor.  If the cursor names an
    entry (or is [-1] on an empty history) and the history fits its
    bound, then a save keeps that and leaves the cursor on the last
    entry, and [undo] and [redo] keep it, never throw, and return what
    [getHistoryInfo] announces as [canUndo] and [canRedo]. *)
Theorem history_stays_in_sync (m : RuleManager.t Table) label now :
  historyInSync m ->
  (historyInSync (RuleManager.saveToHistory m label now) /\
   RuleManager.currentHistoryIndex (RuleManager.saveToHistory m label now) =
     (Z.of_nat (length (RuleManager.ruleHistory
                          (RuleManager.saveToHistory m label now))) - 1)%Z) /\
  (exists m',
     RuleManager.undo m =
       RuleManager.Return
         (RuleManager.canUndo (RuleManager.getHistoryInfo m)) m' /\
     historyInSync m') /\
  (exists m',
     RuleManager.redo m =
       RuleManager.Return
         (RuleManager.canRedo (RuleManager.getHistoryInfo m)) m' /\
     historyInSync m').
Proof.
  intros [Hidx Hmax]. split; [| split].
  - unfold RuleManager.saveToHistory. cbv zeta.
    set (history :=
      if (RuleManager.currentHistoryIndex m <?
          Z.of_nat (length (RuleManager.ruleHistory m)) - 1)%Z
      then _ else _).
    assert (Hlen : Z.of_nat (length history) =
                   (RuleManager.currentHistoryIndex m + 1)%Z).
    { subst history.
      destruct (_ <? _)%Z eqn:E.
      - unfold RuleManager.slice0.
        assert (E0 : (RuleManager.currentHistoryIndex m + 1 <? 0)%Z = false)
          by (apply Z.ltb_ge; lia).
        rewrite E0, length_take. apply Z.ltb_lt in E. lia.
      - apply Z.ltb_ge in E. lia. }
    set (entry := {| RuleManager.label := label; RuleManager.h_rules := _;
                     RuleManager.timestamp := now |}).
    destruct (_ <? Z.of_nat (length (history ++ [entry])))%Z eqn:Emax;
      unfold historyInSync;
      cbn [RuleManager.ruleHistory RuleManager.currentHistoryIndex
           RuleManager.maxHistorySize].
    + apply Z.ltb_lt in Emax. rewrite length_app in Emax. simpl in Emax.
      assert (Htail : length (tail (history ++ [entry])) = length history).
      { destruct history; simpl; [done |]. rewrite length_app. simpl. lia. }
      rewrite Htail. lia.
    + apply Z.ltb_ge in Emax. rewrite length_app in Emax |- *.
      simpl in *. lia.
  - unfold RuleManager.undo, RuleManager.getHistoryInfo. cbv zeta.
    cbn [RuleManager.canUndo].
    destruct (0 <? RuleManager.currentHistoryIndex m)%Z eqn:E.
    + apply Z.ltb_lt in E.
      cbn [RuleManager.ruleHistory RuleManager.currentHistoryIndex].
      destruct (at_index_is_Some (RuleManager.ruleHistory m)
                  (RuleManager.currentHistoryIndex m - 1)) as [entry ->];
        [lia |].
      eexists. split; [reflexivity |]. unfold historyInSync. simpl. lia.
    + by exists m.
  - unfold RuleManager.redo, RuleManager.getHistoryInfo. cbv zeta.
    cbn [RuleManager.canRedo].
    destruct (RuleManager.currentHistoryIndex m <?
              Z.of_nat (length (RuleManager.ruleHistory m)) - 1)%Z eqn:E.
    + apply Z.ltb_lt in E.
      cbn [RuleManager.ruleHistory RuleManager.currentHistoryIndex].
      destruct (at_index_is_Some (RuleManager.ruleHistory m)
                  (RuleManager.currentHistoryIndex m + 1)) as [entry ->];
        [lia |].
      eexists. split; [reflexivity |]. unfold historyInSync. simpl. lia.
    + by exists m.
Qed.
End HistoryFacts.

Lemma history_stays_in_sync_witness :
  historyInSync (RuleManager.saveToHistory freshManager "Rule change" 1) /\
  exists m',
    RuleManager.undo freshManager =
      RuleManager.Return
        (RuleManager.canUndo (RuleManager.getHistoryInfo freshManager)) m'.
Proof.
  assert (Hsync : historyInSync freshManager).
  { unfold historyInSync, freshManager, RuleManager.initialize,
      RuleManager.saveToHistory. simpl. lia. }
  destruct (history_stays_in_sync freshManager "Rule change" 1 Hsync)
    as ((Hsave & _) & (m' & Hundo & _) & _).
  split; [exact Hsave |]. exists m'. exact Hundo.
Defined.
